(** * The Privacy Protection Module runner (src/ppm.cpp)

    A shallow embedding of the stream runner of the PPM: the signal
    handler, [configure], [msg_consume], the launch functions and the
    bootstrap / consume-produce loops of [operator()], followed by the
    properties of the specification that concern them.

    The object state of the C++ class [PPM] is a record that every
    member function takes and returns.  Everything the runner receives
    from outside (the command line, the configuration file, the Kafka
    client, the BSM handler, signals) is an explicit input. *)

From Stdlib Require Import ZArith NArith String Ascii List Bool Lia.
From stdpp Require Import base option list gmap strings pretty.

Local Open Scope string_scope.
Local Open Scope Z_scope.

(** ** Error codes, messages, log records *)

(** [RdKafka::ErrorCode], restricted to the codes the runner tells
    apart; every other code is [ERR_OTHER] with its number. *)
Inductive ErrorCode :=
| ERR_NO_ERROR
| ERR__TIMED_OUT
| ERR__PARTITION_EOF
| ERR__UNKNOWN_TOPIC
| ERR__UNKNOWN_PARTITION
| ERR_LEADER_NOT_AVAILABLE
| ERR_OTHER (code : Z).

Definition is_no_error (e : ErrorCode) : bool :=
  match e with ERR_NO_ERROR => true | _ => false end.

(** [spdlog::level]. *)
Inductive level := trace | debug | info | warn | err | critical | off.

(** One call to the logger facade: the level of the call and its text.
    The log of the model is the sequence of these calls. *)
Record LogEntry := { entry_level : level; entry_text : string }.

Inductive TimestampType :=
| MSG_TIMESTAMP_NOT_AVAILABLE
| MSG_TIMESTAMP_CREATE_TIME
| MSG_TIMESTAMP_LOG_APPEND_TIME
| MSG_TIMESTAMP_UNKNOWN.

Record MessageTimestamp := { ts_type : TimestampType; ts_timestamp : Z }.

(** [RdKafka::Message] as the runner reads it. *)
Record Message := {
  msg_err : ErrorCode;
  msg_len : N;
  msg_payload : string;
  msg_offset : Z;
  msg_timestamp : MessageTimestamp;
  msg_key : option string;
  msg_errstr : string
}.

(** What the BSM handler answers for one payload: the verdict of
    [process] and the texts and sizes the runner then reads from it. *)
Record HandlerReply := {
  h_retained : bool;
  h_logString : string;
  h_result_string : string;
  h_json : string;
  h_bsm_buffer_size : N
}.

(** One call of [producer->produce]: the partition, the payload and the
    size handed over, and the status the call returned. *)
Record ProduceCall := {
  call_partition : Z;
  call_payload : string;
  call_size : N;
  call_status : ErrorCode
}.

(** The geofence built by [BuildGeofence]: the two corners, each
    coordinate present when the configuration supplied it, and the
    entities in the order of their insertion. *)
Record Quad (coord entity : Type) := {
  sw_lat : option coord; sw_lon : option coord;
  ne_lat : option coord; ne_lon : option coord;
  entities : list entity
}.
Arguments sw_lat {_ _}. Arguments sw_lon {_ _}.
Arguments ne_lat {_ _}. Arguments ne_lon {_ _}.
Arguments entities {_ _}.

(** ** The state of a PPM object *)

Section State.

Context {coord entity : Type}.

(** Modelled from the spec: the declared types of the counters, which
    ppm.hpp holds and the sources do not include.  The data model of the
    specification lists the six message counters as monotonic counters;
    each is a natural number that [++] and [+=] increase.  The EOF and
    partition counts are integers.

    [bootstrap] and [bsms_available] are the two static flags.
    [info_level] and [log] stand for the logger.  [produced] is no
    member of the class: it records the calls of [producer->produce] in
    their order, as [log] records the calls of the logger. *)
Record PPM := {
  bootstrap : bool;
  bsms_available : bool;
  exit_eof : bool;
  eof_cnt : Z;
  partition_cnt : Z;
  bsm_recv_count : N;
  bsm_send_count : N;
  bsm_filt_count : N;
  bsm_recv_bytes : N;
  bsm_send_bytes : N;
  bsm_filt_bytes : N;
  pconf : gmap string string;
  partition : Z;
  offset : Z;
  published_topic : string;
  consumed_topic : string;
  conf : gmap string string;
  tconf : gmap string string;
  qptr : option (Quad coord entity);
  consumer : option string;
  consumer_timeout : Z;
  producer : option string;
  filtered_topic : bool;
  info_level : level;
  log : list LogEntry;
  produced : list ProduceCall
}.

Definition set_bootstrap (v : bool) (s : PPM) : PPM :=
  let 'Build_PPM a b c d e f g h i j k l m n o p q r t u w x y z lg pe := s in
  Build_PPM v b c d e f g h i j k l m n o p q r t u w x y z lg pe.
Definition set_bsms_available (v : bool) (s : PPM) : PPM :=
  let 'Build_PPM a b c d e f g h i j k l m n o p q r t u w x y z lg pe := s in
  Build_PPM a v c d e f g h i j k l m n o p q r t u w x y z lg pe.
Definition set_exit_eof (v : bool) (s : PPM) : PPM :=
  let 'Build_PPM a b c d e f g h i j k l m n o p q r t u w x y z lg pe := s in
  Build_PPM a b v d e f g h i j k l m n o p q r t u w x y z lg pe.
Definition set_eof_cnt (v : Z) (s : PPM) : PPM :=
  let 'Build_PPM a b c d e f g h i j k l m n o p q r t u w x y z lg pe := s in
  Build_PPM a b c v e f g h i j k l m n o p q r t u w x y z lg pe.
Definition set_bsm_recv_count (v : N) (s : PPM) : PPM :=
  let 'Build_PPM a b c d e f g h i j k l m n o p q r t u w x y z lg pe := s in
  Build_PPM a b c d e v g h i j k l m n o p q r t u w x y z lg pe.
Definition set_bsm_send_count (v : N) (s : PPM) : PPM :=
  let 'Build_PPM a b c d e f g h i j k l m n o p q r t u w x y z lg pe := s in
  Build_PPM a b c d e f v h i j k l m n o p q r t u w x y z lg pe.
Definition set_bsm_filt_count (v : N) (s : PPM) : PPM :=
  let 'Build_PPM a b c d e f g h i j k l m n o p q r t u w x y z lg pe := s in
  Build_PPM a b c d e f g v i j k l m n o p q r t u w x y z lg pe.
Definition set_bsm_recv_bytes (v : N) (s : PPM) : PPM :=
  let 'Build_PPM a b c d e f g h i j k l m n o p q r t u w x y z lg pe := s in
  Build_PPM a b c d e f g h v j k l m n o p q r t u w x y z lg pe.
Definition set_bsm_send_bytes (v : N) (s : PPM) : PPM :=
  let 'Build_PPM a b c d e f g h i j k l m n o p q r t u w x y z lg pe := s in
  Build_PPM a b c d e f g h i v k l m n o p q r t u w x y z lg pe.
Definition set_bsm_filt_bytes (v : N) (s : PPM) : PPM :=
  let 'Build_PPM a b c d e f g h i j k l m n o p q r t u w x y z lg pe := s in
  Build_PPM a b c d e f g h i j v l m n o p q r t u w x y z lg pe.
Definition set_pconf (v : gmap string string) (s : PPM) : PPM :=
  let 'Build_PPM a b c d e f g h i j k l m n o p q r t u w x y z lg pe := s in
  Build_PPM a b c d e f g h i j k v m n o p q r t u w x y z lg pe.
Definition set_partition (v : Z) (s : PPM) : PPM :=
  let 'Build_PPM a b c d e f g h i j k l m n o p q r t u w x y z lg pe := s in
  Build_PPM a b c d e f g h i j k l v n o p q r t u w x y z lg pe.
Definition set_offset (v : Z) (s : PPM) : PPM :=
  let 'Build_PPM a b c d e f g h i j k l m n o p q r t u w x y z lg pe := s in
  Build_PPM a b c d e f g h i j k l m v o p q r t u w x y z lg pe.
Definition set_published_topic (v : string) (s : PPM) : PPM :=
  let 'Build_PPM a b c d e f g h i j k l m n o p q r t u w x y z lg pe := s in
  Build_PPM a b c d e f g h i j k l m n v p q r t u w x y z lg pe.
Definition set_consumed_topic (v : string) (s : PPM) : PPM :=
  let 'Build_PPM a b c d e f g h i j k l m n o p q r t u w x y z lg pe := s in
  Build_PPM a b c d e f g h i j k l m n o v q r t u w x y z lg pe.
Definition set_conf (v : gmap string string) (s : PPM) : PPM :=
  let 'Build_PPM a b c d e f g h i j k l m n o p q r t u w x y z lg pe := s in
  Build_PPM a b c d e f g h i j k l m n o p v r t u w x y z lg pe.
Definition set_tconf (v : gmap string string) (s : PPM) : PPM :=
  let 'Build_PPM a b c d e f g h i j k l m n o p q r t u w x y z lg pe := s in
  Build_PPM a b c d e f g h i j k l m n o p q v t u w x y z lg pe.
Definition set_qptr (v : option (Quad coord entity)) (s : PPM) : PPM :=
  let 'Build_PPM a b c d e f g h i j k l m n o p q r t u w x y z lg pe := s in
  Build_PPM a b c d e f g h i j k l m n o p q r v u w x y z lg pe.
Definition set_consumer (v : option string) (s : PPM) : PPM :=
  let 'Build_PPM a b c d e f g h i j k l m n o p q r t u w x y z lg pe := s in
  Build_PPM a b c d e f g h i j k l m n o p q r t v w x y z lg pe.
Definition set_consumer_timeout (v : Z) (s : PPM) : PPM :=
  let 'Build_PPM a b c d e f g h i j k l m n o p q r t u w x y z lg pe := s in
  Build_PPM a b c d e f g h i j k l m n o p q r t u v x y z lg pe.
Definition set_producer (v : option string) (s : PPM) : PPM :=
  let 'Build_PPM a b c d e f g h i j k l m n o p q r t u w x y z lg pe := s in
  Build_PPM a b c d e f g h i j k l m n o p q r t u w v y z lg pe.
Definition set_filtered_topic (v : bool) (s : PPM) : PPM :=
  let 'Build_PPM a b c d e f g h i j k l m n o p q r t u w x y z lg pe := s in
  Build_PPM a b c d e f g h i j k l m n o p q r t u w x v z lg pe.
Definition set_info_level (v : level) (s : PPM) : PPM :=
  let 'Build_PPM a b c d e f g h i j k l m n o p q r t u w x y z lg pe := s in
  Build_PPM a b c d e f g h i j k l m n o p q r t u w x y v lg pe.
Definition set_log (v : list LogEntry) (s : PPM) : PPM :=
  let 'Build_PPM a b c d e f g h i j k l m n o p q r t u w x y z lg pe := s in
  Build_PPM a b c d e f g h i j k l m n o p q r t u w x y z v pe.
Definition set_produced (v : list ProduceCall) (s : PPM) : PPM :=
  let 'Build_PPM a b c d e f g h i j k l m n o p q r t u w x y z lg pe := s in
  Build_PPM a b c d e f g h i j k l m n o p q r t u w x y z lg v.

(** [logger->info(...)] and its siblings append one record. *)
Definition logmsg (l : level) (t : string) (s : PPM) : PPM :=
  set_log (log s ++ [{| entry_level := l; entry_text := t |}]) s.

(** [RdKafka::Topic::PARTITION_UA] and [OFFSET_BEGINNING], [OFFSET_END],
    [OFFSET_STORED] of librdkafka. *)
Definition PARTITION_UA : Z := -1.
Definition OFFSET_BEGINNING : Z := -2.
Definition OFFSET_END : Z := -1.
Definition OFFSET_STORED : Z := -1000.

(** The constructor [PPM::PPM] together with the initial values of the
    two static flags.  The logger starts without records; [lvl] is the
    level the logger was created with. *)
Definition PPM_new (lvl : level) : PPM := {|
  bootstrap := true;
  bsms_available := true;
  exit_eof := true;
  eof_cnt := 0;
  partition_cnt := 1;
  bsm_recv_count := 0;
  bsm_send_count := 0;
  bsm_filt_count := 0;
  bsm_recv_bytes := 0;
  bsm_send_bytes := 0;
  bsm_filt_bytes := 0;
  pconf := ∅;
  partition := PARTITION_UA;
  offset := OFFSET_BEGINNING;
  published_topic := "";
  consumed_topic := "";
  conf := ∅;
  tconf := ∅;
  qptr := None;
  consumer := None;
  consumer_timeout := 500;
  producer := None;
  filtered_topic := false;
  info_level := lvl;
  log := [];
  produced := []
|}.

(** ** The signal handler *)

(** [PPM::sigterm]: both flags go down. *)
Definition sigterm (s : PPM) : PPM :=
  set_bootstrap false (set_bsms_available false s).

(** ** msg_consume *)

Definition tsname (t : TimestampType) : string :=
  match t with
  | MSG_TIMESTAMP_CREATE_TIME => "create time"
  | MSG_TIMESTAMP_LOG_APPEND_TIME => "log append time"
  | _ => "unknown"
  end.

(** The part of the [ERR_NO_ERROR] case that only writes trace records:
    offset, timestamp and key. *)
Definition trace_message (message : Message) (s : PPM) : PPM :=
  let s := logmsg trace ("Read message at byte offset: " ++ pretty (msg_offset message)) s in
  let ts := msg_timestamp message in
  let s :=
    match ts_type ts with
    | MSG_TIMESTAMP_NOT_AVAILABLE => s
    | t => logmsg trace ("Message timestamp: " ++ tsname t ++ ", type: " ++ pretty (ts_timestamp ts)) s
    end in
  match msg_key message with
  | Some k => logmsg trace ("Message key: " ++ k) s
  | None => s
  end.

(** [PPM::msg_consume]: the result is the returned boolean and the state
    after the call.  [reply] is what the handler answers when [process]
    is called on the payload; it is read in the [ERR_NO_ERROR] case
    only. *)
Definition msg_consume (message : Message) (reply : HandlerReply) (s : PPM) : bool * PPM :=
  match msg_err message with
  | ERR__TIMED_OUT =>
      (false, logmsg info "Waiting for more BSMs from the ODE producer." s)
  | ERR_NO_ERROR =>
      let s := set_bsm_recv_count (bsm_recv_count s + 1)%N s in
      let s := set_bsm_recv_bytes (bsm_recv_bytes s + msg_len message)%N s in
      let s := trace_message message s in
      if h_retained reply then
        (true, logmsg info ("BSM [RETAINED]: " ++ h_logString reply) s)
      else
        let s := logmsg info ("BSM [SUPPRESSED-" ++ h_result_string reply ++ "]: " ++ h_logString reply) s in
        let s := set_bsm_filt_count (bsm_filt_count s + 1)%N s in
        let s := set_bsm_filt_bytes (bsm_filt_bytes s + msg_len message)%N s in
        (false, s)
  | ERR__PARTITION_EOF =>
      let s := logmsg info "ODE BSM consumer partition end of file, but PPM still alive." s in
      if exit_eof s then
        let s := set_eof_cnt (eof_cnt s + 1) s in
        if eof_cnt s =? partition_cnt s then
          let s := logmsg info ("EOF reached for all " ++ pretty (partition_cnt s) ++ " partition(s)") s in
          (false, set_bsms_available false s)
        else (false, s)
      else (false, s)
  | ERR__UNKNOWN_TOPIC =>
      let s := logmsg err ("cannot consume due to an UNKNOWN consumer topic: " ++ msg_errstr message) s in
      (false, set_bsms_available false s)
  | ERR__UNKNOWN_PARTITION =>
      let s := logmsg err ("cannot consume due to an UNKNOWN consumer partition: " ++ msg_errstr message) s in
      (false, set_bsms_available false s)
  | _ =>
      let s := logmsg err ("cannot consume due to an error: " ++ msg_errstr message) s in
      (false, set_bsms_available false s)
  end.

End State.

Arguments PPM : clear implicits.

(** ** The standard library calls of [configure] *)

(** [std::isspace] in the C locale. *)
Definition isspace (c : ascii) : bool :=
  let n := nat_of_ascii c in
  (Nat.eqb n 32 || (Nat.leb 9 n && Nat.leb n 13))%bool.

Definition digit_value (c : ascii) : option Z :=
  let n := nat_of_ascii c in
  if (Nat.leb 48 n && Nat.leb n 57)%bool then Some (Z.of_nat n - 48) else None.

Fixpoint skip_spaces (s : string) : string :=
  match s with
  | String c r => if isspace c then skip_spaces r else s
  | EmptyString => s
  end.

(** The longest run of decimal digits at the head of [s], read as a
    number on top of [acc]; [None] while no digit has been read. *)
Fixpoint read_digits (s : string) (acc : option Z) : option Z :=
  match s with
  | String c r =>
      match digit_value c with
      | Some d => read_digits r (Some (10 * default 0 acc + d))
      | None => acc
      end
  | EmptyString => acc
  end.

(** The conversion shared by [strtol] and [strtoll] in base 10: leading
    white space, an optional sign, digits.  [None] when there is no
    digit to convert. *)
Definition parse_integer (s : string) : option Z :=
  match skip_spaces s with
  | String "-" r => Z.opp <$> read_digits r None
  | String "+" r => read_digits r None
  | r => read_digits r None
  end.

Definition INT_MIN : Z := - 2 ^ 31.
Definition INT_MAX : Z := 2 ^ 31 - 1.
Definition LLONG_MIN : Z := - 2 ^ 63.
Definition LLONG_MAX : Z := 2 ^ 63 - 1.

(** [std::stoi]: [None] stands for the exceptions [invalid_argument] (no
    digits) and [out_of_range] (the value does not fit an [int]). *)
Definition stoi (s : string) : option Z :=
  match parse_integer s with
  | Some v => if ((INT_MIN <=? v) && (v <=? INT_MAX))%bool then Some v else None
  | None => None
  end.

(** [strtoll(s, NULL, 10)]: zero without digits, clamped on overflow. *)
Definition strtoll (s : string) : Z :=
  match parse_integer s with
  | Some v => Z.max LLONG_MIN (Z.min LLONG_MAX v)
  | None => 0
  end.

(** ** What [configure] takes from outside *)

(** The option table of the base class [Tool], through the three
    accessors [configure] uses; [getOption(c).isSet()] is [optIsSet c].
    [optInt] may throw: [None]. *)
Record CommandLine := {
  optIsSet : ascii -> bool;
  optString : ascii -> string;
  optInt : ascii -> option Z
}.

(** The two librdkafka configuration objects. *)
Inductive ConfScope := CONF_GLOBAL | CONF_TOPIC.

(** The helpers and library calls whose code is outside ppm.cpp; the
    model holds for every choice of them.
    - [strip], [split]: [string_utilities];
    - [stod]: [std::stod], [None] when it throws;
    - [make_shapes]: [shapes::CSVInputFactory] on a map file, giving the
      circles, edges and grids, [None] when it throws;
    - [conf_accepts]: whether [RdKafka::Conf::set] answers [CONF_OK],
      and [conf_errstr] the text it leaves in [error_string] otherwise;
    - [literal_offset]: the text at a [const char*] moved by an [int];
    - [config_file]: the lines [std::getline] reads from a path, [None]
      when the stream cannot be opened;
    - [getenv]: the process environment;
    - [err2str]: [RdKafka::err2str]. *)
Class World (coord entity : Type) := {
  strip : string -> string;
  split : string -> ascii -> list string;
  stod : string -> option coord;
  make_shapes : string -> option (list entity * list entity * list entity);
  conf_accepts : ConfScope -> string -> string -> bool;
  conf_errstr : ConfScope -> string -> string -> string;
  literal_offset : string -> Z -> string;
  config_file : string -> option (list string);
  getenv : string -> option string;
  err2str : ErrorCode -> string
}.

(** ** Early return and exceptions *)

(** A member function runs on the object state and either goes on with
    a value, returns a boolean from the enclosing function, or throws.
    The state survives all three. *)
Inductive Result (S A : Type) :=
| Next (a : A) (s : S)
| Ret (b : bool) (s : S)
| Exn (s : S).
Arguments Next {S A}. Arguments Ret {S A}. Arguments Exn {S A}.

Definition result_state {S A} (r : Result S A) : S :=
  match r with Next _ s | Ret _ s | Exn s => s end.

Definition M (S A : Type) : Type := S -> Result S A.

Definition mret {S A} (a : A) : M S A := fun s => Next a s.
Definition mbind {S A B} (m : M S A) (k : A -> M S B) : M S B :=
  fun s => match m s with
           | Next a s' => k a s'
           | Ret b s' => Ret b s'
           | Exn s' => Exn s'
           end.
Definition return_ {S A} (b : bool) : M S A := fun s => Ret b s.
Definition throw {S A} : M S A := fun s => Exn s.
Definition modify {S} (f : S -> S) : M S unit := fun s => Next tt (f s).
Definition gets {S A} (f : S -> A) : M S A := fun s => Next (f s) s.
Definition when {S} (b : bool) (m : M S unit) : M S unit := if b then m else mret tt.

Declare Scope ppm_scope.
Delimit Scope ppm_scope with ppm.
Notation "x <- m ;; k" := (mbind m (fun x => k))
  (at level 100, m at next level, right associativity) : ppm_scope.
Notation "m ;; k" := (mbind m (fun _ => k))
  (at level 100, right associativity) : ppm_scope.
Local Open Scope ppm_scope.

(** How a call of a [bool] member function ends. *)
Inductive Outcome (S : Type) :=
| Returned (b : bool) (s : S)
| Thrown (s : S).
Arguments Returned {S}. Arguments Thrown {S}.

Definition call {S} (m : M S bool) (s : S) : Outcome S :=
  match m s with
  | Next b s' | Ret b s' => Returned b s'
  | Exn s' => Thrown s'
  end.

Definition outcome_state {S} (o : Outcome S) : S :=
  match o with Returned _ s | Thrown s => s end.

(** ** configure and BuildGeofence *)

Section Configure.

Context {coord entity : Type} `{World coord entity}.
Variable cli : CommandLine.

Local Abbreviation St := (PPM coord entity).

Definition logm (l : level) (t : string) : M St unit := modify (logmsg l t).

(** [conf->set(name, value, error_string)] and [tconf->set(...)]: the
    setting is stored when the library accepts it; the result says
    whether the answer was [CONF_OK]. *)
Definition conf_set (scope : ConfScope) (name value : string) : M St bool :=
  if conf_accepts scope name value then
    modify (fun s => match scope with
                     | CONF_GLOBAL => set_conf (<[name := value]> (conf s)) s
                     | CONF_TOPIC => set_tconf (<[name := value]> (tconf s)) s
                     end) ;;
    mret true
  else mret false.

(** Lines 247-265: the information log level from option [v]. *)
Definition configure_log_level : M St unit :=
  when (optIsSet cli "v") (
    let v := optString cli "v" in
    if String.eqb "trace" v then modify (set_info_level trace)
    else if String.eqb "debug" v then modify (set_info_level trace)
    else if String.eqb "info" v then modify (set_info_level trace)
    else if String.eqb "warning" v then modify (set_info_level warn)
    else if String.eqb "error" v then modify (set_info_level err)
    else if String.eqb "critical" v then modify (set_info_level critical)
    else if String.eqb "off" v then modify (set_info_level off)
    else logm warn "information logger level was configured but unreadable; using default.").

(** The body of the [getline] loop, lines 293-323.  The two calls of
    [strip] on the pieces act on their argument in place. *)
Definition configure_line (line : string) : M St unit :=
  let line := strip line in
  when (negb (String.eqb line "") && negb (String.prefix "#" line)) (
    match split line "=" with
    | [p0; p1] =>
        let p0 := strip p0 in
        let p1 := strip p1 in
        t_ok <- conf_set CONF_TOPIC p0 p1 ;;
        when t_ok (logm info ("kafka topic configuration: " ++ p0 ++ " = " ++ p1)) ;;
        g_ok <- conf_set CONF_GLOBAL p0 p1 ;;
        when g_ok (logm info ("kafka configuration: " ++ p0 ++ " = " ++ p1)) ;;
        when (negb (t_ok || g_ok)) (
          logm info ("ppm configuration: " ++ p0 ++ " = " ++ p1) ;;
          modify (fun s => set_pconf (<[p0 := p1]> (pconf s)) s))
    | _ => logm warn ("too many pieces in the configuration file line: " ++ line)
    end).

Fixpoint configure_lines (lines : list string) : M St unit :=
  match lines with
  | [] => mret tt
  | line :: rest => configure_line line ;; configure_lines rest
  end.

(** Lines 278-324: the configuration file is mandatory and is read into
    [tconf], [conf] and [pconf]. *)
Definition configure_file : M St unit :=
  if negb (optIsSet cli "c") then
    logm err "asked to use a configuration file, but option not set." ;;
    return_ false
  else
    let cfile := optString cli "c" in
    logm info ("using configuration file: " ++ cfile) ;;
    match config_file cfile with
    | None => logm err ("cannot open configuration file: " ++ cfile) ;; return_ false
    | Some lines => configure_lines lines
    end.

(** [pconf.find(key)]. *)
Definition find (key : string) : M St (option string) :=
  gets (fun s => pconf s !! key).

(** Lines 329-343: the map file, from option [m] or else from the file. *)
Definition configure_mapfile : M St string :=
  if optIsSet cli "m" then mret (optString cli "m")
  else
    search <- find "privacy.filter.geofence.mapfile" ;;
    match search with
    | Some v => mret v
    | None => logm err "no map file specified; must fail." ;; return_ false
    end.

(** One corner coordinate of the geofence: read with [stod] when the
    key is in [pconf], left at its default otherwise. *)
Definition geofence_coord (key : string) : M St (option coord) :=
  search <- find key ;;
  match search with
  | Some v => match stod v with
              | Some d => mret (Some d)
              | None => throw
              end
  | None => mret None
  end.

(** [PPM::BuildGeofence], which throws when a coordinate or the map
    file cannot be read. *)
Definition BuildGeofence (mapfile : string) : M St (Quad coord entity) :=
  logm trace "Starting BuildGeofence." ;;
  swlat <- geofence_coord "privacy.filter.geofence.sw.lat" ;;
  swlon <- geofence_coord "privacy.filter.geofence.sw.lon" ;;
  nelat <- geofence_coord "privacy.filter.geofence.ne.lat" ;;
  nelon <- geofence_coord "privacy.filter.geofence.ne.lon" ;;
  match make_shapes mapfile with
  | None => throw
  | Some (circles, edges, grids) =>
      logm trace "Completed BuildGeofence." ;;
      mret {| sw_lat := swlat; sw_lon := swlon; ne_lat := nelat; ne_lon := nelon;
              entities := circles ++ edges ++ grids |}
  end.

(** Lines 329-347: the geofence of the map file. *)
Definition configure_geofence : M St unit :=
  mapfile <- configure_mapfile ;;
  logm info ("ppm mapfile: " ++ mapfile) ;;
  q <- BuildGeofence mapfile ;;
  modify (set_qptr (Some q)).

(** Lines 349-353: the broker list from option [b]. *)
Definition configure_broker : M St unit :=
  when (optIsSet cli "b") (
    logm info ("setting kafka broker to: " ++ optString cli "b") ;;
    conf_set CONF_GLOBAL "metadata.broker.list" (optString cli "b") ;;
    mret tt).

(** Lines 355-366: the partition, from option [p] or else from the
    file, or else left at its default. *)
Definition configure_partition : M St unit :=
  (if optIsSet cli "p" then
     match optInt cli "p" with
     | Some v => modify (set_partition v)
     | None => throw
     end
   else
     search <- find "privacy.kafka.partition" ;;
     match search with
     | Some v => match stoi v with
                 | Some n => modify (set_partition n)
                 | None => throw
                 end
     | None => mret tt
     end) ;;
  p <- gets partition ;;
  logm info (literal_offset "kafka partition: " p).

(** [PPM::getEnvironmentVariable]. *)
Definition getEnvironmentVariable (variableName : string) : M St string :=
  match getenv variableName with
  | Some v => mret v
  | None =>
      logm err ("Something went wrong attempting to retrieve the environment variable " ++ variableName) ;;
      mret ""
  end.

(** Lines 368-391: the settings injected for a Confluent broker. *)
Definition configure_confluent : M St unit :=
  kafkaType <- getEnvironmentVariable "KAFKA_TYPE" ;;
  when (String.eqb kafkaType "CONFLUENT") (
    username <- getEnvironmentVariable "CONFLUENT_KEY" ;;
    password <- getEnvironmentVariable "CONFLUENT_SECRET" ;;
    host <- getEnvironmentVariable "DOCKER_HOST_IP" ;;
    conf_set CONF_GLOBAL "bootstrap.servers" host ;;
    conf_set CONF_GLOBAL "security.protocol" "SASL_SSL" ;;
    conf_set CONF_GLOBAL "sasl.mechanisms" "PLAIN" ;;
    conf_set CONF_GLOBAL "sasl.username" username ;;
    conf_set CONF_GLOBAL "sasl.password" password ;;
    conf_set CONF_GLOBAL "api.version.request" "true" ;;
    conf_set CONF_GLOBAL "api.version.fallback.ms" "0" ;;
    conf_set CONF_GLOBAL "broker.version.fallback" "0.10.0.0" ;;
    mret tt).

(** Lines 393-397 and 419-422: a librdkafka setting taken from an
    option; [configure] fails when the library refuses the value. *)
Definition configure_option (opt : ascii) (name complaint : string) : M St unit :=
  ok <- (if optIsSet cli opt then conf_set CONF_GLOBAL name (optString cli opt) else mret true) ;;
  when (negb ok) (
    logm err (complaint ++ conf_errstr CONF_GLOBAL name (optString cli opt)) ;;
    return_ false).

(** Lines 399-414: the offset from option [o]. *)
Definition configure_offset : M St unit :=
  when (optIsSet cli "o") (
    let o := optString cli "o" in
    modify (set_offset (if String.eqb o "end" then OFFSET_END
                        else if String.eqb o "beginning" then OFFSET_BEGINNING
                        else if String.eqb o "stored" then OFFSET_STORED
                        else strtoll o)) ;;
    logm info ("offset in partition set to byte: " ++ o)).

(** A topic name, from its option or else from its key of the file;
    lines 425-436 and 440-453. *)
Definition configure_topic (opt : ascii) (key missing : string) : M St string :=
  if optIsSet cli opt then mret (optString cli opt)
  else
    search <- find key ;;
    match search with
    | Some v => mret v
    | None => logm err missing ;; return_ false
    end.

(** Lines 425-438: the consumed topic. *)
Definition configure_consumed_topic : M St unit :=
  topic <- configure_topic "u" "privacy.topic.consumer" "no consumer topic was specified; must fail." ;;
  modify (set_consumed_topic topic) ;;
  logm info ("consumed topic: " ++ topic).

(** Lines 440-455: the published topic. *)
Definition configure_published_topic : M St unit :=
  topic <- configure_topic "f" "privacy.topic.producer" "no publisher topic was specified; must fail." ;;
  modify (set_published_topic topic) ;;
  logm info ("published topic: " ++ topic).

(** Lines 457-464: the consumer timeout; a value [stoi] rejects leaves
    the default. *)
Definition configure_timeout : M St unit :=
  search <- find "privacy.consumer.timeout.ms" ;;
  match search with
  | Some v => match stoi v with
              | Some n => modify (set_consumer_timeout n)
              | None => logm info "using the default consumer timeout value."
              end
  | None => mret tt
  end.

(** Lines 247-324: the log level, two fresh librdkafka configurations,
    then the file. *)
Definition configure_read : M St unit :=
  configure_log_level ;;
  logm trace "starting configure()" ;;
  modify (fun s => set_tconf ∅ (set_conf ∅ s)) ;;
  configure_file.

(** Lines 326-468: the settings, where an option of the command line
    goes before the key of the file. *)
Definition configure_settings : M St bool :=
  configure_geofence ;;
  configure_broker ;;
  configure_partition ;;
  configure_confluent ;;
  configure_option "g" "group.id" "kafka error setting configuration parameters group.id h: " ;;
  configure_offset ;;
  modify (set_exit_eof (optIsSet cli "x")) ;;
  configure_option "d" "debug" "kafka error setting configuration parameter debug: " ;;
  configure_consumed_topic ;;
  configure_published_topic ;;
  configure_timeout ;;
  logm trace "ending configure()" ;;
  mret true.

(** [PPM::configure]. *)
Definition configure_body : M St bool :=
  configure_read ;;
  configure_settings.

Definition configure (s : St) : Outcome St := call configure_body s.

End Configure.

(** ** The runner *)

(** What [consumer->metadata] answers. *)
Record Metadata := { md_err : ErrorCode; md_topics : list string }.

(** One turn of the waiting loop of [launch_consumer]: the metadata the
    broker answers and whether SIGINT or SIGTERM is delivered during the
    turn, while the runner is blocked in the metadata call or asleep. *)
Record TopicPoll := { poll_signal : bool; poll_metadata : Metadata }.

(** What the Kafka client answers during one [launch_consumer]:
    [KafkaConsumer::create] (the name of the consumer, or the error
    text), the turns of the waiting loop, and [subscribe]; and whether
    a signal is delivered before the first test of the waiting loop. *)
Record ConsumerLaunch := {
  cl_signal : bool;
  cl_create : string + string;
  cl_polls : list TopicPoll;
  cl_subscribe : ErrorCode
}.

(** The same for [launch_producer]: [Producer::create] and
    [Topic::create] (the error text when the topic handle is null). *)
Record ProducerLaunch := {
  pl_create : string + string;
  pl_topic : option string
}.

(** One turn of the consume-produce loop: whether a signal is delivered
    during the turn, the message [consume] hands over, the answer of the
    handler if [process] is called, and the status of [produce] if it
    is called.  The body of the loop writes the flags but never reads
    them, so the place of the delivery inside the turn does not show. *)
Record Iteration := {
  it_signal : bool;
  it_message : Message;
  it_reply : HandlerReply;
  it_status : ErrorCode
}.

(** One turn of the bootstrap loop: whether a signal is delivered
    between the test of the loop and the line that raises
    [bsms_available] again, the answers to the two launches and to
    [consumer->position], whether a signal is delivered during the
    sleep that follows a failed launch, and the turns of the
    consume-produce loop.  A signal at any other instant of the loops
    leaves the state that one of these deliveries, or the delivery of a
    launch, of a poll or of a turn, leaves; a signal before the loops
    is a start with both flags down, which [configure] does not
    write. *)
Record Generation := {
  gen_reset_signal : bool;
  gen_consumer : ConsumerLaunch;
  gen_producer : ProducerLaunch;
  gen_position : ErrorCode * list (string * Z);
  gen_sleep_signal : bool;
  gen_iterations : list Iteration
}.

Definition EXIT_SUCCESS : Z := 0.
Definition EXIT_FAILURE : Z := 1.

Section Runner.

Context {coord entity : Type} `{World coord entity}.

Local Abbreviation St := (PPM coord entity).

Definition deliver (signal : bool) (s : St) : St :=
  if signal then sigterm s else s.

(** [PPM::topic_available]: the search stops at the first topic of the
    metadata that carries the name. *)
Definition topic_available (topic : string) (md : Metadata) (s : St) : bool * St :=
  if is_no_error (md_err md) then
    if existsb (String.eqb topic) (md_topics md) then
      (true, logmsg info ("Topic: " ++ topic ++ " found in the kafka metadata.") s)
    else
      (false, logmsg warn ("Metadata did not contain topic: " ++ topic ++ ".") s)
  else
    (false, logmsg err ("cannot retrieve consumer metadata with error: " ++ err2str (md_err md) ++ ".") s).

(** The waiting loop of [launch_consumer], lines 644-662.  The result is
    [None] when the polls are used up with the loop still turning,
    [Some false] for the [return false] after a failed subscribe,
    [Some true] when the loop is left. *)
Fixpoint wait_for_topic (subscribe : ErrorCode) (polls : list TopicPoll) (s : St) : option bool * St :=
  if bsms_available s then
    match polls with
    | [] => (None, s)
    | poll :: rest =>
        let s := deliver (poll_signal poll) s in
        let '(found, s) := topic_available (consumed_topic s) (poll_metadata poll) s in
        if found then
          let s := logmsg trace ("Consumer topic: " ++ consumed_topic s ++ " is available.") s in
          if is_no_error subscribe then (Some true, s)
          else (Some false, logmsg critical ("Failed to subscribe to topic: " ++ consumed_topic s
                                              ++ ". Error: " ++ err2str subscribe ++ ".") s)
        else
          wait_for_topic subscribe rest
            (logmsg trace ("Waiting for needed consumer topic: " ++ consumed_topic s ++ ".") s)
    end
  else (Some true, s).

(** [PPM::launch_consumer]. *)
Definition launch_consumer (env : ConsumerLaunch) (s : St) : option bool * St :=
  let s := deliver (cl_signal env) s in
  let created :=
    match consumer s with
    | Some _ => inl s
    | None =>
        match cl_create env with
        | inl name => inl (set_consumer (Some name) s)
        | inr error_string =>
            inr (logmsg critical ("Failed to create consumer with error: " ++ error_string) s)
        end
    end in
  match created with
  | inr s => (Some false, s)
  | inl s =>
      match wait_for_topic (cl_subscribe env) (cl_polls env) s with
      | (Some true, s) =>
          (Some true, logmsg info ("Consumer: " ++ default "" (consumer s) ++ " created using topic: "
                                    ++ consumed_topic s ++ ".") s)
      | r => r
      end
  end.

(** [PPM::launch_producer]. *)
Definition launch_producer (env : ProducerLaunch) (s : St) : bool * St :=
  let created :=
    match producer s with
    | Some _ => inl s
    | None =>
        match pl_create env with
        | inl name => inl (set_producer (Some name) s)
        | inr error_string =>
            inr (logmsg critical ("Failed to create producer with error: " ++ error_string ++ ".") s)
        end
    end in
  match created with
  | inr s => (false, s)
  | inl s =>
      match pl_topic env with
      | Some error_string =>
          (false, logmsg critical ("Failed to create topic: " ++ published_topic s ++ ". Error: "
                                    ++ error_string ++ ".") (set_filtered_topic false s))
      | None =>
          let s := set_filtered_topic true s in
          (true, logmsg info ("Producer: " ++ default "" (producer s) ++ " created using topic: "
                               ++ published_topic s ++ ".") s)
      end
  end.

(** Lines 806-815: the positions are written to the information log. *)
Definition log_position (env : ErrorCode * list (string * Z)) (s : St) : St :=
  if is_no_error (fst env) then
    foldl (fun s tp => logmsg info ("topar " ++ fst tp ++ " " ++ pretty (snd tp)) s) s (snd env)
  else logmsg info ("err " ++ err2str (fst env)) s.

(** What follows a [true] from [msg_consume], lines 822-832: the JSON
    of the handler goes to the producer with the buffer size of the
    handler, and the send counters move when the status is
    [ERR_NO_ERROR]. *)
Definition produce (it : Iteration) (s : St) : St :=
  let status := it_status it in
  let s := set_produced (produced s ++ [{| call_partition := partition s;
                                           call_payload := h_json (it_reply it);
                                           call_size := h_bsm_buffer_size (it_reply it);
                                           call_status := status |}]) s in
  if is_no_error status then
    let s := set_bsm_send_count (bsm_send_count s + 1)%N s in
    let s := set_bsm_send_bytes (bsm_send_bytes s + msg_len (it_message it))%N s in
    logmsg trace "produced BSM successfully." s
  else
    logmsg err ("failed to produce retained BSM because: " ++ err2str status) s.

(** The body of the consume-produce loop, lines 819-836. *)
Definition iteration (it : Iteration) (s : St) : St :=
  let s := deliver (it_signal it) s in
  let '(retained, s) := msg_consume (it_message it) (it_reply it) s in
  if retained then produce it s else s.

(** The consume-produce loop, [while (bsms_available)].  The boolean
    tells whether the loop was left; it is [false] when the turns are
    used up and the loop would go on consuming. *)
Fixpoint consume_produce_loop (its : list Iteration) (s : St) : bool * St :=
  if bsms_available s then
    match its with
    | [] => (false, s)
    | it :: rest => consume_produce_loop rest (iteration it s)
    end
  else (true, s).

(** The body of the bootstrap loop, lines 788-837. *)
Definition generation (g : Generation) (s : St) : bool * St :=
  let s := set_bsms_available true (deliver (gen_reset_signal g) s) in
  match launch_consumer (gen_consumer g) s with
  | (None, s) => (false, s)
  | (Some false, s) => (true, deliver (gen_sleep_signal g) s)
  | (Some true, s) =>
      match launch_producer (gen_producer g) s with
      | (false, s) => (true, deliver (gen_sleep_signal g) s)
      | (true, s) => consume_produce_loop (gen_iterations g) (log_position (gen_position g) s)
      end
  end.

(** The bootstrap loop, [while (bootstrap)]. *)
Fixpoint bootstrap_loop (gens : list Generation) (s : St) : bool * St :=
  if bootstrap s then
    match gens with
    | [] => (false, s)
    | g :: rest =>
        match generation g s with
        | (true, s) => bootstrap_loop rest s
        | (false, s) => (false, s)
        end
    end
  else (true, s).

(** Lines 840-843: the summary. *)
Definition summary (s : St) : list LogEntry :=
  [ {| entry_level := info; entry_text := "PPM operations complete; shutting down..." |};
    {| entry_level := info;
       entry_text := "PPM consumed  : " ++ pretty (bsm_recv_count s) ++ " BSMs and "
                     ++ pretty (bsm_recv_bytes s) ++ " bytes" |};
    {| entry_level := info;
       entry_text := "PPM published : " ++ pretty (bsm_send_count s) ++ " BSMs and "
                     ++ pretty (bsm_send_bytes s) ++ " bytes" |};
    {| entry_level := info;
       entry_text := "PPM suppressed: " ++ pretty (bsm_filt_count s) ++ " BSMs and "
                     ++ pretty (bsm_filt_bytes s) ++ " bytes" |} ].

Definition shutdown (s : St) : St := set_log (log s ++ summary s) s.

(** Where a run stands at the end of its input: in [configure]'s
    failure exit, still inside the loops, or returned from them. *)
Record Run := { exit_status : option Z; entered_bootstrap : bool; final : St }.

(** The loops and the summary, lines 787-844. *)
Definition serve (gens : list Generation) (s : St) : Run :=
  match bootstrap_loop gens s with
  | (true, s) => {| exit_status := Some EXIT_SUCCESS; entered_bootstrap := true; final := shutdown s |}
  | (false, s) => {| exit_status := None; entered_bootstrap := true; final := s |}
  end.

(** [PPM::operator()].  Both a [false] from [configure] and an
    exception end the call with [EXIT_FAILURE]; the line the second
    case writes to the standard error stream is not part of the state. *)
Definition run (cli : CommandLine) (gens : list Generation) (s : St) : Run :=
  match configure cli s with
  | Returned true s => serve gens s
  | Returned false s | Thrown s =>
      {| exit_status := Some EXIT_FAILURE; entered_bootstrap := false; final := s |}
  end.

End Runner.

(** The produce errors of a run: the calls of [producer->produce] that
    returned another status than [ERR_NO_ERROR]. *)
Definition produce_errors {coord entity : Type} (s : PPM coord entity) : N :=
  N.of_nat (length (List.filter (fun c => negb (is_no_error (call_status c))) (produced s))).

(** ** A concrete world

    A small instance of every outside input, on which the model runs:
    a configuration file of five lines, a Kafka client that accepts the
    keys outside the [privacy.] name space, a map file without shapes. *)
Module Sample.

Fixpoint split_on (delim : ascii) (cur : string) (s : string) : list string :=
  match s with
  | EmptyString => [cur]
  | String c r =>
      if Ascii.eqb c delim then cur :: split_on delim "" r
      else split_on delim (cur ++ String c "") r
  end.

Definition rev_string (s : string) : string :=
  string_of_list_ascii (rev (list_ascii_of_string s)).

Definition trim (s : string) : string :=
  rev_string (skip_spaces (rev_string (skip_spaces s))).

Definition drop_chars (s : string) (n : Z) : string :=
  if (0 <=? n) && (n <=? Z.of_nat (String.length s)) then
    String.substring (Z.to_nat n) (String.length s - Z.to_nat n) s
  else "".

Definition file_lines : list string :=
  [ "# privacy protection module";
    "privacy.filter.geofence.mapfile = road_file.csv";
    "privacy.topic.consumer = j2735BsmRawJson";
    "privacy.topic.producer = j2735BsmFilteredJson";
    "group.id = ppm" ].

Definition error_text (e : ErrorCode) : string :=
  match e with
  | ERR_NO_ERROR => "Success"
  | ERR__TIMED_OUT => "Local: Timed out"
  | ERR__PARTITION_EOF => "Broker: No more messages"
  | ERR__UNKNOWN_TOPIC => "Local: Unknown topic"
  | ERR__UNKNOWN_PARTITION => "Local: Unknown partition"
  | ERR_LEADER_NOT_AVAILABLE => "Broker: Leader not available"
  | ERR_OTHER code => "Error " ++ pretty code
  end.

#[export] Instance world : World unit unit := {|
  strip := trim;
  split := fun s c => split_on c "" s;
  stod := fun _ => Some tt;
  make_shapes := fun _ => Some ([], [], []);
  conf_accepts := fun _ name _ => negb (String.prefix "privacy." name);
  conf_errstr := fun _ name _ => "No such configuration property: " ++ name;
  literal_offset := drop_chars;
  config_file := fun path => if String.eqb path "ppm.properties" then Some file_lines else None;
  getenv := fun _ => None;
  err2str := error_text
|}.

(** The command line [ppm -c ppm.properties -x]. *)
Definition cli : CommandLine := {|
  optIsSet := fun c => (Ascii.eqb c "c" || Ascii.eqb c "x")%bool;
  optString := fun c => if Ascii.eqb c "c" then "ppm.properties" else "";
  optInt := fun _ => None
|}.

(** The same with the consumed topic given on the command line:
    [ppm -c ppm.properties -x -u cliTopic]. *)
Definition cli_u : CommandLine := {|
  optIsSet := fun c => (Ascii.eqb c "c" || Ascii.eqb c "x" || Ascii.eqb c "u")%bool;
  optString := fun c => if Ascii.eqb c "c" then "ppm.properties"
                        else if Ascii.eqb c "u" then "cliTopic" else "";
  optInt := fun _ => None
|}.

Definition message (e : ErrorCode) (payload : string) : Message := {|
  msg_err := e;
  msg_len := N.of_nat (String.length payload);
  msg_payload := payload;
  msg_offset := 0;
  msg_timestamp := {| ts_type := MSG_TIMESTAMP_NOT_AVAILABLE; ts_timestamp := 0 |};
  msg_key := None;
  msg_errstr := error_text e
|}.

Definition reply (retained : bool) (json : string) : HandlerReply := {|
  h_retained := retained;
  h_logString := "bsm";
  h_result_string := "geoposition";
  h_json := json;
  h_bsm_buffer_size := N.of_nat (String.length json)
|}.

Definition turn (signal : bool) (e : ErrorCode) (payload : string)
    (retained : bool) (json : string) (status : ErrorCode) : Iteration :=
  {| it_signal := signal; it_message := message e payload;
     it_reply := reply retained json; it_status := status |}.

(** A retained message sent, a suppressed one, a retained one whose
    produce fails, a timeout, and the end of the partition. *)
Definition turns : list Iteration :=
  [ turn false ERR_NO_ERROR "{bsm:1}" true "{bsm:1,redacted}" ERR_NO_ERROR;
    turn false ERR_NO_ERROR "{bsm:22}" false "" ERR_NO_ERROR;
    turn false ERR_NO_ERROR "{bsm:333}" true "{}" (ERR_OTHER (-184));
    turn false ERR__TIMED_OUT "" false "" ERR_NO_ERROR;
    turn false ERR__PARTITION_EOF "" false "" ERR_NO_ERROR ].

Definition gen (signal : bool) (its : list Iteration) : Generation := {|
  gen_reset_signal := false;
  gen_consumer := {| cl_signal := false;
                     cl_create := inl "ppm-consumer";
                     cl_polls := [ {| poll_signal := false;
                                      poll_metadata := {| md_err := ERR_NO_ERROR;
                                                          md_topics := ["j2735BsmRawJson"] |} |} ];
                     cl_subscribe := ERR_NO_ERROR |};
  gen_producer := {| pl_create := inl "ppm-producer"; pl_topic := None |};
  gen_position := (ERR_NO_ERROR, []);
  gen_sleep_signal := signal;
  gen_iterations := its
|}.

(** A generation at whose start a signal lands between the test of
    the bootstrap loop and the reset of [bsms_available]. *)
Definition gen_window (its : list Iteration) : Generation := {|
  gen_reset_signal := true;
  gen_consumer := gen_consumer (gen false its);
  gen_producer := gen_producer (gen false its);
  gen_position := gen_position (gen false its);
  gen_sleep_signal := false;
  gen_iterations := its
|}.

Definition start : PPM unit unit := PPM_new info.

(** The command line [ppm -c ppm.properties -v debug]. *)
Definition cli_v : CommandLine := {|
  optIsSet := fun c => (Ascii.eqb c "c" || Ascii.eqb c "v")%bool;
  optString := fun c => if Ascii.eqb c "c" then "ppm.properties"
                        else if Ascii.eqb c "v" then "debug" else "";
  optInt := fun _ => None
|}.



(** The command line [ppm]: no option at all. *)
Definition cli_none : CommandLine := {|
  optIsSet := fun _ => false;
  optString := fun _ => "";
  optInt := fun _ => None
|}.

End Sample.

(** * Properties *)

(** ** Reasoning about calls with early return and exceptions *)

Section Logic.

Context {S : Type}.

(** [wp m Q QR QE s]: run from [s], [m] ends in a state that satisfies
    [Q] when it goes on, [QR] when it returns early, [QE] when it
    throws. *)
Definition wp {A} (m : M S A) (Q : A -> S -> Prop) (QR : bool -> S -> Prop) (QE : S -> Prop)
    (s : S) : Prop :=
  match m s with
  | Next a s' => Q a s'
  | Ret b s' => QR b s'
  | Exn s' => QE s'
  end.

Lemma wp_bind {A B} (m : M S A) (k : A -> M S B) Q QR QE s :
  wp m (fun a s' => wp (k a) Q QR QE s') QR QE s -> wp (mbind m k) Q QR QE s.
Proof. unfold wp, mbind. destruct (m s); auto. Qed.

Lemma wp_mono {A} (m : M S A) (Q Q' : A -> S -> Prop) (QR QR' : bool -> S -> Prop)
    (QE QE' : S -> Prop) s :
  wp m Q QR QE s ->
  (forall a s', Q a s' -> Q' a s') ->
  (forall b s', QR b s' -> QR' b s') ->
  (forall s', QE s' -> QE' s') ->
  wp m Q' QR' QE' s.
Proof. unfold wp. destruct (m s); auto. Qed.

Lemma wp_when (b : bool) (m : M S unit) Q QR QE s :
  (b = true -> wp m Q QR QE s) -> (b = false -> Q tt s) -> wp (when b m) Q QR QE s.
Proof. destruct b; simpl; intros Ht Hf; [apply Ht | apply Hf]; reflexivity. Qed.

(** [respects R m]: whatever way [m] ends, its last state is related by
    [R] to the state it started from. *)
Definition respects {A} (R : S -> S -> Prop) (m : M S A) : Prop :=
  forall s, wp m (fun _ => R s) (fun _ => R s) (R s) s.

Section Respects.

Variable R : S -> S -> Prop.
Hypothesis R_refl : forall s, R s s.
Hypothesis R_trans : forall s1 s2 s3, R s1 s2 -> R s2 s3 -> R s1 s3.

Lemma respects_mret {A} (a : A) : respects R (mret a).
Proof. intros s. apply R_refl. Qed.

Lemma respects_return {A} (b : bool) : respects R (@return_ S A b).
Proof. intros s. apply R_refl. Qed.

Lemma respects_throw {A} : respects R (@throw S A).
Proof. intros s. apply R_refl. Qed.

Lemma respects_gets {A} (f : S -> A) : respects R (gets f).
Proof. intros s. apply R_refl. Qed.

Lemma respects_modify (f : S -> S) : (forall s, R s (f s)) -> respects R (modify f).
Proof. intros Hf s. apply Hf. Qed.

Lemma respects_bind {A B} (m : M S A) (k : A -> M S B) :
  respects R m -> (forall a, respects R (k a)) -> respects R (mbind m k).
Proof.
  intros Hm Hk s. unfold wp, mbind.
  pose proof (Hm s) as H1. unfold wp in H1.
  destruct (m s) as [a s1 | b s1 | s1]; auto.
  pose proof (Hk a s1) as H2. unfold wp in H2.
  destruct (k a s1); eauto.
Qed.

Lemma respects_when (b : bool) (m : M S unit) : respects R m -> respects R (when b m).
Proof. destruct b; simpl; auto using respects_mret. Qed.

Lemma respects_state {A} (m : M S A) s : respects R m -> R s (result_state (m s)).
Proof. intros Hm. specialize (Hm s). unfold wp in Hm. destruct (m s); auto. Qed.

End Respects.

Lemma call_state (m : M S bool) s : outcome_state (call m s) = result_state (m s).
Proof. unfold call. destruct (m s); reflexivity. Qed.

Lemma bind_state {A B} (m : M S A) (k : A -> M S B) s :
  result_state (mbind m k s) =
  match m s with
  | Next a s' => result_state (k a s')
  | Ret _ s' | Exn s' => s'
  end.
Proof. unfold mbind. destruct (m s); reflexivity. Qed.

End Logic.

(** ** Frame conditions of [configure]

    A relation between the state before and the state after that is
    kept by the setters a step uses is kept by the step.  Each lemma
    depends on the setters of its own step only. *)

Ltac frame_step :=
  match goal with
  | |- forall _, _ => intro
  | |- respects _ (mbind _ _) => apply respects_bind; [solve [eauto] | | intros ?]
  | |- respects _ (mret _) => apply respects_mret; solve [eauto]
  | |- respects _ (return_ _) => apply respects_return; solve [eauto]
  | |- respects _ throw => apply respects_throw; solve [eauto]
  | |- respects _ (gets _) => apply respects_gets; solve [eauto]
  | |- respects _ (when _ _) => apply respects_when; [solve [eauto] | ]
  | |- respects _ (modify _) => apply respects_modify; intros ?; solve [eauto]
  | |- respects _ (match ?x with _ => _ end) => destruct x
  | |- respects _ _ => solve [eauto]
  end.

Ltac frame := repeat frame_step.

Section ConfigureFrame.

Context {coord entity : Type} `{World coord entity}.
Variable cli : CommandLine.

Local Abbreviation St := (PPM coord entity).

Variable R : St -> St -> Prop.
Hypothesis R_refl : forall s, R s s.
Hypothesis R_trans : forall s1 s2 s3, R s1 s2 -> R s2 s3 -> R s1 s3.
Hypothesis R_log : forall l t s, R s (logmsg l t s).
Hypothesis R_info_level : forall v s, R s (set_info_level v s).
Hypothesis R_conf : forall v s, R s (set_conf v s).
Hypothesis R_tconf : forall v s, R s (set_tconf v s).
Hypothesis R_pconf : forall v s, R s (set_pconf v s).
Hypothesis R_qptr : forall v s, R s (set_qptr v s).
Hypothesis R_partition : forall v s, R s (set_partition v s).
Hypothesis R_offset : forall v s, R s (set_offset v s).
Hypothesis R_exit_eof : forall v s, R s (set_exit_eof v s).
Hypothesis R_consumed_topic : forall v s, R s (set_consumed_topic v s).
Hypothesis R_published_topic : forall v s, R s (set_published_topic v s).
Hypothesis R_consumer_timeout : forall v s, R s (set_consumer_timeout v s).

Lemma logm_respects l t : respects R (logm l t).
Proof using R_log. apply respects_modify. intros s. apply R_log. Qed.

Lemma conf_set_respects scope name value : respects R (conf_set scope name value).
Proof using R_refl R_trans R_conf R_tconf.
  unfold conf_set. destruct (conf_accepts scope name value).
  - apply respects_bind; [eauto | | intros; apply respects_mret; eauto].
    apply respects_modify. intros s. destruct scope; auto.
  - apply respects_mret; eauto.
Qed.

Lemma configure_log_level_respects : respects R (configure_log_level cli).
Proof using R_refl R_log R_info_level.
  pose proof logm_respects. unfold configure_log_level. frame.
Qed.

Lemma configure_line_respects line : respects R (configure_line line).
Proof using R_refl R_trans R_log R_conf R_tconf R_pconf.
  pose proof logm_respects. pose proof conf_set_respects.
  unfold configure_line. apply respects_when; [eauto|].
  destruct (split (strip line) "=") as [|p0 [|p1 [|p2 l]]]; simpl; frame.
Qed.

Lemma configure_lines_respects lines : respects R (configure_lines lines).
Proof using R_refl R_trans R_log R_conf R_tconf R_pconf.
  pose proof configure_line_respects.
  induction lines as [|line rest IH]; simpl; frame.
Qed.

Lemma configure_file_respects : respects R (configure_file cli).
Proof using R_refl R_trans R_log R_conf R_tconf R_pconf.
  pose proof logm_respects. pose proof configure_lines_respects.
  unfold configure_file. destruct (negb (optIsSet cli "c")); frame.
Qed.

Lemma find_respects key : respects R (find key).
Proof using R_refl. unfold find. frame. Qed.

Lemma configure_mapfile_respects : respects R (configure_mapfile cli).
Proof using R_refl R_trans R_log.
  pose proof logm_respects. pose proof find_respects. unfold configure_mapfile.
  destruct (optIsSet cli "m"); frame.
Qed.

Lemma geofence_coord_respects key : respects R (geofence_coord key).
Proof using R_refl R_trans. pose proof find_respects. unfold geofence_coord. frame. Qed.

Lemma BuildGeofence_respects mapfile : respects R (BuildGeofence mapfile).
Proof using R_refl R_trans R_log.
  pose proof logm_respects. pose proof geofence_coord_respects.
  unfold BuildGeofence. frame.
Qed.

Lemma configure_geofence_respects : respects R (configure_geofence cli).
Proof using R_refl R_trans R_log R_qptr.
  pose proof logm_respects. pose proof configure_mapfile_respects.
  pose proof BuildGeofence_respects. unfold configure_geofence. frame.
Qed.

Lemma configure_broker_respects : respects R (configure_broker cli).
Proof using R_refl R_trans R_log R_conf R_tconf.
  pose proof logm_respects. pose proof conf_set_respects.
  unfold configure_broker. frame.
Qed.

Lemma configure_partition_respects : respects R (configure_partition cli).
Proof using R_refl R_trans R_log R_partition.
  pose proof logm_respects. pose proof find_respects. unfold configure_partition.
  apply respects_bind; [eauto | | frame].
  destruct (optIsSet cli "p"); frame.
Qed.

Lemma getEnvironmentVariable_respects name : respects R (getEnvironmentVariable name).
Proof using R_refl R_trans R_log.
  pose proof logm_respects. unfold getEnvironmentVariable. frame.
Qed.

Lemma configure_confluent_respects : respects R configure_confluent.
Proof using R_refl R_trans R_log R_conf R_tconf.
  pose proof getEnvironmentVariable_respects. pose proof conf_set_respects.
  unfold configure_confluent. frame.
Qed.

Lemma configure_option_respects opt name complaint :
  respects R (configure_option cli opt name complaint).
Proof using R_refl R_trans R_log R_conf R_tconf.
  pose proof logm_respects. pose proof conf_set_respects.
  unfold configure_option. frame.
Qed.

Lemma configure_offset_respects : respects R (configure_offset cli).
Proof using R_refl R_trans R_log R_offset.
  pose proof logm_respects. unfold configure_offset. frame.
Qed.

Lemma configure_topic_respects opt key missing : respects R (configure_topic cli opt key missing).
Proof using R_refl R_trans R_log.
  pose proof logm_respects. pose proof find_respects. unfold configure_topic.
  destruct (optIsSet cli opt); frame.
Qed.

Lemma configure_consumed_topic_respects : respects R (configure_consumed_topic cli).
Proof using R_refl R_trans R_log R_consumed_topic.
  pose proof logm_respects. pose proof configure_topic_respects.
  unfold configure_consumed_topic. frame.
Qed.

Lemma configure_published_topic_respects : respects R (configure_published_topic cli).
Proof using R_refl R_trans R_log R_published_topic.
  pose proof logm_respects. pose proof configure_topic_respects.
  unfold configure_published_topic. frame.
Qed.

Lemma configure_timeout_respects : respects R configure_timeout.
Proof using R_refl R_trans R_log R_consumer_timeout.
  pose proof logm_respects. pose proof find_respects. unfold configure_timeout. frame.
Qed.

Lemma configure_read_respects : respects R (configure_read cli).
Proof using R_refl R_trans R_log R_info_level R_conf R_tconf R_pconf.
  pose proof logm_respects. pose proof configure_file_respects.
  pose proof configure_log_level_respects.
  unfold configure_read. frame.
Qed.

Lemma configure_settings_respects : respects R (configure_settings cli).
Proof using R_refl R_trans R_log R_conf R_tconf R_qptr R_partition R_offset R_exit_eof
  R_consumed_topic R_published_topic R_consumer_timeout.
  pose proof logm_respects.
  pose proof configure_geofence_respects. pose proof configure_broker_respects.
  pose proof configure_partition_respects. pose proof configure_confluent_respects.
  pose proof configure_option_respects. pose proof configure_offset_respects.
  pose proof configure_consumed_topic_respects. pose proof configure_published_topic_respects.
  pose proof configure_timeout_respects.
  unfold configure_settings. frame.
Qed.

Lemma configure_body_respects : respects R (configure_body cli).
Proof using All.
  pose proof configure_read_respects. pose proof configure_settings_respects.
  unfold configure_body. frame.
Qed.

Lemma configure_related s : R s (outcome_state (configure cli s)).
Proof using All.
  unfold configure. rewrite call_state.
  apply respects_state; auto using configure_body_respects.
Qed.

End ConfigureFrame.

(** ** The counters and the record of produce calls *)

Section Tally.

Context {coord entity : Type} `{World coord entity}.

Local Abbreviation St := (PPM coord entity).

(** The six counters and the record of the produce calls. *)
Definition tally (s : St) : N * N * N * N * N * N * list ProduceCall :=
  (bsm_recv_count s, bsm_send_count s, bsm_filt_count s,
   bsm_recv_bytes s, bsm_send_bytes s, bsm_filt_bytes s, produced s).

(** The two loop flags. *)
Definition flags (s : St) : bool * bool := (bootstrap s, bsms_available s).

(** What [configure] and the launches leave alone. *)
Definition same_tally (s s' : St) : Prop := tally s' = tally s.

Lemma same_tally_refl s : same_tally s s.
Proof. reflexivity. Qed.

Lemma same_tally_trans s1 s2 s3 : same_tally s1 s2 -> same_tally s2 s3 -> same_tally s1 s3.
Proof. unfold same_tally. congruence. Qed.

Lemma tally_logmsg l t (s : St) : tally (logmsg l t s) = tally s.
Proof. destruct s; reflexivity. Qed.

Lemma tally_deliver b (s : St) : tally (deliver b s) = tally s.
Proof. destruct b, s; reflexivity. Qed.

Lemma tally_shutdown (s : St) : tally (shutdown s) = tally s.
Proof. destruct s; reflexivity. Qed.

Lemma tally_topic_available topic md (s : St) :
  tally (snd (topic_available topic md s)) = tally s.
Proof.
  unfold topic_available.
  destruct (is_no_error (md_err md)); [destruct (existsb _ _)|]; simpl; apply tally_logmsg.
Qed.

Lemma tally_wait_for_topic subscribe polls (s : St) :
  tally (snd (wait_for_topic subscribe polls s)) = tally s.
Proof.
  revert s. induction polls as [|poll rest IH]; intros s; simpl.
  - destruct (bsms_available s); reflexivity.
  - destruct (bsms_available s); [|reflexivity].
    pose proof (tally_topic_available (consumed_topic (deliver (poll_signal poll) s))
                  (poll_metadata poll) (deliver (poll_signal poll) s)) as Ht.
    destruct (topic_available _ _ _) as [found s1]. simpl in Ht.
    rewrite tally_deliver in Ht.
    destruct found.
    + destruct (is_no_error subscribe); simpl; rewrite ?tally_logmsg; exact Ht.
    + rewrite IH, tally_logmsg. exact Ht.
Qed.

Lemma tally_set_consumer v (s : St) : tally (set_consumer v s) = tally s.
Proof. destruct s; reflexivity. Qed.

Lemma tally_set_producer v (s : St) : tally (set_producer v s) = tally s.
Proof. destruct s; reflexivity. Qed.

Lemma tally_set_filtered_topic v (s : St) : tally (set_filtered_topic v s) = tally s.
Proof. destruct s; reflexivity. Qed.

Lemma tally_set_bsms_available v (s : St) : tally (set_bsms_available v s) = tally s.
Proof. destruct s; reflexivity. Qed.

Lemma tally_launch_consumer env (s : St) : tally (snd (launch_consumer env s)) = tally s.
Proof.
  unfold launch_consumer.
  assert (Hw : forall s0 : St, tally s0 = tally s ->
            tally (snd match wait_for_topic (cl_subscribe env) (cl_polls env) s0 with
                       | (Some true, s1) =>
                           (Some true, logmsg info ("Consumer: " ++ default "" (consumer s1)
                              ++ " created using topic: " ++ consumed_topic s1 ++ ".") s1)
                       | r => r
                       end) = tally s).
  { intros s0 Hs0. pose proof (tally_wait_for_topic (cl_subscribe env) (cl_polls env) s0) as Ht.
    destruct (wait_for_topic _ _ s0) as [[[|]|] s1]; simpl in *; rewrite ?tally_logmsg; congruence. }
  pose proof (tally_deliver (cl_signal env) s) as Hd.
  generalize dependent (deliver (cl_signal env) s). intros s' Hd. simpl.
  destruct (consumer s').
  - apply Hw. exact Hd.
  - destruct (cl_create env); simpl.
    + apply Hw. rewrite tally_set_consumer. exact Hd.
    + rewrite tally_logmsg. exact Hd.
Qed.

Lemma tally_launch_producer env (s : St) : tally (snd (launch_producer env s)) = tally s.
Proof.
  unfold launch_producer.
  assert (Hw : forall s0 : St, tally s0 = tally s ->
            tally (snd match pl_topic env with
                       | Some error_string =>
                           (false, logmsg critical ("Failed to create topic: " ++ published_topic s0
                              ++ ". Error: " ++ error_string ++ ".") (set_filtered_topic false s0))
                       | None =>
                           let s1 := set_filtered_topic true s0 in
                           (true, logmsg info ("Producer: " ++ default "" (producer s1)
                              ++ " created using topic: " ++ published_topic s1 ++ ".") s1)
                       end) = tally s).
  { intros s0 Hs0. destruct (pl_topic env); simpl;
      rewrite tally_logmsg, tally_set_filtered_topic; exact Hs0. }
  destruct (producer s).
  - apply Hw. reflexivity.
  - destruct (pl_create env); simpl.
    + apply Hw. apply tally_set_producer.
    + apply tally_logmsg.
Qed.

Lemma tally_log_position env (s : St) : tally (log_position env s) = tally s.
Proof.
  unfold log_position. destruct (is_no_error (fst env)); [|apply tally_logmsg].
  generalize (snd env). intros l. revert s.
  induction l as [|tp l IH]; intros s; simpl; [reflexivity|].
  rewrite IH. apply tally_logmsg.
Qed.

Lemma tally_configure cli (s : St) : tally (outcome_state (configure cli s)) = tally s.
Proof.
  apply (configure_related cli same_tally same_tally_refl same_tally_trans);
    try (intros v []; reflexivity).
  intros l t []; reflexivity.
Qed.

(** [configure] does not write the flags. *)
Lemma flags_configure cli (s : St) : flags (outcome_state (configure cli s)) = flags s.
Proof.
  apply (configure_related cli (fun s s' => flags s' = flags s));
    try (intros v []; reflexivity); try congruence.
  intros l t []; reflexivity.
Qed.

(** An invariant of the counters that every turn of the consume-produce
    loop keeps holds wherever a run stands. *)
Section Invariant.

Variable I : St -> Prop.
Hypothesis I_tally : forall s s', tally s' = tally s -> I s -> I s'.
Hypothesis I_iteration : forall it s, I s -> I (iteration it s).

Lemma consume_produce_loop_invariant its s : I s -> I (snd (consume_produce_loop its s)).
Proof using I_iteration.
  revert s. induction its as [|it rest IH]; intros s Hs; simpl.
  - destruct (bsms_available s); exact Hs.
  - destruct (bsms_available s); [|exact Hs]. apply IH, I_iteration, Hs.
Qed.

Lemma generation_invariant g s : I s -> I (snd (generation g s)).
Proof using I_tally I_iteration.
  intros Hs. unfold generation.
  pose proof (tally_launch_consumer (gen_consumer g)
                (set_bsms_available true (deliver (gen_reset_signal g) s))) as Hc.
  rewrite tally_set_bsms_available, tally_deliver in Hc.
  destruct (launch_consumer _ _) as [[[|]|] s1]; simpl in Hc |- *.
  - pose proof (tally_launch_producer (gen_producer g) s1) as Hp.
    destruct (launch_producer _ s1) as [[|] s2]; simpl in Hp |- *.
    + apply consume_produce_loop_invariant.
      apply (I_tally s); [|exact Hs]. rewrite tally_log_position. congruence.
    + apply (I_tally s); [|exact Hs]. rewrite tally_deliver. congruence.
  - apply (I_tally s); [|exact Hs]. rewrite tally_deliver. congruence.
  - apply (I_tally s); [|exact Hs]. congruence.
Qed.

Lemma bootstrap_loop_invariant gens s : I s -> I (snd (bootstrap_loop gens s)).
Proof using I_tally I_iteration.
  revert s. induction gens as [|g rest IH]; intros s Hs; simpl.
  - destruct (bootstrap s); exact Hs.
  - destruct (bootstrap s); [|exact Hs].
    pose proof (generation_invariant g s Hs) as Hg.
    destruct (generation g s) as [[|] s1]; simpl in Hg |- *; auto.
Qed.

Lemma serve_invariant gens s : I s -> I (final (serve gens s)).
Proof using I_tally I_iteration.
  intros Hs. unfold serve.
  pose proof (bootstrap_loop_invariant gens s Hs) as Hb.
  destruct (bootstrap_loop gens s) as [[|] s1]; simpl in Hb |- *; [|exact Hb].
  apply (I_tally s1); [apply tally_shutdown | exact Hb].
Qed.

Lemma run_invariant cli gens s : I s -> I (final (run cli gens s)).
Proof using I_tally I_iteration.
  intros Hs. unfold run.
  pose proof (tally_configure cli s) as Hc.
  destruct (configure cli s) as [[|] s1 | s1]; simpl in Hc |- *.
  - apply serve_invariant. apply (I_tally s); auto.
  - apply (I_tally s); auto.
  - apply (I_tally s); auto.
Qed.

End Invariant.

End Tally.

(** ** One turn of the consume-produce loop *)

(** How a turn ends for the message it consumed. *)
Inductive Verdict := NotMessage | Suppressed | Sent | ProduceFailed.

Definition classify (it : Iteration) : Verdict :=
  if is_no_error (msg_err (it_message it)) then
    if h_retained (it_reply it) then
      if is_no_error (it_status it) then Sent else ProduceFailed
    else Suppressed
  else NotMessage.

Definition failed_calls (l : list ProduceCall) : N :=
  N.of_nat (length (List.filter (fun c => negb (is_no_error (call_status c))) l)).

Lemma failed_calls_snoc l c :
  failed_calls (l ++ [c]) =
  (failed_calls l + if is_no_error (call_status c) then 0 else 1)%N.
Proof.
  unfold failed_calls. rewrite List.filter_app, length_app. simpl.
  destruct (is_no_error (call_status c)); simpl; lia.
Qed.

(** Case analysis on the tests of a turn, the state being opened. *)
Ltac split_turn :=
  repeat (simpl;
    match goal with
    | |- context [match msg_err ?m with _ => _ end] => destruct (msg_err m) eqn:?
    | |- context [if ?b then _ else _] => destruct b eqn:?
    end);
  simpl.

Section Turn.

Context {coord entity : Type} `{World coord entity}.

Local Abbreviation St := (PPM coord entity).

(** The trace records of a message touch the log only. *)
Lemma trace_message_log_only message (s : St) :
  trace_message message s = set_log (log (trace_message message s)) s.
Proof.
  unfold trace_message. destruct s.
  destruct (ts_type (msg_timestamp message)), (msg_key message); reflexivity.
Qed.

Lemma produce_errors_failed_calls (s : St) : produce_errors s = failed_calls (produced s).
Proof. reflexivity. Qed.

(** [msg_consume] never records a produce call. *)
Lemma msg_consume_produced message reply (s : St) :
  produced (snd (msg_consume message reply s)) = produced s.
Proof.
  unfold msg_consume. rewrite trace_message_log_only.
  destruct s. split_turn; reflexivity.
Qed.

(** The counts after a turn, by the verdict of the turn. *)
Lemma iteration_counts it (s : St) :
  let s' := iteration it s in
  let d := match classify it with
           | NotMessage => (0, 0, 0, 0)
           | Suppressed => (1, 0, 1, 0)
           | Sent => (1, 1, 0, 0)
           | ProduceFailed => (1, 0, 0, 1)
           end%N in
  (bsm_recv_count s', bsm_send_count s', bsm_filt_count s', produce_errors s') =
  (bsm_recv_count s + d.1.1.1, bsm_send_count s + d.1.1.2,
   bsm_filt_count s + d.1.2, produce_errors s + d.2)%N.
Proof.
  destruct it as [signal message reply status].
  unfold iteration, classify, produce, msg_consume, deliver, sigterm, produce_errors.
  rewrite trace_message_log_only.
  destruct s. split_turn; rewrite ?N.add_0_r; try reflexivity;
    match goal with
    | |- context [List.filter ?f (?l ++ [?c])] =>
        change (N.of_nat (length (List.filter f (l ++ [c])))) with (failed_calls (l ++ [c]));
        change (N.of_nat (length (List.filter f l))) with (failed_calls l);
        rewrite failed_calls_snoc
    end; simpl;
    match goal with Hst : is_no_error _ = _ |- _ => rewrite Hst end;
    rewrite ?N.add_0_r; reflexivity.
Qed.

(** The byte counters after a turn, by the verdict of the turn. *)
Lemma iteration_bytes it (s : St) :
  let s' := iteration it s in
  let n := msg_len (it_message it) in
  let d := match classify it with
           | NotMessage => (0, 0, 0)
           | Suppressed => (n, 0, n)
           | Sent => (n, n, 0)
           | ProduceFailed => (n, 0, 0)
           end%N in
  (bsm_recv_bytes s', bsm_send_bytes s', bsm_filt_bytes s') =
  (bsm_recv_bytes s + d.1.1, bsm_send_bytes s + d.1.2, bsm_filt_bytes s + d.2)%N.
Proof.
  destruct it as [signal message reply status].
  unfold iteration, classify, produce, msg_consume, deliver, sigterm.
  rewrite trace_message_log_only.
  destruct s. split_turn; rewrite ?N.add_0_r; reflexivity.
Qed.

(** A turn never raises a flag. *)
Lemma iteration_flags_down it (s : St) :
  (bootstrap s = false -> bootstrap (iteration it s) = false) /\
  (bsms_available s = false -> bsms_available (iteration it s) = false).
Proof.
  destruct it as [signal message reply status].
  unfold iteration, produce, msg_consume, deliver, sigterm.
  rewrite trace_message_log_only.
  destruct s. split_turn; split; congruence.
Qed.

End Turn.

(** ** The claims on [msg_consume] and on one turn of the loop *)

Section TurnClaims.

Context {coord entity : Type} `{World coord entity}.

Local Abbreviation St := (PPM coord entity).

(** C9. Timeout is a no-op: on a message whose error code is
    [ERR__TIMED_OUT], [msg_consume] returns false and the state after
    the call is the state before it with one information record added
    to the log; the six counters, the EOF count and the two flags keep
    their values. *)
Theorem timeout_is_noop (message : Message) (reply : HandlerReply) (s : St) :
  msg_err message = ERR__TIMED_OUT ->
  let r := msg_consume message reply s in
  r.1 = false /\
  r.2 = logmsg info "Waiting for more BSMs from the ODE producer." s /\
  tally r.2 = tally s /\
  eof_cnt r.2 = eof_cnt s /\
  flags r.2 = flags s.
Proof.
  intros Herr. unfold msg_consume. rewrite Herr. simpl.
  destruct s; repeat split.
Qed.

(** C3. Partition EOF: on a message whose error code is
    [ERR__PARTITION_EOF], [msg_consume] returns false; the EOF count is
    incremented if and only if [exit_eof] is set; [bsms_available] goes
    down exactly when [exit_eof] is set and the incremented count equals
    the partition count; with [exit_eof] unset nothing changes but the
    log.  The six counters and [bootstrap] never change. *)
Theorem partition_eof_handling (message : Message) (reply : HandlerReply) (s : St) :
  msg_err message = ERR__PARTITION_EOF ->
  let r := msg_consume message reply s in
  r.1 = false /\
  (eof_cnt r.2 = eof_cnt s + 1 <-> exit_eof s = true) /\
  eof_cnt r.2 = (if exit_eof s then eof_cnt s + 1 else eof_cnt s) /\
  bsms_available r.2 =
    (if exit_eof s && (eof_cnt s + 1 =? partition_cnt s) then false else bsms_available s) /\
  bootstrap r.2 = bootstrap s /\
  tally r.2 = tally s /\
  (exit_eof s = false ->
   r.2 = logmsg info "ODE BSM consumer partition end of file, but PPM still alive." s).
Proof.
  intros Herr. unfold msg_consume. rewrite Herr.
  destruct s as [? ? xe ec pc ? ? ? ? ? ? ? ? ? ? ? ? ? ? ? ? ? ? ? ? ?]. simpl.
  destruct xe; simpl.
  - destruct (ec + 1 =? pc); simpl; repeat split; auto; discriminate.
  - repeat split; auto; try discriminate. intros Hec. lia.
Qed.

(** C10. On a successful produce of a retained message the producer is
    handed the JSON of the handler with the handler's buffer size,
    while [bsm_send_bytes] grows by the length of the consumed message:
    the size of the payload sent does not enter the counter. *)
Theorem send_bytes_counts_message_length (it : Iteration) (s : St) :
  msg_err (it_message it) = ERR_NO_ERROR ->
  h_retained (it_reply it) = true ->
  it_status it = ERR_NO_ERROR ->
  let s' := iteration it s in
  bsm_send_bytes s' = (bsm_send_bytes s + msg_len (it_message it))%N /\
  produced s' = (produced s ++ [ {| call_partition := partition s;
                                    call_payload := h_json (it_reply it);
                                    call_size := h_bsm_buffer_size (it_reply it);
                                    call_status := ERR_NO_ERROR |} ])%list.
Proof.
  destruct it as [signal message reply status]. simpl. intros Herr Hret Hst.
  unfold iteration, produce, msg_consume, deliver, sigterm. simpl.
  rewrite trace_message_log_only, Herr, Hret, Hst.
  destruct s, signal; simpl; split; reflexivity.
Qed.

(** C4. A failed produce is not fatal and does not count as sent: on a
    retained message whose produce call returns another status than
    [ERR_NO_ERROR], the turn ends with an error record in the log, the
    send counters are those of before, the receive counters have moved
    by one message and its length, and no flag is written by the
    failure; a loop that was turning and received no signal goes on to
    the next turn. *)
Theorem produce_failure_not_fatal (it : Iteration) (s : St) :
  msg_err (it_message it) = ERR_NO_ERROR ->
  h_retained (it_reply it) = true ->
  it_status it <> ERR_NO_ERROR ->
  let s' := iteration it s in
  last (log s') = Some {| entry_level := err;
                          entry_text := "failed to produce retained BSM because: "
                                        ++ err2str (it_status it) |} /\
  bsm_send_count s' = bsm_send_count s /\
  bsm_send_bytes s' = bsm_send_bytes s /\
  bsm_recv_count s' = (bsm_recv_count s + 1)%N /\
  bsm_recv_bytes s' = (bsm_recv_bytes s + msg_len (it_message it))%N /\
  flags s' = flags (deliver (it_signal it) s) /\
  (it_signal it = false -> bsms_available s = true ->
   bsms_available s' = true /\
   forall it' rest,
     consume_produce_loop (it :: it' :: rest) s =
     consume_produce_loop rest (iteration it' s')).
Proof.
  destruct it as [signal message reply status]. simpl. intros Herr Hret Hst.
  assert (Hno : is_no_error status = false) by (destruct status; simpl; congruence).
  assert (Hflags : flags (iteration (Build_Iteration signal message reply status) s)
                   = flags (deliver signal s)).
  { unfold iteration, produce, msg_consume, deliver, sigterm. simpl.
    rewrite trace_message_log_only, Herr, Hret, Hno.
    destruct s, signal; reflexivity. }
  split; [|split; [|split; [|split; [|split; [|split; [exact Hflags|]]]]]].
  1-5: unfold iteration, produce, msg_consume, deliver, sigterm; simpl;
       rewrite trace_message_log_only, Herr, Hret, Hno;
       destruct s, signal; simpl; rewrite ?last_snoc; reflexivity.
  intros -> Hav. unfold flags in Hflags. simpl in Hflags.
  assert (Hav' : bsms_available (iteration (Build_Iteration false message reply status) s) = true)
    by congruence.
  split; [exact Hav'|].
  intros it' rest. simpl. rewrite Hav, Hav'. reflexivity.
Qed.

End TurnClaims.

(** ** The flags through the loops *)

Section Flags.

Context {coord entity : Type} `{World coord entity}.

Local Abbreviation St := (PPM coord entity).

(** Only the signal handler lowers [bootstrap], and it lowers
    [bsms_available] with it; once the bootstrap loop has raised
    [bsms_available] again, a lowered [bootstrap] comes with a lowered
    [bsms_available]. *)
Definition lowered_together (s : St) : Prop :=
  bootstrap s = false -> bsms_available s = false.

Lemma flags_logmsg l t (s : St) : flags (logmsg l t s) = flags s.
Proof. destruct s; reflexivity. Qed.

Lemma flags_sigterm (s : St) : flags (sigterm s) = (false, false).
Proof. destruct s; reflexivity. Qed.

Lemma lowered_together_flags (s s' : St) :
  flags s' = flags s -> lowered_together s -> lowered_together s'.
Proof. unfold lowered_together, flags. intros [= -> ->]. auto. Qed.

Lemma lowered_together_deliver b (s : St) :
  lowered_together s -> lowered_together (deliver b s).
Proof. destruct b; simpl; auto. destruct s; intros _ _; reflexivity. Qed.

Lemma flags_topic_available topic md (s : St) :
  flags (snd (topic_available topic md s)) = flags s.
Proof.
  unfold topic_available.
  destruct (is_no_error (md_err md)); [destruct (existsb _ _)|]; simpl; apply flags_logmsg.
Qed.

Lemma wait_for_topic_flags subscribe polls (s : St) :
  lowered_together s ->
  let r := wait_for_topic subscribe polls s in
  lowered_together r.2 /\ (r.1 = None -> bsms_available r.2 = true).
Proof.
  revert s. induction polls as [|poll rest IH]; intros s Hs; simpl.
  - destruct (bsms_available s) eqn:Hav; simpl; split; auto; discriminate.
  - destruct (bsms_available s) eqn:Hav; simpl; [|split; auto; discriminate].
    pose proof (flags_topic_available (consumed_topic (deliver (poll_signal poll) s))
                  (poll_metadata poll) (deliver (poll_signal poll) s)) as Hf.
    apply (lowered_together_deliver (poll_signal poll)) in Hs.
    destruct (topic_available _ _ _) as [found s1]. simpl in Hf.
    assert (Hs1 : lowered_together s1) by (eapply lowered_together_flags; eauto).
    destruct found.
    + destruct (is_no_error subscribe); simpl; split; try discriminate;
        eapply lowered_together_flags; try exact Hs1; rewrite ?flags_logmsg; reflexivity.
    + apply IH. eapply lowered_together_flags; [apply flags_logmsg | exact Hs1].
Qed.

Lemma flags_set_consumer v (s : St) : flags (set_consumer v s) = flags s.
Proof. destruct s; reflexivity. Qed.

Lemma flags_set_producer v (s : St) : flags (set_producer v s) = flags s.
Proof. destruct s; reflexivity. Qed.

Lemma flags_set_filtered_topic v (s : St) : flags (set_filtered_topic v s) = flags s.
Proof. destruct s; reflexivity. Qed.

Lemma launch_consumer_flags env (s : St) :
  lowered_together s ->
  let r := launch_consumer env s in
  lowered_together r.2 /\ (r.1 = None -> bsms_available r.2 = true).
Proof.
  intros Hs. unfold launch_consumer.
  assert (Hw : forall s0 : St, lowered_together s0 ->
            let r := match wait_for_topic (cl_subscribe env) (cl_polls env) s0 with
                     | (Some true, s1) =>
                         (Some true, logmsg info ("Consumer: " ++ default "" (consumer s1)
                            ++ " created using topic: " ++ consumed_topic s1 ++ ".") s1)
                     | r => r
                     end in
            lowered_together r.2 /\ (r.1 = None -> bsms_available r.2 = true)).
  { intros s0 Hs0.
    pose proof (wait_for_topic_flags (cl_subscribe env) (cl_polls env) s0 Hs0) as [Hl Hn].
    destruct (wait_for_topic _ _ s0) as [[[|]|] s1]; simpl in *; split; auto; try discriminate.
    eapply lowered_together_flags; [apply flags_logmsg | exact Hl]. }
  apply (lowered_together_deliver (cl_signal env)) in Hs.
  generalize dependent (deliver (cl_signal env) s). intros s' Hs. simpl.
  destruct (consumer s').
  - apply Hw, Hs.
  - destruct (cl_create env); simpl.
    + apply Hw. eapply lowered_together_flags; [apply flags_set_consumer | exact Hs].
    + split; [|discriminate].
      eapply lowered_together_flags; [apply flags_logmsg | exact Hs].
Qed.

Lemma flags_launch_producer env (s : St) : flags (snd (launch_producer env s)) = flags s.
Proof.
  unfold launch_producer.
  assert (Hw : forall s0 : St, flags s0 = flags s ->
            flags (snd match pl_topic env with
                       | Some error_string =>
                           (false, logmsg critical ("Failed to create topic: " ++ published_topic s0
                              ++ ". Error: " ++ error_string ++ ".") (set_filtered_topic false s0))
                       | None =>
                           let s1 := set_filtered_topic true s0 in
                           (true, logmsg info ("Producer: " ++ default "" (producer s1)
                              ++ " created using topic: " ++ published_topic s1 ++ ".") s1)
                       end) = flags s).
  { intros s0 Hs0. destruct (pl_topic env); simpl;
      rewrite flags_logmsg, flags_set_filtered_topic; exact Hs0. }
  destruct (producer s).
  - apply Hw. reflexivity.
  - destruct (pl_create env); simpl.
    + apply Hw. apply flags_set_producer.
    + apply flags_logmsg.
Qed.

Lemma flags_log_position env (s : St) : flags (log_position env s) = flags s.
Proof.
  unfold log_position. destruct (is_no_error (fst env)); [|apply flags_logmsg].
  generalize (snd env). intros l. revert s.
  induction l as [|tp l IH]; intros s; simpl; [reflexivity|].
  rewrite IH. apply flags_logmsg.
Qed.

Lemma lowered_together_iteration it (s : St) :
  lowered_together s -> lowered_together (iteration it s).
Proof.
  destruct it as [signal message reply status].
  unfold lowered_together, iteration, produce, msg_consume, deliver, sigterm.
  rewrite trace_message_log_only.
  destruct s as [bs av ? ? ? ? ? ? ? ? ? ? ? ? ? ? ? ? ? ? ? ? ? ? ? ?].
  destruct bs, av; split_turn; intuition congruence.
Qed.

Lemma consume_produce_loop_flags its (s : St) :
  lowered_together s ->
  let r := consume_produce_loop its s in
  lowered_together r.2 /\ (r.1 = false -> bsms_available r.2 = true).
Proof.
  revert s. induction its as [|it rest IH]; intros s Hs; simpl.
  - destruct (bsms_available s) eqn:Hav; simpl; split; auto; discriminate.
  - destruct (bsms_available s) eqn:Hav; simpl; [|split; auto; discriminate].
    apply IH, lowered_together_iteration, Hs.
Qed.

Lemma generation_flags g (s : St) :
  bootstrap s = true -> gen_reset_signal g = false ->
  let r := generation g s in
  lowered_together r.2 /\ (r.1 = false -> bsms_available r.2 = true).
Proof.
  intros Hb Hw. unfold generation. rewrite Hw. simpl.
  assert (H0 : lowered_together (set_bsms_available true s)).
  { destruct s; unfold lowered_together; simpl in *; congruence. }
  pose proof (launch_consumer_flags (gen_consumer g) _ H0) as [Hl Hn].
  destruct (launch_consumer _ _) as [[[|]|] s1]; simpl in Hl, Hn |- *.
  - pose proof (flags_launch_producer (gen_producer g) s1) as Hp.
    destruct (launch_producer _ s1) as [[|] s2]; simpl in Hp |- *.
    + apply consume_produce_loop_flags.
      eapply lowered_together_flags; [|exact Hl]. rewrite flags_log_position. exact Hp.
    + split; [|discriminate].
      apply lowered_together_deliver. eapply lowered_together_flags; eauto.
  - split; [|discriminate]. apply lowered_together_deliver, Hl.
  - split; auto.
Qed.

(** The bootstrap loop is left as soon as [bootstrap] is down, when no
    signal lands between the test of the loop and the reset of
    [bsms_available]: a run that stands inside the loops at the end of
    its input then has [bootstrap] up. *)
Lemma bootstrap_loop_left gens (s : St) :
  Forall (fun g => gen_reset_signal g = false) gens ->
  bootstrap (bootstrap_loop gens s).2 = false -> (bootstrap_loop gens s).1 = true.
Proof.
  intros Hgens. revert s. induction Hgens as [|g rest Hg Hrest IH]; intros s; simpl.
  - destruct (bootstrap s) eqn:Hb; simpl; congruence.
  - destruct (bootstrap s) eqn:Hb; simpl; [|reflexivity].
    pose proof (generation_flags g s Hb Hg) as [Hl Hn].
    destruct (generation g s) as [[|] s1]; simpl in Hl, Hn |- *.
    + apply IH.
    + intros Hb1. specialize (Hl Hb1). specialize (Hn eq_refl). congruence.
Qed.

(** A loop that stands at the end of its input has the flag it tests
    up, wherever the signals landed. *)
Lemma wait_for_topic_waiting subscribe polls (s : St) :
  (wait_for_topic subscribe polls s).1 = None ->
  bsms_available (wait_for_topic subscribe polls s).2 = true.
Proof.
  revert s. induction polls as [|poll rest IH]; intros s; simpl.
  - destruct (bsms_available s) eqn:Hav; simpl; congruence.
  - destruct (bsms_available s) eqn:Hav; simpl; [|discriminate].
    destruct (topic_available _ _ _) as [[|] s1].
    + destruct (is_no_error subscribe); simpl; discriminate.
    + apply IH.
Qed.

Lemma launch_consumer_waiting env (s : St) :
  (launch_consumer env s).1 = None -> bsms_available (launch_consumer env s).2 = true.
Proof.
  unfold launch_consumer.
  assert (Hw : forall s0 : St,
            let r := match wait_for_topic (cl_subscribe env) (cl_polls env) s0 with
                     | (Some true, s1) =>
                         (Some true, logmsg info ("Consumer: " ++ default "" (consumer s1)
                            ++ " created using topic: " ++ consumed_topic s1 ++ ".") s1)
                     | r => r
                     end in
            r.1 = None -> bsms_available r.2 = true).
  { intros s0.
    pose proof (wait_for_topic_waiting (cl_subscribe env) (cl_polls env) s0) as Hn.
    destruct (wait_for_topic _ _ s0) as [[[|]|] s1]; simpl in *; auto; discriminate. }
  generalize (deliver (cl_signal env) s). intros s'. simpl.
  destruct (consumer s').
  - apply Hw.
  - destruct (cl_create env); simpl; [apply Hw | discriminate].
Qed.

Lemma consume_produce_loop_waiting its (s : St) :
  (consume_produce_loop its s).1 = false ->
  bsms_available (consume_produce_loop its s).2 = true.
Proof.
  revert s. induction its as [|it rest IH]; intros s; simpl.
  - destruct (bsms_available s) eqn:Hav; simpl; congruence.
  - destruct (bsms_available s) eqn:Hav; simpl; [apply IH | discriminate].
Qed.

Lemma generation_waiting g (s : St) :
  (generation g s).1 = false -> bsms_available (generation g s).2 = true.
Proof.
  unfold generation.
  pose proof (launch_consumer_waiting (gen_consumer g)
                (set_bsms_available true (deliver (gen_reset_signal g) s))) as Hc.
  destruct (launch_consumer _ _) as [[[|]|] s1]; simpl in Hc |- *.
  - destruct (launch_producer _ s1) as [[|] s2]; simpl.
    + apply consume_produce_loop_waiting.
    + discriminate.
  - discriminate.
  - auto.
Qed.

Lemma bootstrap_loop_waiting gens (s : St) :
  (bootstrap_loop gens s).1 = false ->
  bootstrap (bootstrap_loop gens s).2 = true \/ bsms_available (bootstrap_loop gens s).2 = true.
Proof.
  revert s. induction gens as [|g rest IH]; intros s; simpl.
  - destruct (bootstrap s) eqn:Hb; simpl; [auto | discriminate].
  - destruct (bootstrap s) eqn:Hb; simpl; [|discriminate].
    pose proof (generation_waiting g s) as Hg.
    destruct (generation g s) as [[|] s1]; simpl in Hg |- *; auto.
Qed.

End Flags.

(** ** The claims on whole runs *)

Section RunClaims.

Context {coord entity : Type} `{World coord entity}.

Local Abbreviation St := (PPM coord entity).

Definition conserved (s : St) : Prop :=
  bsm_recv_count s = (bsm_send_count s + bsm_filt_count s + produce_errors s)%N.

Definition bytes_bounded (s : St) : Prop :=
  (bsm_send_bytes s + bsm_filt_bytes s <= bsm_recv_bytes s)%N.

Lemma conserved_tally (s s' : St) : tally s' = tally s -> conserved s -> conserved s'.
Proof. unfold conserved, produce_errors, tally. intros [= -> -> -> _ _ _ ->]. auto. Qed.

Lemma bytes_bounded_tally (s s' : St) : tally s' = tally s -> bytes_bounded s -> bytes_bounded s'.
Proof. unfold bytes_bounded, tally. intros [= _ _ _ -> -> -> _]. auto. Qed.

Lemma conserved_iteration it (s : St) : conserved s -> conserved (iteration it s).
Proof.
  unfold conserved. intros Hs.
  pose proof (iteration_counts it s) as Hc. simpl in Hc.
  injection Hc as -> -> -> ->.
  destruct (classify it); simpl; lia.
Qed.

Lemma bytes_bounded_iteration it (s : St) : bytes_bounded s -> bytes_bounded (iteration it s).
Proof.
  unfold bytes_bounded. intros Hs.
  pose proof (iteration_bytes it s) as Hc. simpl in Hc.
  injection Hc as -> -> ->.
  destruct (classify it); simpl; lia.
Qed.

(** C1. Counter conservation: wherever a run of [operator()] on a
    constructed object stands, with or without a signal before the
    loops, the messages received are those sent, those filtered and
    those whose produce call failed; the consume-produce loop keeps this
    equation from any state that has it; and each turn of the loop
    moves the counts by its verdict: nothing for a turn without a
    message, one received and one filtered for a suppressed message,
    one received and one sent for a successful produce, one received
    and one produce error for a failed produce. *)
Theorem counter_conservation (cli : CommandLine) (gens : list Generation) (lvl : level)
    (startup_signal : bool) :
  (let s : St := final (run cli gens (deliver startup_signal (PPM_new lvl))) in
   bsm_recv_count s = (bsm_send_count s + bsm_filt_count s + produce_errors s)%N) /\
  (forall (its : list Iteration) (s : St),
     conserved s -> conserved (consume_produce_loop its s).2) /\
  (forall (it : Iteration) (s : St),
     let s' := iteration it s in
     let d := match classify it with
              | NotMessage => (0, 0, 0, 0)
              | Suppressed => (1, 0, 1, 0)
              | Sent => (1, 1, 0, 0)
              | ProduceFailed => (1, 0, 0, 1)
              end%N in
     (bsm_recv_count s', bsm_send_count s', bsm_filt_count s', produce_errors s') =
     (bsm_recv_count s + d.1.1.1, bsm_send_count s + d.1.1.2,
      bsm_filt_count s + d.1.2, produce_errors s + d.2)%N).
Proof.
  split; [|split; [|exact iteration_counts]].
  - apply (run_invariant conserved conserved_tally conserved_iteration).
    destruct startup_signal; reflexivity.
  - intros its s. apply (consume_produce_loop_invariant conserved conserved_iteration).
Qed.

(** C2. Byte conservation: wherever a run of [operator()] on a
    constructed object stands, the bytes filtered are at most the bytes
    received, and the bytes sent are at most the
    bytes received plus any per-message redaction growth times the
    number of messages sent; the consume-produce loop keeps the sent
    and the filtered bytes together within the received bytes; each
    turn adds the length of its message to the received bytes, to the
    filtered bytes when the message is suppressed, and to the sent
    bytes only when the produce call succeeds. *)
Theorem byte_conservation (cli : CommandLine) (gens : list Generation) (lvl : level)
    (startup_signal : bool) (max_redaction_delta : N) :
  (let s : St := final (run cli gens (deliver startup_signal (PPM_new lvl))) in
   (bsm_filt_bytes s <= bsm_recv_bytes s)%N /\
   (bsm_send_bytes s <= bsm_recv_bytes s + max_redaction_delta * bsm_send_count s)%N) /\
  (forall (its : list Iteration) (s : St),
     bytes_bounded s -> bytes_bounded (consume_produce_loop its s).2) /\
  (forall (it : Iteration) (s : St),
     let s' := iteration it s in
     let n := msg_len (it_message it) in
     let d := match classify it with
              | NotMessage => (0, 0, 0)
              | Suppressed => (n, 0, n)
              | Sent => (n, n, 0)
              | ProduceFailed => (n, 0, 0)
              end%N in
     (bsm_recv_bytes s', bsm_send_bytes s', bsm_filt_bytes s') =
     (bsm_recv_bytes s + d.1.1, bsm_send_bytes s + d.1.2, bsm_filt_bytes s + d.2)%N).
Proof.
  split; [|split; [|exact iteration_bytes]].
  - assert (Hb : bytes_bounded
                   (final (run cli gens (deliver startup_signal (PPM_new lvl))
                           : Run (coord:=coord)))).
    { apply (run_invariant bytes_bounded bytes_bounded_tally bytes_bounded_iteration).
      unfold bytes_bounded. destruct startup_signal; simpl; lia. }
    unfold bytes_bounded in Hb. simpl. split; lia.
  - intros its s. apply (consume_produce_loop_invariant bytes_bounded bytes_bounded_iteration).
Qed.

Lemma flags_shutdown (s : St) : flags (shutdown s) = flags s.
Proof. destruct s; reflexivity. Qed.

(** C7. Graceful shutdown.  The signal handler lowers both flags.  A
    turn of the consume-produce loop during which the signal arrives is
    completed and is the last one.  With both flags down, the inner
    loop and the outer loop are left at their next test, the summary is
    written and the runner returns [EXIT_SUCCESS].  The outer loop is
    left when its current turn ends with [bootstrap] down.  A run that went
    into the loops and has both flags down has left both loops,
    written the summary to the information log and returned
    [EXIT_SUCCESS]; when no signal lands between the test of the
    bootstrap loop and the reset of [bsms_available], [bootstrap] down
    is enough for that; a signal that does land there is half lost
    ([signal_before_reset_half_lost]).  The last three records of the
    summary are the counts consumed, published and suppressed. *)
Theorem graceful_shutdown :
  (forall s : St, bootstrap (sigterm s) = false /\ bsms_available (sigterm s) = false) /\
  (forall (it : Iteration) (rest : list Iteration) (s : St),
     it_signal it = true -> bsms_available s = true ->
     consume_produce_loop (it :: rest) s = (true, iteration it s) /\
     flags (iteration it s) = (false, false)) /\
  (forall (its : list Iteration) (gens : list Generation) (s : St),
     flags s = (false, false) ->
     consume_produce_loop its s = (true, s) /\
     bootstrap_loop gens s = (true, s) /\
     serve gens s = {| exit_status := Some EXIT_SUCCESS;
                       entered_bootstrap := true;
                       final := shutdown s |}) /\
  (forall (g : Generation) (gens : list Generation) (s s1 : St),
     bootstrap s = true -> generation g s = (true, s1) -> bootstrap s1 = false ->
     bootstrap_loop (g :: gens) s = (true, s1)) /\
  (forall (cli : CommandLine) (gens : list Generation) (s : St),
     let r := run cli gens s in
     entered_bootstrap r = true ->
     flags (final r) = (false, false) \/
     (Forall (fun g => gen_reset_signal g = false) gens /\ bootstrap (final r) = false) ->
     exit_status r = Some EXIT_SUCCESS /\
     exists s1 : St, flags s1 = flags (final r) /\ final r = shutdown s1) /\
  (forall s : St,
     log (shutdown s) =
     (log s ++
      [ {| entry_level := info; entry_text := "PPM operations complete; shutting down..." |};
        {| entry_level := info;
           entry_text := "PPM consumed  : " ++ pretty (bsm_recv_count s) ++ " BSMs and "
                         ++ pretty (bsm_recv_bytes s) ++ " bytes" |};
        {| entry_level := info;
           entry_text := "PPM published : " ++ pretty (bsm_send_count s) ++ " BSMs and "
                         ++ pretty (bsm_send_bytes s) ++ " bytes" |};
        {| entry_level := info;
           entry_text := "PPM suppressed: " ++ pretty (bsm_filt_count s) ++ " BSMs and "
                         ++ pretty (bsm_filt_bytes s) ++ " bytes" |} ])%list).
Proof.
  split; [|split; [|split; [|split; [|split]]]].
  - intros s. destruct s; split; reflexivity.
  - intros it rest s Hsig Hav.
    assert (Hf : flags (iteration it s) = (false, false)).
    { pose proof (iteration_flags_down it (sigterm s)) as [Hb Ha].
      destruct it as [signal message reply status]. simpl in Hsig. subst signal.
      assert (Heq : iteration (Build_Iteration true message reply status) s =
                    iteration (Build_Iteration true message reply status) (sigterm s)).
      { unfold iteration, deliver. simpl. destruct s; reflexivity. }
      rewrite Heq. unfold flags. f_equal; [apply Hb | apply Ha]; destruct s; reflexivity. }
    split; [|exact Hf].
    simpl. rewrite Hav. unfold flags in Hf. injection Hf as _ Hav'.
    destruct rest; simpl; rewrite Hav'; reflexivity.
  - intros its gens s [= Hb Hav].
    assert (Hloop : bootstrap_loop gens s = (true, s))
      by (destruct gens; simpl; rewrite Hb; reflexivity).
    split; [|split; [exact Hloop|]].
    + destruct its; simpl; rewrite Hav; reflexivity.
    + unfold serve. rewrite Hloop. reflexivity.
  - intros g gens s s1 Hb Hg Hb1. simpl. rewrite Hb, Hg.
    destruct gens; simpl; rewrite Hb1; reflexivity.
  - intros cli gens s. unfold run.
    destruct (configure cli s) as [[|] s0 | s0]; simpl; try discriminate.
    intros _. unfold serve.
    pose proof (bootstrap_loop_left gens s0) as Hleft.
    pose proof (bootstrap_loop_waiting gens s0) as Hwait.
    destruct (bootstrap_loop gens s0) as [[|] s1]; simpl in *.
    + intros _. split; [reflexivity|]. exists s1. split; [|reflexivity].
      symmetry. apply flags_shutdown.
    + intros [[= Hb Hav] | [Hgens Hb]].
      * destruct (Hwait eq_refl); congruence.
      * specialize (Hleft Hgens Hb). discriminate.
  - intros s. destruct s; reflexivity.
Qed.

End RunClaims.

(** ** How [configure] ends *)

(** Two runs of one call that start in related states end the same way
    in related states. *)
Section Stable.

Context {S : Type}.
Variable E : S -> S -> Prop.

Definition related {A} (r1 r2 : Result S A) : Prop :=
  match r1, r2 with
  | Next a1 s1, Next a2 s2 => a1 = a2 /\ E s1 s2
  | Ret b1 s1, Ret b2 s2 => b1 = b2 /\ E s1 s2
  | Exn s1, Exn s2 => E s1 s2
  | _, _ => False
  end.

Definition stable {A} (m : M S A) : Prop :=
  forall s1 s2, E s1 s2 -> related (m s1) (m s2).

Lemma stable_mret {A} (a : A) : stable (mret a).
Proof. intros s1 s2 Hs. simpl. auto. Qed.

Lemma stable_return {A} (b : bool) : stable (@return_ S A b).
Proof. intros s1 s2 Hs. simpl. auto. Qed.

Lemma stable_throw {A} : stable (@throw S A).
Proof. intros s1 s2 Hs. simpl. auto. Qed.

Lemma stable_gets {A} (f : S -> A) : (forall s1 s2, E s1 s2 -> f s1 = f s2) -> stable (gets f).
Proof. intros Hf s1 s2 Hs. simpl. auto. Qed.

Lemma stable_modify (f : S -> S) : (forall s1 s2, E s1 s2 -> E (f s1) (f s2)) -> stable (modify f).
Proof. intros Hf s1 s2 Hs. simpl. auto. Qed.

Lemma stable_bind {A B} (m : M S A) (k : A -> M S B) :
  stable m -> (forall a, stable (k a)) -> stable (mbind m k).
Proof.
  intros Hm Hk s1 s2 Hs. unfold mbind.
  specialize (Hm s1 s2 Hs). unfold related in Hm.
  destruct (m s1) as [a1 t1 | b1 t1 | t1], (m s2) as [a2 t2 | b2 t2 | t2];
    try contradiction; simpl; auto.
  destruct Hm as [-> Ht]. apply Hk, Ht.
Qed.

Lemma stable_when (b : bool) (m : M S unit) : stable m -> stable (when b m).
Proof. destruct b; simpl; auto using stable_mret. Qed.

End Stable.

Lemma bind_next {S A B} (m : M S A) (k : A -> M S B) s b s' :
  mbind m k s = Next b s' -> exists a s1, m s = Next a s1 /\ k a s1 = Next b s'.
Proof. unfold mbind. destruct (m s) as [a s1 | |]; try discriminate. eauto. Qed.

Lemma respects_next {S A} (R : S -> S -> Prop) (m : M S A) s a s' :
  respects R m -> m s = Next a s' -> R s s'.
Proof. intros Hm Hs. specialize (Hm s). unfold wp in Hm. rewrite Hs in Hm. exact Hm. Qed.

Section ConfigureEnds.

Context {coord entity : Type} `{World coord entity}.
Variable cli : CommandLine.

Local Abbreviation St := (PPM coord entity).

(** The last record of the log is an error record. *)
Definition error_last (s : St) : Prop :=
  exists t, last (log s) = Some {| entry_level := err; entry_text := t |}.

Variable QE : St -> Prop.
Hypothesis QE_all : forall s, QE s.

(** [ends m]: when [m] returns early it returns false, and an error
    record is the last of the log; when it throws, [QE] holds. *)
Definition ends {A} (m : M St A) : Prop :=
  forall s, wp m (fun _ _ => True) (fun b s' => b = false /\ error_last s') QE s.

Lemma ends_mret {A} (a : A) : ends (mret a).
Proof. intros s. exact I. Qed.

Lemma ends_gets {A} (f : St -> A) : ends (gets f).
Proof. intros s. exact I. Qed.

Lemma ends_modify (f : St -> St) : ends (modify f).
Proof. intros s. exact I. Qed.

Lemma ends_throw {A} : ends (@throw St A).
Proof using QE_all. intros s. apply QE_all. Qed.

Lemma ends_error {A} (t : string) : ends (logm err t ;; @return_ St A false).
Proof.
  intros s. unfold wp, mbind, logm, modify, return_. split; [reflexivity|].
  exists t. destruct s; simpl. apply last_snoc.
Qed.

Lemma ends_bind {A B} (m : M St A) (k : A -> M St B) :
  ends m -> (forall a, ends (k a)) -> ends (mbind m k).
Proof.
  intros Hm Hk s. apply wp_bind. eapply wp_mono; [apply Hm | | auto | auto].
  intros a s' _. apply Hk.
Qed.

Lemma ends_when (b : bool) (m : M St unit) : ends m -> ends (when b m).
Proof. destruct b; simpl; auto using ends_mret. Qed.

Ltac ends_step :=
  match goal with
  | |- forall _, _ => intro
  | |- ends (mbind (logm err _) (fun _ => return_ false)) => apply ends_error
  | |- ends (mbind _ _) => apply ends_bind
  | |- ends (mret _) => apply ends_mret
  | |- ends (gets _) => apply ends_gets
  | |- ends (find _) => apply ends_gets
  | |- ends (modify _) => apply ends_modify
  | |- ends (logm _ _) => apply ends_modify
  | |- ends throw => apply ends_throw
  | |- ends (when _ _) => apply ends_when
  | |- ends (match ?x with _ => _ end) => destruct x
  | |- ends _ => solve [eauto]
  end.

Ltac ends_tac := repeat ends_step.

Lemma conf_set_ends scope name value : ends (conf_set scope name value).
Proof. unfold conf_set. ends_tac. Qed.

Lemma configure_log_level_ends : ends (configure_log_level cli).
Proof. unfold configure_log_level. ends_tac. Qed.

Lemma configure_line_ends line : ends (configure_line line).
Proof.
  pose proof conf_set_ends. unfold configure_line. apply ends_when.
  destruct (split (strip line) "=") as [|p0 [|p1 [|p2 l]]]; simpl; ends_tac.
Qed.

Lemma configure_lines_ends lines : ends (configure_lines lines).
Proof.
  pose proof configure_line_ends. induction lines as [|line rest IH]; simpl; ends_tac.
Qed.

Lemma configure_file_ends : ends (configure_file cli).
Proof.
  pose proof configure_lines_ends. unfold configure_file.
  destruct (negb (optIsSet cli "c")); ends_tac.
Qed.

Lemma configure_read_ends : ends (configure_read cli).
Proof.
  pose proof configure_log_level_ends. pose proof configure_file_ends.
  unfold configure_read. ends_tac.
Qed.

Lemma configure_mapfile_ends : ends (configure_mapfile cli).
Proof. unfold configure_mapfile. destruct (optIsSet cli "m"); ends_tac. Qed.

Lemma geofence_coord_ends key : ends (geofence_coord key).
Proof using QE_all. unfold geofence_coord. ends_tac. Qed.

Lemma BuildGeofence_ends mapfile : ends (BuildGeofence mapfile).
Proof using QE_all. pose proof geofence_coord_ends. unfold BuildGeofence. ends_tac. Qed.

Lemma configure_geofence_ends : ends (configure_geofence cli).
Proof using QE_all.
  pose proof configure_mapfile_ends. pose proof BuildGeofence_ends.
  unfold configure_geofence. ends_tac.
Qed.

Lemma configure_broker_ends : ends (configure_broker cli).
Proof. pose proof conf_set_ends. unfold configure_broker. ends_tac. Qed.

Lemma configure_partition_ends : ends (configure_partition cli).
Proof using QE_all.
  unfold configure_partition. apply ends_bind; [|ends_tac].
  destruct (optIsSet cli "p"); ends_tac.
Qed.

Lemma getEnvironmentVariable_ends name : ends (getEnvironmentVariable name).
Proof. unfold getEnvironmentVariable. ends_tac. Qed.

Lemma configure_confluent_ends : ends configure_confluent.
Proof.
  pose proof getEnvironmentVariable_ends. pose proof conf_set_ends.
  unfold configure_confluent. ends_tac.
Qed.

Lemma configure_option_ends opt name complaint : ends (configure_option cli opt name complaint).
Proof. pose proof conf_set_ends. unfold configure_option. ends_tac. Qed.

Lemma configure_offset_ends : ends (configure_offset cli).
Proof. unfold configure_offset. ends_tac. Qed.

Lemma configure_topic_ends opt key missing : ends (configure_topic cli opt key missing).
Proof. unfold configure_topic. destruct (optIsSet cli opt); ends_tac. Qed.

Lemma configure_consumed_topic_ends : ends (configure_consumed_topic cli).
Proof. pose proof configure_topic_ends. unfold configure_consumed_topic. ends_tac. Qed.

Lemma configure_published_topic_ends : ends (configure_published_topic cli).
Proof. pose proof configure_topic_ends. unfold configure_published_topic. ends_tac. Qed.

Lemma configure_timeout_ends : ends configure_timeout.
Proof. unfold configure_timeout. ends_tac. Qed.

Lemma configure_settings_ends : ends (configure_settings cli).
Proof using QE_all.
  pose proof configure_geofence_ends. pose proof configure_broker_ends.
  pose proof configure_partition_ends. pose proof configure_confluent_ends.
  pose proof configure_option_ends. pose proof configure_offset_ends.
  pose proof configure_consumed_topic_ends. pose proof configure_published_topic_ends.
  pose proof configure_timeout_ends.
  unfold configure_settings. ends_tac.
Qed.

Lemma configure_body_ends : ends (configure_body cli).
Proof using QE_all.
  pose proof configure_read_ends. pose proof configure_settings_ends.
  unfold configure_body. ends_tac.
Qed.

End ConfigureEnds.

(** ** The claims on [configure] *)

(** A projection of the state that a call leaves as it was. *)
Definition keeps {S V : Type} (f : S -> V) : S -> S -> Prop := fun s s' => f s' = f s.

(** The side conditions of a frame lemma at a relation [keeps f]. *)
Ltac keeps_tac :=
  unfold keeps;
  first [ intros ? ? ? ? ?; congruence
        | intros ? ? []; reflexivity
        | intros ? []; reflexivity
        | intros ?; reflexivity ].

Lemma bind_assoc_state {S A B C} (m : M S A) (k : A -> M S B) (h : B -> M S C) s :
  mbind (mbind m k) h s = mbind m (fun a => mbind (k a) h) s.
Proof. unfold mbind. destruct (m s); reflexivity. Qed.

Section ConfigureClaims.

Context {coord entity : Type} `{World coord entity}.

Local Abbreviation St := (PPM coord entity).

(** The level is left alone and the log only grows. *)
Definition level_kept (s s' : St) : Prop :=
  info_level s' = info_level s /\ log s `prefix_of` log s'.

(** What [configure] does after the log level. *)
Definition after_level (cli : CommandLine) : M St bool :=
  (logm trace "starting configure()" ;;
   modify (fun s => set_tconf ∅ (set_conf ∅ s)) ;;
   configure_file cli) ;;
  configure_settings cli.

Lemma after_level_respects cli : respects level_kept (after_level cli).
Proof.
  assert (Hrefl : forall s : St, level_kept s s) by (intros s; split; reflexivity).
  assert (Htrans : forall s1 s2 s3 : St, level_kept s1 s2 -> level_kept s2 s3 -> level_kept s1 s3).
  { intros s1 s2 s3 [H1 H2] [H3 H4]. split; [congruence | etrans; eauto]. }
  assert (Hlog : forall l t (s : St), level_kept s (logmsg l t s)).
  { intros l t []. split; [reflexivity | apply prefix_app_r; reflexivity]. }
  unfold after_level.
  apply respects_bind; [exact Htrans | | intros _].
  - apply respects_bind; [exact Htrans | apply logm_respects, Hlog | intros _].
    apply respects_bind; [exact Htrans | | intros _].
    + apply respects_modify. intros []. split; reflexivity.
    + apply configure_file_respects; auto; intros v []; split; reflexivity.
  - apply configure_settings_respects; auto; intros v []; split; reflexivity.
Qed.

Lemma configure_after_level cli (s s1 : St) :
  configure_log_level cli s = Next tt s1 ->
  level_kept s1 (outcome_state (configure cli s)).
Proof.
  intros Hs1. unfold configure. rewrite call_state.
  unfold configure_body, configure_read. rewrite bind_assoc_state.
  unfold mbind at 1. rewrite Hs1.
  apply (respects_state level_kept (after_level cli) s1).
  apply after_level_respects.
Qed.

(** C8. Log-level collapsing: with option [v] set, [configure] sets
    the information log level to [trace] for each of the values trace,
    debug and info; warning, error, critical and off give the four
    further levels, all different; any other value leaves the level as
    it was and writes a warning. *)
Theorem log_level_collapsing (cli : CommandLine) (s : St) :
  optIsSet cli "v" = true ->
  let v := optString cli "v" in
  let s' := outcome_state (configure cli s) in
  (v = "trace" \/ v = "debug" \/ v = "info" -> info_level s' = trace) /\
  (v = "warning" -> info_level s' = warn) /\
  (v = "error" -> info_level s' = err) /\
  (v = "critical" -> info_level s' = critical) /\
  (v = "off" -> info_level s' = off) /\
  (v ∉ ["trace"; "debug"; "info"; "warning"; "error"; "critical"; "off"] ->
   info_level s' = info_level s /\
   {| entry_level := warn;
      entry_text := "information logger level was configured but unreadable; using default." |}
     ∈ log s') /\
  NoDup [trace; warn; err; critical; off].
Proof.
  intros Hv v s'.
  assert (Hstep : forall l,
            configure_log_level cli s = Next tt (set_info_level l s) -> info_level s' = l).
  { intros l Hl. destruct (configure_after_level cli s _ Hl) as [Hlvl _].
    subst s'. rewrite Hlvl. destruct s; reflexivity. }
  repeat apply conj.
  - intros Hcase. apply Hstep. unfold configure_log_level. rewrite Hv. simpl. fold v.
    destruct Hcase as [-> | [-> | ->]]; reflexivity.
  - intros Hcase. apply Hstep. unfold configure_log_level. rewrite Hv. simpl. fold v.
    rewrite Hcase. reflexivity.
  - intros Hcase. apply Hstep. unfold configure_log_level. rewrite Hv. simpl. fold v.
    rewrite Hcase. reflexivity.
  - intros Hcase. apply Hstep. unfold configure_log_level. rewrite Hv. simpl. fold v.
    rewrite Hcase. reflexivity.
  - intros Hcase. apply Hstep. unfold configure_log_level. rewrite Hv. simpl. fold v.
    rewrite Hcase. reflexivity.
  - intros Hnot.
    assert (Hother : configure_log_level cli s =
              Next tt (logmsg warn "information logger level was configured but unreadable; using default." s)).
    { unfold configure_log_level, when. rewrite Hv. cbv beta iota zeta. fold v.
      repeat match goal with
             | |- context [String.eqb ?a v] =>
                 destruct (String.eqb_spec a v) as [Heq | _];
                 [exfalso; apply Hnot; rewrite <- Heq; solve [repeat constructor] |]
             end.
      reflexivity. }
    destruct (configure_after_level cli s _ Hother) as [Hlvl [k Hk]].
    fold s' in Hlvl, Hk. split.
    + rewrite Hlvl. destruct s; reflexivity.
    + rewrite Hk. destruct s; simpl. rewrite !elem_of_app, list_elem_of_singleton. auto.
  - repeat constructor; rewrite ?elem_of_cons, elem_of_nil; intuition discriminate.
Qed.

(** *** How the settings are resolved *)

Lemma find_next key (s s1 : St) v :
  find key s = Next v s1 -> s1 = s /\ v = pconf s !! key.
Proof. unfold find, gets. intros [= <- <-]. auto. Qed.

Lemma configure_topic_next cli opt key missing (s s1 : St) topic :
  configure_topic cli opt key missing s = Next topic s1 ->
  s1 = s /\
  if optIsSet cli opt then topic = optString cli opt else pconf s !! key = Some topic.
Proof.
  unfold configure_topic. destruct (optIsSet cli opt).
  - intros [= <- <-]. auto.
  - unfold mbind, find, gets. destruct (pconf s !! key) as [v|]; simpl.
    + intros [= <- <-]. auto.
    + discriminate.
Qed.

Lemma configure_consumed_topic_next cli (s s1 : St) :
  configure_consumed_topic cli s = Next tt s1 ->
  pconf s1 = pconf s /\
  if optIsSet cli "u" then consumed_topic s1 = optString cli "u"
  else pconf s !! "privacy.topic.consumer" = Some (consumed_topic s1).
Proof.
  unfold configure_consumed_topic. intros Hs.
  apply bind_next in Hs as (topic & s0 & Ht & Hs).
  apply configure_topic_next in Ht as [-> Ht].
  unfold mbind, modify, logm in Hs. injection Hs as <-.
  split; [destruct s; reflexivity|].
  destruct (optIsSet cli "u"); [|rewrite Ht]; destruct s; simpl; congruence.
Qed.

Lemma configure_published_topic_next cli (s s1 : St) :
  configure_published_topic cli s = Next tt s1 ->
  pconf s1 = pconf s /\
  if optIsSet cli "f" then published_topic s1 = optString cli "f"
  else pconf s !! "privacy.topic.producer" = Some (published_topic s1).
Proof.
  unfold configure_published_topic. intros Hs.
  apply bind_next in Hs as (topic & s0 & Ht & Hs).
  apply configure_topic_next in Ht as [-> Ht].
  unfold mbind, modify, logm in Hs. injection Hs as <-.
  split; [destruct s; reflexivity|].
  destruct (optIsSet cli "f"); [|rewrite Ht]; destruct s; simpl; congruence.
Qed.

Lemma configure_partition_next cli (s s1 : St) :
  configure_partition cli s = Next tt s1 ->
  if optIsSet cli "p" then optInt cli "p" = Some (partition s1)
  else match pconf s !! "privacy.kafka.partition" with
       | Some v => stoi v = Some (partition s1)
       | None => partition s1 = partition s
       end.
Proof.
  unfold configure_partition. intros Hs.
  apply bind_next in Hs as ([] & s0 & Hp & Hs).
  unfold mbind, gets, logm, modify in Hs. injection Hs as <-.
  destruct (optIsSet cli "p").
  - destruct (optInt cli "p") as [v|]; [|discriminate].
    injection Hp as <-. destruct s; reflexivity.
  - unfold mbind, find, gets in Hp.
    destruct (pconf s !! "privacy.kafka.partition") as [v|].
    + destruct (stoi v) as [n|]; [|discriminate].
      injection Hp as <-. destruct s; reflexivity.
    + injection Hp as <-. destruct s; reflexivity.
Qed.

Lemma BuildGeofence_next mapfile (s s1 : St) q :
  BuildGeofence mapfile s = Next q s1 ->
  exists circles edges grids,
    make_shapes mapfile = Some (circles, edges, grids) /\
    entities q = (circles ++ edges ++ grids)%list.
Proof.
  unfold BuildGeofence. intros Hs.
  apply bind_next in Hs as ([] & s0 & _ & Hs).
  apply bind_next in Hs as (swlat & s2 & _ & Hs).
  apply bind_next in Hs as (swlon & s3 & _ & Hs).
  apply bind_next in Hs as (nelat & s4 & _ & Hs).
  apply bind_next in Hs as (nelon & s5 & _ & Hs).
  destruct (make_shapes mapfile) as [[[circles edges] grids]|]; [|discriminate].
  apply bind_next in Hs as ([] & s6 & _ & Hs).
  injection Hs as <- _. eauto.
Qed.

Lemma configure_geofence_next cli (s s1 : St) :
  configure_geofence cli s = Next tt s1 ->
  exists mapfile circles edges grids,
    (if optIsSet cli "m" then mapfile = optString cli "m"
     else pconf s !! "privacy.filter.geofence.mapfile" = Some mapfile) /\
    make_shapes mapfile = Some (circles, edges, grids) /\
    entities <$> qptr s1 = Some (circles ++ edges ++ grids)%list.
Proof.
  unfold configure_geofence. intros Hs.
  apply bind_next in Hs as (mapfile & s0 & Hm & Hs).
  apply bind_next in Hs as ([] & s2 & _ & Hs).
  apply bind_next in Hs as (q & s3 & Hq & Hs).
  apply BuildGeofence_next in Hq as (circles & edges & grids & Hshapes & Hq).
  unfold modify in Hs. injection Hs as <-.
  exists mapfile, circles, edges, grids. split; [|split; [exact Hshapes|]].
  - unfold configure_mapfile in Hm. destruct (optIsSet cli "m").
    + injection Hm as <- _. reflexivity.
    + unfold mbind, find, gets in Hm.
      destruct (pconf s !! "privacy.filter.geofence.mapfile") as [v|]; [|discriminate].
      injection Hm as <- _. reflexivity.
  - destruct s3; simpl. rewrite Hq. reflexivity.
Qed.

(** The steps of a [configure_settings] that went through. *)
Lemma configure_settings_next cli (s s' : St) b :
  configure_settings cli s = Next b s' ->
  b = true /\
  exists s1 s2 s3 s4 s5 s6 s8 s9 s10 s11,
    configure_geofence cli s = Next tt s1 /\
    configure_broker cli s1 = Next tt s2 /\
    configure_partition cli s2 = Next tt s3 /\
    configure_confluent s3 = Next tt s4 /\
    configure_option cli "g" "group.id"
      "kafka error setting configuration parameters group.id h: " s4 = Next tt s5 /\
    configure_offset cli s5 = Next tt s6 /\
    configure_option cli "d" "debug"
      "kafka error setting configuration parameter debug: "
      (set_exit_eof (optIsSet cli "x") s6) = Next tt s8 /\
    configure_consumed_topic cli s8 = Next tt s9 /\
    configure_published_topic cli s9 = Next tt s10 /\
    configure_timeout s10 = Next tt s11 /\
    s' = logmsg trace "ending configure()" s11.
Proof.
  unfold configure_settings. intros Hs.
  apply bind_next in Hs as ([] & s1 & H1 & Hs).
  apply bind_next in Hs as ([] & s2 & H2 & Hs).
  apply bind_next in Hs as ([] & s3 & H3 & Hs).
  apply bind_next in Hs as ([] & s4 & H4 & Hs).
  apply bind_next in Hs as ([] & s5 & H5 & Hs).
  apply bind_next in Hs as ([] & s6 & H6 & Hs).
  apply bind_next in Hs as ([] & s7 & H7 & Hs).
  apply bind_next in Hs as ([] & s8 & H8 & Hs).
  apply bind_next in Hs as ([] & s9 & H9 & Hs).
  apply bind_next in Hs as ([] & s10 & H10 & Hs).
  apply bind_next in Hs as ([] & s11 & H11 & Hs).
  apply bind_next in Hs as ([] & s12 & H12 & Hs).
  injection Hs as <- <-. injection H7 as <-. injection H12 as <-.
  split; [reflexivity|].
  exists s1, s2, s3, s4, s5, s6, s8, s9, s10, s11. repeat split; assumption.
Qed.

(** A [configure] that returned true went through the file and
    through the settings. *)
Lemma configure_true cli (s s' : St) :
  configure cli s = Returned true s' ->
  exists s0, configure_read cli s = Next tt s0 /\ configure_settings cli s0 = Next true s'.
Proof.
  unfold configure, call. intros Hc.
  pose proof (configure_body_ends cli (fun _ => True) (fun _ => I) s) as He.
  unfold wp in He.
  destruct (configure_body cli s) as [b s1 | b s1 | s1] eqn:Hb; try discriminate.
  - injection Hc as -> ->. unfold configure_body in Hb.
    apply bind_next in Hb as ([] & s0 & Hr & Hs). eauto.
  - injection Hc as -> ->. destruct He as [He _]. discriminate.
Qed.

(** The settings of a [configure] that returned true: each is the
    value of its option when the option is set, and otherwise the value
    the file gave for its key. *)
Lemma configure_resolved cli (s s' : St) :
  configure cli s = Returned true s' ->
  let file := pconf (result_state (configure_read cli s)) in
  (exists mapfile circles edges grids,
     (if optIsSet cli "m" then mapfile = optString cli "m"
      else file !! "privacy.filter.geofence.mapfile" = Some mapfile) /\
     make_shapes mapfile = Some (circles, edges, grids) /\
     entities <$> qptr s' = Some (circles ++ edges ++ grids)%list) /\
  (if optIsSet cli "p" then optInt cli "p" = Some (partition s')
   else match file !! "privacy.kafka.partition" with
        | Some v => stoi v = Some (partition s')
        | None => partition s' = partition s
        end) /\
  (if optIsSet cli "u" then consumed_topic s' = optString cli "u"
   else file !! "privacy.topic.consumer" = Some (consumed_topic s')) /\
  (if optIsSet cli "f" then published_topic s' = optString cli "f"
   else file !! "privacy.topic.producer" = Some (published_topic s')).
Proof.
  intros Hc. apply configure_true in Hc as (s0 & Hr & Hs).
  rewrite Hr. simpl.
  apply configure_settings_next in Hs
    as (_ & s1 & s2 & s3 & s4 & s5 & s6 & s8 & s9 & s10 & s11 &
        H1 & H2 & H3 & H4 & H5 & H6 & H8 & H9 & H10 & H11 & ->).
  (* the file settings stay as read *)
  assert (Hp1 : pconf s1 = pconf s0)
    by (apply (respects_next (keeps pconf) _ _ _ _
                 ltac:(apply configure_geofence_respects; keeps_tac) H1)).
  assert (Hp2 : pconf s2 = pconf s1)
    by (apply (respects_next (keeps pconf) _ _ _ _
                 ltac:(apply configure_broker_respects; keeps_tac) H2)).
  assert (Hp3 : pconf s3 = pconf s2)
    by (apply (respects_next (keeps pconf) _ _ _ _
                 ltac:(apply configure_partition_respects; keeps_tac) H3)).
  assert (Hp4 : pconf s4 = pconf s3)
    by (apply (respects_next (keeps pconf) _ _ _ _
                 ltac:(apply configure_confluent_respects; keeps_tac) H4)).
  assert (Hp5 : pconf s5 = pconf s4)
    by (apply (respects_next (keeps pconf) _ _ _ _
                 ltac:(apply configure_option_respects; keeps_tac) H5)).
  assert (Hp6 : pconf s6 = pconf s5)
    by (apply (respects_next (keeps pconf) _ _ _ _
                 ltac:(apply configure_offset_respects; keeps_tac) H6)).
  assert (Hp8 : pconf s8 = pconf s6).
  { rewrite (respects_next (keeps pconf) _ _ _ _
               ltac:(apply configure_option_respects; keeps_tac) H8).
    destruct s6; reflexivity. }
  assert (Hp9 : pconf s9 = pconf s8) by (apply configure_consumed_topic_next in H9 as [? _]; auto).
  (* what each later step keeps *)
  assert (Hq : qptr (logmsg trace "ending configure()" s11) = qptr s1).
  { transitivity (qptr s11); [destruct s11; reflexivity|].
    rewrite (respects_next (keeps qptr) _ _ _ _
               ltac:(apply configure_timeout_respects; keeps_tac) H11).
    rewrite (respects_next (keeps qptr) _ _ _ _
               ltac:(apply configure_published_topic_respects; keeps_tac) H10).
    rewrite (respects_next (keeps qptr) _ _ _ _
               ltac:(apply configure_consumed_topic_respects; keeps_tac) H9).
    rewrite (respects_next (keeps qptr) _ _ _ _
               ltac:(apply configure_option_respects; keeps_tac) H8).
    transitivity (qptr s6); [destruct s6; reflexivity|].
    rewrite (respects_next (keeps qptr) _ _ _ _
               ltac:(apply configure_offset_respects; keeps_tac) H6).
    rewrite (respects_next (keeps qptr) _ _ _ _
               ltac:(apply configure_option_respects; keeps_tac) H5).
    rewrite (respects_next (keeps qptr) _ _ _ _
               ltac:(apply configure_confluent_respects; keeps_tac) H4).
    rewrite (respects_next (keeps qptr) _ _ _ _
               ltac:(apply configure_partition_respects; keeps_tac) H3).
    apply (respects_next (keeps qptr) _ _ _ _
             ltac:(apply configure_broker_respects; keeps_tac) H2). }
  assert (Hpart : partition (logmsg trace "ending configure()" s11) = partition s3).
  { transitivity (partition s11); [destruct s11; reflexivity|].
    rewrite (respects_next (keeps partition) _ _ _ _
               ltac:(apply configure_timeout_respects; keeps_tac) H11).
    rewrite (respects_next (keeps partition) _ _ _ _
               ltac:(apply configure_published_topic_respects; keeps_tac) H10).
    rewrite (respects_next (keeps partition) _ _ _ _
               ltac:(apply configure_consumed_topic_respects; keeps_tac) H9).
    rewrite (respects_next (keeps partition) _ _ _ _
               ltac:(apply configure_option_respects; keeps_tac) H8).
    transitivity (partition s6); [destruct s6; reflexivity|].
    rewrite (respects_next (keeps partition) _ _ _ _
               ltac:(apply configure_offset_respects; keeps_tac) H6).
    rewrite (respects_next (keeps partition) _ _ _ _
               ltac:(apply configure_option_respects; keeps_tac) H5).
    apply (respects_next (keeps partition) _ _ _ _
             ltac:(apply configure_confluent_respects; keeps_tac) H4). }
  assert (Hpart0 : partition s2 = partition s).
  { rewrite (respects_next (keeps partition) _ _ _ _
               ltac:(apply configure_broker_respects; keeps_tac) H2).
    rewrite (respects_next (keeps partition) _ _ _ _
               ltac:(apply configure_geofence_respects; keeps_tac) H1).
    apply (respects_next (keeps partition) _ _ _ _
             ltac:(apply configure_read_respects; keeps_tac) Hr). }
  assert (Hct : consumed_topic (logmsg trace "ending configure()" s11) = consumed_topic s9).
  { transitivity (consumed_topic s11); [destruct s11; reflexivity|].
    rewrite (respects_next (keeps consumed_topic) _ _ _ _
               ltac:(apply configure_timeout_respects; keeps_tac) H11).
    apply (respects_next (keeps consumed_topic) _ _ _ _
             ltac:(apply configure_published_topic_respects; keeps_tac) H10). }
  assert (Hpt : published_topic (logmsg trace "ending configure()" s11) = published_topic s10).
  { transitivity (published_topic s11); [destruct s11; reflexivity|].
    apply (respects_next (keeps published_topic) _ _ _ _
             ltac:(apply configure_timeout_respects; keeps_tac) H11). }
  split; [|split; [|split]].
  - apply configure_geofence_next in H1 as (mapfile & circles & edges & grids & Hm & Hsh & Hq1).
    exists mapfile, circles, edges, grids. rewrite Hq. auto.
  - apply configure_partition_next in H3. rewrite Hpart.
    destruct (optIsSet cli "p"); [exact H3|].
    rewrite Hp2, Hp1 in H3.
    destruct (pconf s0 !! "privacy.kafka.partition"); [exact H3|]. congruence.
  - apply configure_consumed_topic_next in H9 as [_ H9]. rewrite Hct.
    destruct (optIsSet cli "u"); [exact H9|].
    rewrite Hp8, Hp6, Hp5, Hp4, Hp3, Hp2, Hp1 in H9. exact H9.
  - apply configure_published_topic_next in H10 as [_ H10]. rewrite Hpt.
    destruct (optIsSet cli "f"); [exact H10|].
    rewrite Hp9, Hp8, Hp6, Hp5, Hp4, Hp3, Hp2, Hp1 in H10. exact H10.
Qed.

(** After a [configure] that returned true, [exit_eof] says whether
    option [x] is set (line 417). *)
Lemma configure_exit_eof cli (s s' : St) :
  configure cli s = Returned true s' -> exit_eof s' = optIsSet cli "x".
Proof.
  intros Hc. apply configure_true in Hc as (s0 & Hr & Hs).
  apply configure_settings_next in Hs
    as (_ & s1 & s2 & s3 & s4 & s5 & s6 & s8 & s9 & s10 & s11 &
        H1 & H2 & H3 & H4 & H5 & H6 & H8 & H9 & H10 & H11 & ->).
  transitivity (exit_eof s11); [destruct s11; reflexivity|].
  rewrite (respects_next (keeps exit_eof) _ _ _ _
             ltac:(apply configure_timeout_respects; keeps_tac) H11).
  rewrite (respects_next (keeps exit_eof) _ _ _ _
             ltac:(apply configure_published_topic_respects; keeps_tac) H10).
  rewrite (respects_next (keeps exit_eof) _ _ _ _
             ltac:(apply configure_consumed_topic_respects; keeps_tac) H9).
  rewrite (respects_next (keeps exit_eof) _ _ _ _
             ltac:(apply configure_option_respects; keeps_tac) H8).
  destruct s6; reflexivity.
Qed.

(** *** The file values that an option overrides *)

(** The keys of the file whose option is set on the command line. *)
Definition overridden (cli : CommandLine) (key : string) : bool :=
  (String.eqb key "privacy.filter.geofence.mapfile" && optIsSet cli "m")
  || (String.eqb key "privacy.kafka.partition" && optIsSet cli "p")
  || (String.eqb key "privacy.topic.consumer" && optIsSet cli "u")
  || (String.eqb key "privacy.topic.producer" && optIsSet cli "f").

(** Two states that differ at most in what the file gave for
    overridden keys. *)
Definition alike (cli : CommandLine) (s1 s2 : St) : Prop :=
  set_pconf ∅ s1 = set_pconf ∅ s2 /\
  forall key, overridden cli key = false -> pconf s1 !! key = pconf s2 !! key.

Ltac alike_tac :=
  let Heq := fresh "Heq" in
  let Hag := fresh "Hag" in
  intros [] [] [Heq Hag]; simpl in *; injection Heq; intros; subst;
  first [ reflexivity | split; [reflexivity | exact Hag] ].

Ltac stable_step :=
  match goal with
  | |- forall _, _ => intro
  | |- stable _ (mbind _ _) => apply stable_bind
  | |- stable _ (mret _) => apply stable_mret
  | |- stable _ (return_ _) => apply stable_return
  | |- stable _ throw => apply stable_throw
  | |- stable _ (gets _) => apply stable_gets; alike_tac
  | |- stable _ (modify _) => apply stable_modify; alike_tac
  | |- stable _ (logm _ _) => apply stable_modify; alike_tac
  | |- stable _ (when _ _) => apply stable_when
  | |- stable _ (match ?x with _ => _ end) => destruct x
  | |- stable _ _ => solve [eauto]
  end.

Ltac stable_tac := repeat stable_step.

Section Overridden.

Variable cli : CommandLine.

Lemma find_stable key : overridden cli key = false -> stable (alike cli) (find key).
Proof. intros Hkey s1 s2 [Heq Hag]. simpl. split; [apply Hag, Hkey | split; assumption]. Qed.

Lemma conf_set_stable scope name value : stable (alike cli) (conf_set scope name value).
Proof.
  unfold conf_set. destruct (conf_accepts scope name value); [|stable_tac].
  apply stable_bind; [|stable_tac].
  apply stable_modify. destruct scope; alike_tac.
Qed.

Lemma configure_mapfile_stable : stable (alike cli) (configure_mapfile cli).
Proof.
  unfold configure_mapfile. destruct (optIsSet cli "m") eqn:Hm; [stable_tac|].
  apply stable_bind; [|stable_tac].
  apply find_stable. unfold overridden. rewrite Hm. reflexivity.
Qed.

Lemma geofence_coord_stable key :
  overridden cli key = false -> stable (alike cli) (geofence_coord key).
Proof.
  intros Hkey. pose proof (find_stable key Hkey). unfold geofence_coord. stable_tac.
Qed.

Lemma BuildGeofence_stable mapfile : stable (alike cli) (BuildGeofence mapfile).
Proof.
  pose proof (geofence_coord_stable "privacy.filter.geofence.sw.lat" eq_refl).
  pose proof (geofence_coord_stable "privacy.filter.geofence.sw.lon" eq_refl).
  pose proof (geofence_coord_stable "privacy.filter.geofence.ne.lat" eq_refl).
  pose proof (geofence_coord_stable "privacy.filter.geofence.ne.lon" eq_refl).
  unfold BuildGeofence. stable_tac.
Qed.

Lemma configure_geofence_stable : stable (alike cli) (configure_geofence cli).
Proof.
  pose proof configure_mapfile_stable. pose proof BuildGeofence_stable.
  unfold configure_geofence. stable_tac.
Qed.

Lemma configure_broker_stable : stable (alike cli) (configure_broker cli).
Proof. pose proof conf_set_stable. unfold configure_broker. stable_tac. Qed.

Lemma configure_partition_stable : stable (alike cli) (configure_partition cli).
Proof.
  unfold configure_partition. apply stable_bind; [|stable_tac].
  destruct (optIsSet cli "p") eqn:Hp; [stable_tac|].
  apply stable_bind; [|stable_tac].
  apply find_stable. unfold overridden. rewrite Hp.
  rewrite !andb_false_r. reflexivity.
Qed.

Lemma getEnvironmentVariable_stable name : stable (alike cli) (getEnvironmentVariable name).
Proof. unfold getEnvironmentVariable. stable_tac. Qed.

Lemma configure_confluent_stable : stable (alike cli) configure_confluent.
Proof.
  pose proof getEnvironmentVariable_stable. pose proof conf_set_stable.
  unfold configure_confluent. stable_tac.
Qed.

Lemma configure_option_stable opt name complaint :
  stable (alike cli) (configure_option cli opt name complaint).
Proof. pose proof conf_set_stable. unfold configure_option. stable_tac. Qed.

Lemma configure_offset_stable : stable (alike cli) (configure_offset cli).
Proof. unfold configure_offset. stable_tac. Qed.

Lemma configure_topic_stable opt key missing :
  (optIsSet cli opt = false -> overridden cli key = false) ->
  stable (alike cli) (configure_topic cli opt key missing).
Proof.
  intros Hkey. unfold configure_topic. destruct (optIsSet cli opt); [stable_tac|].
  apply stable_bind; [|stable_tac]. apply find_stable. auto.
Qed.

Lemma configure_consumed_topic_stable : stable (alike cli) (configure_consumed_topic cli).
Proof.
  unfold configure_consumed_topic. apply stable_bind; [|stable_tac].
  apply configure_topic_stable. intros Hu. unfold overridden. rewrite Hu.
  rewrite !andb_false_r. reflexivity.
Qed.

Lemma configure_published_topic_stable : stable (alike cli) (configure_published_topic cli).
Proof.
  unfold configure_published_topic. apply stable_bind; [|stable_tac].
  apply configure_topic_stable. intros Hf. unfold overridden. rewrite Hf.
  rewrite !andb_false_r. reflexivity.
Qed.

Lemma configure_timeout_stable : stable (alike cli) configure_timeout.
Proof.
  pose proof (find_stable "privacy.consumer.timeout.ms" eq_refl).
  unfold configure_timeout. stable_tac.
Qed.

Lemma configure_settings_stable : stable (alike cli) (configure_settings cli).
Proof.
  pose proof configure_geofence_stable. pose proof configure_broker_stable.
  pose proof configure_partition_stable. pose proof configure_confluent_stable.
  pose proof configure_option_stable. pose proof configure_offset_stable.
  pose proof configure_consumed_topic_stable. pose proof configure_published_topic_stable.
  pose proof configure_timeout_stable.
  unfold configure_settings. stable_tac.
Qed.

End Overridden.

(** C5. Configuration precedence.  For the map file, the partition,
    the consumed topic and the published topic, a [configure] that
    returns true has taken the value of the option when the option is
    set, and the value the file gave for the key only when the option
    is absent.  The values the file gave for the keys of options that
    are set have no effect: run from two states that differ in those
    values only, the settings part of [configure] ends the same way,
    in states that differ in those values only. *)
Theorem cli_precedence (cli : CommandLine) :
  (forall s s' : St,
     configure cli s = Returned true s' ->
     let file := pconf (result_state (configure_read cli s)) in
     (exists mapfile circles edges grids,
        (if optIsSet cli "m" then mapfile = optString cli "m"
         else file !! "privacy.filter.geofence.mapfile" = Some mapfile) /\
        make_shapes mapfile = Some (circles, edges, grids) /\
        entities <$> qptr s' = Some (circles ++ edges ++ grids)%list) /\
     (if optIsSet cli "p" then optInt cli "p" = Some (partition s')
      else match file !! "privacy.kafka.partition" with
           | Some v => stoi v = Some (partition s')
           | None => partition s' = partition s
           end) /\
     (if optIsSet cli "u" then consumed_topic s' = optString cli "u"
      else file !! "privacy.topic.consumer" = Some (consumed_topic s')) /\
     (if optIsSet cli "f" then published_topic s' = optString cli "f"
      else file !! "privacy.topic.producer" = Some (published_topic s'))) /\
  (forall s1 s2 : St,
     alike cli s1 s2 ->
     related (alike cli) (configure_settings cli s1) (configure_settings cli s2)).
Proof.
  split.
  - intros s s' Hc. exact (configure_resolved cli s s' Hc).
  - exact (configure_settings_stable cli).
Qed.

(** *** Settings that nobody supplies *)

(** Neither the option nor the key of the file supplies the setting. *)
Definition missing (cli : CommandLine) (s : St) (opt : ascii) (key : string) : Prop :=
  optIsSet cli opt = false /\ pconf (result_state (configure_read cli s)) !! key = None.





End ConfigureClaims.

(** ** The claims on concrete inputs *)

Module Worked.

Import Sample.

Definition timeout_message : Message := message ERR__TIMED_OUT "".
Definition eof_message : Message := message ERR__PARTITION_EOF "".

(** The sample run: one generation of five turns, then a generation in
    which a signal arrives during the first turn. *)
Definition sample_run : Run (coord := unit) (entity := unit) :=
  run Sample.cli [gen false turns; gen false [turn true ERR__TIMED_OUT "" false "" ERR_NO_ERROR]] start.

Example sample_run_counts :
  (bsm_recv_count (final sample_run), bsm_send_count (final sample_run),
   bsm_filt_count (final sample_run), produce_errors (final sample_run)) = (3, 1, 1, 1)%N.
Proof. vm_compute. reflexivity. Qed.

Example sample_run_bytes :
  (bsm_recv_bytes (final sample_run), bsm_send_bytes (final sample_run),
   bsm_filt_bytes (final sample_run)) = (24, 7, 8)%N.
Proof. vm_compute. reflexivity. Qed.

Example sample_run_sizes_handed :
  map call_size (produced (final sample_run)) = [16; 2]%N.
Proof. vm_compute. reflexivity. Qed.

Example sample_run_exit : exit_status sample_run = Some 0.
Proof. vm_compute. reflexivity. Qed.

Example sample_run_summary :
  map entry_text (drop 36 (log (final sample_run))) =
  [ "PPM consumed  : 3 BSMs and 24 bytes";
    "PPM published : 1 BSMs and 7 bytes";
    "PPM suppressed: 1 BSMs and 8 bytes" ].
Proof. vm_compute. reflexivity. Qed.

(** C1 on the sample: the five turns keep the equation of the counts. *)
Lemma counter_conservation_witness :
  conserved start /\ conserved (consume_produce_loop turns start).2.
Proof.
  assert (H0 : conserved start) by reflexivity.
  split; [exact H0|].
  exact (proj1 (proj2 (counter_conservation Sample.cli [] info false)) turns start H0).
Defined.

(** C2 on the sample: the five turns keep the bound on the bytes. *)
Lemma byte_conservation_witness :
  bytes_bounded start /\ bytes_bounded (consume_produce_loop turns start).2.
Proof.
  assert (H0 : bytes_bounded start) by (vm_compute; discriminate).
  split; [exact H0|].
  exact (proj1 (proj2 (byte_conservation Sample.cli [] info false 0)) turns start H0).
Defined.

(** C9 on the sample: a timeout leaves the counters of a fresh object. *)
Lemma timeout_is_noop_witness :
  msg_err timeout_message = ERR__TIMED_OUT /\
  (msg_consume timeout_message (reply false "") start).1 = false /\
  tally (msg_consume timeout_message (reply false "") start).2 = tally start.
Proof.
  split; [reflexivity|].
  destruct (timeout_is_noop timeout_message (reply false "") start eq_refl)
    as (Hr & _ & Ht & _).
  split; [exact Hr | exact Ht].
Defined.

(** C3 on the sample: the first EOF on a fresh object, whose [exit_eof]
    is set and whose partition count is one, ends the inner loop. *)
Lemma partition_eof_handling_witness :
  msg_err eof_message = ERR__PARTITION_EOF /\
  eof_cnt (msg_consume eof_message (reply false "") start).2 = 1 /\
  bsms_available (msg_consume eof_message (reply false "") start).2 = false.
Proof.
  split; [reflexivity|].
  destruct (partition_eof_handling eof_message (reply false "") start eq_refl)
    as (_ & _ & Hc & Hav & _).
  split; [exact Hc | exact Hav].
Defined.

Definition sent_turn : Iteration :=
  turn false ERR_NO_ERROR "{bsm:1}" true "{bsm:1,redacted}" ERR_NO_ERROR.

Definition failed_turn : Iteration :=
  turn false ERR_NO_ERROR "{bsm:333}" true "{}" (ERR_OTHER (-184)).

(** C10 on the sample: seven bytes consumed, sixteen handed to the
    producer, seven counted as sent. *)
Lemma send_bytes_counts_message_length_witness :
  h_bsm_buffer_size (it_reply sent_turn) = 16%N /\
  bsm_send_bytes (iteration sent_turn start) = 7%N.
Proof.
  split; [reflexivity|].
  destruct (send_bytes_counts_message_length sent_turn start eq_refl eq_refl eq_refl)
    as [Hb _].
  exact Hb.
Defined.

(** C4 on the sample: a failed produce leaves the send counters at zero
    and the loop turning. *)
Lemma produce_failure_not_fatal_witness :
  it_status failed_turn <> ERR_NO_ERROR /\
  bsm_send_count (iteration failed_turn start) = 0%N /\
  bsm_recv_count (iteration failed_turn start) = 1%N /\
  bsms_available (iteration failed_turn start) = true.
Proof.
  assert (Hst : it_status failed_turn <> ERR_NO_ERROR) by discriminate.
  split; [exact Hst|].
  destruct (produce_failure_not_fatal failed_turn start eq_refl eq_refl Hst)
    as (_ & Hsc & _ & Hrc & _ & _ & Hgo).
  split; [exact Hsc|]. split; [exact Hrc|].
  exact (proj1 (Hgo eq_refl eq_refl)).
Defined.

(** C7 on the sample: the run in which a signal arrives returns
    [EXIT_SUCCESS]. *)
Lemma graceful_shutdown_witness :
  entered_bootstrap sample_run = true /\
  bootstrap (final sample_run) = false /\
  exit_status sample_run = Some EXIT_SUCCESS.
Proof.
  assert (He : entered_bootstrap sample_run = true) by (vm_compute; reflexivity).
  assert (Hb : bootstrap (final sample_run) = false) by (vm_compute; reflexivity).
  split; [exact He|]. split; [exact Hb|].
  assert (Hg : Forall (fun g => gen_reset_signal g = false)
                 [gen false turns; gen false [turn true ERR__TIMED_OUT "" false "" ERR_NO_ERROR]])
    by (repeat constructor).
  destruct graceful_shutdown as (_ & _ & _ & _ & Hrun & _).
  exact (proj1 (Hrun Sample.cli _ start He (or_intror (conj Hg Hb)))).
Defined.

(** A signal that lands between the test of the bootstrap loop and the
    reset of [bsms_available] lowers [bootstrap] only: the generation
    goes on consuming, and the loops are left when the consume-produce
    loop is next left, here at the end of the partition. *)
Example reset_window_consumes :
  let r := run Sample.cli [gen_window [turn false ERR__TIMED_OUT "" false "" ERR_NO_ERROR]] start in
  flags (final r) = (false, true) /\ exit_status r = None.
Proof. vm_compute. split; reflexivity. Qed.

Example reset_window_left_at_eof :
  let r := run Sample.cli [gen_window turns] start in
  flags (final r) = (false, false) /\ exit_status r = Some 0 /\
  bsm_recv_count (final r) = 3%N.
Proof. vm_compute. repeat split; reflexivity. Qed.

(** A run in which the signal lands in that window and [consume]
    then times out three times. *)
Definition lost_signal_run : Run (coord := unit) (entity := unit) :=
  run Sample.cli
    [gen_window [ turn false ERR__TIMED_OUT "" false "" ERR_NO_ERROR;
                  turn false ERR__TIMED_OUT "" false "" ERR_NO_ERROR;
                  turn false ERR__TIMED_OUT "" false "" ERR_NO_ERROR ]] start.

(** C7 fails on that run.  The handler has run, inside the bootstrap
    loop, and lowered both flags; line 789 has raised [bsms_available]
    again.  Three turns later the runner is still consuming: the loops
    are not left, no summary is written, [operator()] has not
    returned. *)
Lemma reset_window_signal_lost :
  entered_bootstrap lost_signal_run = true /\
  flags (final lost_signal_run) = (false, true) /\
  exit_status lost_signal_run = None /\
  bsm_recv_count (final lost_signal_run) = 0%N.
Proof. vm_compute. repeat split; reflexivity. Qed.

(** C8 on the sample: [-v debug] gives the level [trace]. *)
Lemma log_level_collapsing_witness :
  optIsSet cli_v "v" = true /\
  info_level (outcome_state (configure cli_v start)) = trace.
Proof.
  split; [reflexivity|].
  exact (proj1 (log_level_collapsing cli_v start eq_refl) (or_intror (or_introl eq_refl))).
Defined.

(** C5 on the sample: the file names a consumed topic and option [u]
    names another one; the option wins. *)
Lemma cli_precedence_witness :
  pconf (outcome_state (configure cli_u start)) !! "privacy.topic.consumer"
    = Some "j2735BsmRawJson" /\
  consumed_topic (outcome_state (configure cli_u start)) = "cliTopic".
Proof.
  split; [vm_compute; reflexivity|].
  assert (Hc : configure cli_u start = Returned true (outcome_state (configure cli_u start)))
    by (vm_compute; reflexivity).
  destruct (proj1 (cli_precedence cli_u) start _ Hc) as (_ & _ & Hu & _).
  exact Hu.
Defined.



End Worked.

(** * Further properties of the runner *)

(** ** What the loops keep

    A relation between the state before and the state after that the
    writes of the launches and of a turn keep is kept by the loops.
    [allowed] says which signal deliveries the relation admits. *)

Section Through.

Context {coord entity : Type} `{World coord entity}.

Local Abbreviation St := (PPM coord entity).

Variable R : St -> St -> Prop.
Variable allowed : bool -> Prop.
Hypothesis R_refl : forall s, R s s.
Hypothesis R_trans : forall s1 s2 s3, R s1 s2 -> R s2 s3 -> R s1 s3.
Hypothesis R_deliver : forall b s, allowed b -> R s (deliver b s).
Hypothesis R_logmsg : forall l t s, R s (logmsg l t s).
Hypothesis R_consumer : forall name s, consumer s = None -> R s (set_consumer (Some name) s).
Hypothesis R_producer : forall name s, producer s = None -> R s (set_producer (Some name) s).
Hypothesis R_filtered_topic : forall b s, R s (set_filtered_topic b s).
Hypothesis R_reset : forall s, R s (set_bsms_available true s).
Hypothesis R_iteration : forall it s, allowed (it_signal it) -> R s (iteration it s).
Hypothesis R_shutdown : forall s, R s (shutdown s).

(** The inputs all of whose deliveries are admitted. *)
Definition launch_allowed (env : ConsumerLaunch) : Prop :=
  allowed (cl_signal env) /\ Forall (fun p => allowed (poll_signal p)) (cl_polls env).

Definition generation_allowed (g : Generation) : Prop :=
  allowed (gen_reset_signal g) /\ launch_allowed (gen_consumer g) /\
  allowed (gen_sleep_signal g) /\ Forall (fun it => allowed (it_signal it)) (gen_iterations g).

Lemma through_topic_available topic md s : R s (topic_available topic md s).2.
Proof using R_logmsg.
  unfold topic_available.
  destruct (is_no_error (md_err md)); [destruct (existsb _ _)|]; simpl; apply R_logmsg.
Qed.

Lemma through_wait_for_topic subscribe polls s :
  Forall (fun p => allowed (poll_signal p)) polls ->
  R s (wait_for_topic subscribe polls s).2.
Proof using R_refl R_trans R_deliver R_logmsg.
  intros Hpolls. revert s. induction Hpolls as [|poll rest Hp Hrest IH]; intros s; simpl.
  - destruct (bsms_available s); apply R_refl.
  - destruct (bsms_available s); [|apply R_refl].
    pose proof (through_topic_available (consumed_topic (deliver (poll_signal poll) s))
                  (poll_metadata poll) (deliver (poll_signal poll) s)) as Ht.
    pose proof (R_deliver (poll_signal poll) s Hp) as Hd.
    destruct (topic_available _ _ _) as [found s1]. simpl in Ht.
    assert (Hs1 : R s s1) by eauto.
    destruct found.
    + destruct (is_no_error subscribe); simpl; eauto.
    + eapply R_trans; [|apply IH]. eauto.
Qed.

Lemma through_launch_consumer env s :
  launch_allowed env -> R s (launch_consumer env s).2.
Proof using R_refl R_trans R_deliver R_logmsg R_consumer.
  intros [Hsig Hpolls]. unfold launch_consumer.
  assert (Hw : forall s0 : St, R s s0 ->
            R s (match wait_for_topic (cl_subscribe env) (cl_polls env) s0 with
                 | (Some true, s1) =>
                     (Some true, logmsg info ("Consumer: " ++ default "" (consumer s1)
                        ++ " created using topic: " ++ consumed_topic s1 ++ ".") s1)
                 | r => r
                 end).2).
  { intros s0 Hs0.
    pose proof (through_wait_for_topic (cl_subscribe env) (cl_polls env) s0 Hpolls) as Ht.
    destruct (wait_for_topic _ _ s0) as [[[|]|] s1]; simpl in *; eauto. }
  pose proof (R_deliver (cl_signal env) s Hsig) as Hd.
  generalize dependent (deliver (cl_signal env) s). intros s' Hd. simpl.
  destruct (consumer s') eqn:Hc.
  - apply Hw, Hd.
  - destruct (cl_create env); simpl; eauto.
Qed.

Lemma through_launch_producer env s : R s (launch_producer env s).2.
Proof using R_refl R_trans R_logmsg R_producer R_filtered_topic.
  unfold launch_producer.
  assert (Hw : forall s0 : St, R s s0 ->
            R s (match pl_topic env with
                 | Some error_string =>
                     (false, logmsg critical ("Failed to create topic: " ++ published_topic s0
                        ++ ". Error: " ++ error_string ++ ".") (set_filtered_topic false s0))
                 | None =>
                     let s1 := set_filtered_topic true s0 in
                     (true, logmsg info ("Producer: " ++ default "" (producer s1)
                        ++ " created using topic: " ++ published_topic s1 ++ ".") s1)
                 end).2).
  { intros s0 Hs0. destruct (pl_topic env); simpl; eauto. }
  destruct (producer s) eqn:Hp.
  - apply Hw, R_refl.
  - destruct (pl_create env); simpl; eauto.
Qed.

Lemma through_log_position env s : R s (log_position env s).
Proof using R_refl R_trans R_logmsg.
  unfold log_position. destruct (is_no_error (fst env)); [|apply R_logmsg].
  generalize (snd env). intros l. revert s.
  induction l as [|tp l IH]; intros s; simpl; [apply R_refl|].
  eapply R_trans; [|apply IH]. apply R_logmsg.
Qed.

Lemma through_consume_produce_loop its s :
  Forall (fun it => allowed (it_signal it)) its ->
  R s (consume_produce_loop its s).2.
Proof using R_refl R_trans R_iteration.
  intros Hits. revert s. induction Hits as [|it rest Hit Hrest IH]; intros s; simpl.
  - destruct (bsms_available s); apply R_refl.
  - destruct (bsms_available s); [|apply R_refl].
    eapply R_trans; [|apply IH]. apply R_iteration, Hit.
Qed.

Lemma through_generation g s : generation_allowed g -> R s (generation g s).2.
Proof using R_refl R_trans R_deliver R_logmsg R_consumer R_producer R_filtered_topic
  R_reset R_iteration.
  intros (Hreset & Hlaunch & Hsleep & Hits). unfold generation.
  assert (H0 : R s (set_bsms_available true (deliver (gen_reset_signal g) s))) by eauto.
  pose proof (through_launch_consumer (gen_consumer g)
                (set_bsms_available true (deliver (gen_reset_signal g) s)) Hlaunch) as Hc.
  destruct (launch_consumer _ _) as [[[|]|] s1]; simpl in Hc |- *.
  - pose proof (through_launch_producer (gen_producer g) s1) as Hp.
    destruct (launch_producer _ s1) as [[|] s2]; simpl in Hp |- *.
    + eapply R_trans; [|apply through_consume_produce_loop, Hits].
      eapply R_trans; [|apply through_log_position]. eauto.
    + eauto 6.
  - eauto.
  - eauto.
Qed.

Lemma through_bootstrap_loop gens s :
  Forall generation_allowed gens -> R s (bootstrap_loop gens s).2.
Proof using R_refl R_trans R_deliver R_logmsg R_consumer R_producer R_filtered_topic
  R_reset R_iteration.
  intros Hgens. revert s. induction Hgens as [|g rest Hg Hrest IH]; intros s; simpl.
  - destruct (bootstrap s); apply R_refl.
  - destruct (bootstrap s); [|apply R_refl].
    pose proof (through_generation g s Hg) as Hgen.
    destruct (generation g s) as [[|] s1]; simpl in Hgen |- *; eauto.
Qed.

Lemma through_serve gens s :
  Forall generation_allowed gens -> R s (final (serve gens s)).
Proof using All.
  intros Hgens. unfold serve.
  pose proof (through_bootstrap_loop gens s Hgens) as Hb.
  destruct (bootstrap_loop gens s) as [[|] s1]; simpl in Hb |- *; eauto.
Qed.

End Through.

(** ** The run after [configure] *)

Section Runs.

Context {coord entity : Type} `{World coord entity}.

Local Abbreviation St := (PPM coord entity).

(** What [configure] resolves. *)
Definition settings (s : St) :=
  (exit_eof s, partition_cnt s, pconf s, partition s, offset s, published_topic s,
   consumed_topic s, conf s, tconf s, qptr s, consumer_timeout s, info_level s).

(** What the loops write, which [configure] does not. *)
Definition runtime (s : St) :=
  (tally s, eof_cnt s, partition_cnt s, flags s, consumer s, producer s, filtered_topic s).

Lemma runtime_configure cli (s : St) : runtime (outcome_state (configure cli s)) = runtime s.
Proof.
  apply (configure_related cli (keeps runtime)); keeps_tac.
Qed.

(** The counters and the EOF count do not decrease, and the record of
    the produce calls is only added to. *)
Definition grows (s s' : St) : Prop :=
  (bsm_recv_count s <= bsm_recv_count s')%N /\
  (bsm_send_count s <= bsm_send_count s')%N /\
  (bsm_filt_count s <= bsm_filt_count s')%N /\
  (bsm_recv_bytes s <= bsm_recv_bytes s')%N /\
  (bsm_send_bytes s <= bsm_send_bytes s')%N /\
  (bsm_filt_bytes s <= bsm_filt_bytes s')%N /\
  eof_cnt s <= eof_cnt s' /\
  produced s `prefix_of` produced s'.

Lemma grows_refl (s : St) : grows s s.
Proof. unfold grows. repeat split; reflexivity. Qed.

Lemma grows_trans (s1 s2 s3 : St) : grows s1 s2 -> grows s2 s3 -> grows s1 s3.
Proof.
  unfold grows. intros (?&?&?&?&?&?&?&?) (?&?&?&?&?&?&?&?).
  repeat split; try lia. etrans; eauto.
Qed.

Lemma grows_runtime (s s' : St) : runtime s' = runtime s -> grows s s'.
Proof.
  unfold runtime, tally, grows. intros [= -> -> -> -> -> -> -> -> _ _ _ _ _ _].
  repeat split; reflexivity.
Qed.

Lemma grows_iteration it (s : St) : grows s (iteration it s).
Proof.
  destruct it as [signal message reply status].
  unfold grows, iteration, produce, msg_consume, deliver, sigterm.
  rewrite trace_message_log_only.
  destruct s. split_turn; repeat split; simpl;
    first [ lia | reflexivity | apply prefix_app_r; reflexivity ].
Qed.

Lemma settings_iteration it (s : St) : settings (iteration it s) = settings s.
Proof.
  destruct it as [signal message reply status].
  unfold settings, iteration, produce, msg_consume, deliver, sigterm.
  rewrite trace_message_log_only.
  destruct s. split_turn; reflexivity.
Qed.

Lemma bootstrap_iteration it (s : St) :
  it_signal it = false -> bootstrap (iteration it s) = bootstrap s.
Proof.
  destruct it as [signal message reply status]. simpl. intros ->.
  unfold iteration, produce, msg_consume, deliver, sigterm.
  rewrite trace_message_log_only.
  destruct s. split_turn; reflexivity.
Qed.

Lemma grows_serve gens (s : St) : grows s (final (serve gens s)).
Proof.
  apply (through_serve grows (fun _ => True) grows_refl grows_trans).
  - intros [] [] _; simpl; repeat split; reflexivity.
  - intros l t []. repeat split; reflexivity.
  - intros name [] _. repeat split; reflexivity.
  - intros name [] _. repeat split; reflexivity.
  - intros b []. repeat split; reflexivity.
  - intros []. repeat split; reflexivity.
  - intros it s0 _. apply grows_iteration.
  - intros []. repeat split; reflexivity.
  - apply Forall_forall. intros g _. unfold generation_allowed, launch_allowed.
    repeat split; auto; apply Forall_forall; auto.
Qed.

(** X1. The counters never decrease.  From whatever state
    [operator()] starts, each of the six counters and the EOF count at
    the end of the run is at least what it was, and the record of the
    produce calls has only been added to. *)
Theorem counters_only_grow (cli : CommandLine) (gens : list Generation) (s : St) :
  grows s (final (run cli gens s)).
Proof.
  unfold run.
  pose proof (runtime_configure cli s) as Hc.
  destruct (configure cli s) as [[|] s0 | s0]; simpl in Hc |- *.
  - eapply grows_trans; [apply grows_runtime; eauto | apply grows_serve].
  - apply grows_runtime; auto.
  - apply grows_runtime; auto.
Qed.

End Runs.

Section Produced.

Context {coord entity : Type} `{World coord entity}.

Local Abbreviation St := (PPM coord entity).

(** The produce calls that returned [ERR_NO_ERROR]. *)
Definition accepted_calls (l : list ProduceCall) : N :=
  N.of_nat (length (List.filter (fun c => is_no_error (call_status c)) l)).

Lemma accepted_calls_snoc l c :
  accepted_calls (l ++ [c]) =
  (accepted_calls l + if is_no_error (call_status c) then 1 else 0)%N.
Proof.
  unfold accepted_calls. rewrite List.filter_app, length_app. simpl.
  destruct (is_no_error (call_status c)); simpl; lia.
Qed.

(** Every message received was suppressed or handed to the producer,
    and the messages counted as sent are the calls that succeeded. *)
Definition accounted (s : St) : Prop :=
  bsm_send_count s = accepted_calls (produced s) /\
  bsm_recv_count s = (bsm_filt_count s + N.of_nat (length (produced s)))%N.

Lemma accounted_tally (s s' : St) : tally s' = tally s -> accounted s -> accounted s'.
Proof. unfold accounted, tally. intros [= -> -> -> _ _ _ ->]. auto. Qed.

Lemma accounted_iteration it (s : St) : accounted s -> accounted (iteration it s).
Proof.
  destruct it as [signal message reply status].
  unfold accounted, iteration, produce, msg_consume, deliver, sigterm.
  rewrite trace_message_log_only.
  destruct s. split_turn; intros [Hs Hr]; subst;
    rewrite ?accepted_calls_snoc, ?length_app; simpl;
    repeat match goal with Hst : is_no_error _ = _ |- _ => rewrite Hst; clear Hst end;
    split; lia.
Qed.

(** X2. The produce calls account for the messages.  On a run of
    [operator()] that starts with zero counters and no produce call
    recorded, wherever the run stands, [bsm_send_count] is the number of
    produce calls that returned [ERR_NO_ERROR], and every message
    received was either suppressed or handed to the producer exactly
    once: [bsm_recv_count] is [bsm_filt_count] plus the number of
    produce calls. *)
Theorem produce_calls_accounted (cli : CommandLine) (gens : list Generation) (s : St) :
  accounted s ->
  let s' := final (run cli gens s) in
  bsm_send_count s' = accepted_calls (produced s') /\
  bsm_recv_count s' = (bsm_filt_count s' + N.of_nat (length (produced s')))%N.
Proof.
  intros Hs. exact (run_invariant accounted accounted_tally accounted_iteration cli gens s Hs).
Qed.

(** The produce calls added since [s] went to the partition of [s],
    which is still the partition. *)
Definition sent_to_partition (s s' : St) : Prop :=
  partition s' = partition s /\
  exists added, produced s' = (produced s ++ added)%list /\
                Forall (fun c => call_partition c = partition s) added.

Lemma sent_to_partition_same (s s' : St) :
  partition s' = partition s -> produced s' = produced s -> sent_to_partition s s'.
Proof. intros Hp Hq. split; [exact Hp|]. exists []. rewrite app_nil_r. auto. Qed.

Lemma sent_to_partition_trans (s1 s2 s3 : St) :
  sent_to_partition s1 s2 -> sent_to_partition s2 s3 -> sent_to_partition s1 s3.
Proof.
  intros [Hp1 (a1 & Ha1 & Hf1)] [Hp2 (a2 & Ha2 & Hf2)]. split; [congruence|].
  exists (a1 ++ a2)%list. split.
  - rewrite Ha2, Ha1, app_assoc. reflexivity.
  - apply Forall_app. split; [exact Hf1|]. rewrite <- Hp1. exact Hf2.
Qed.

Lemma sent_to_partition_iteration it (s : St) : sent_to_partition s (iteration it s).
Proof.
  destruct it as [signal message reply status].
  unfold sent_to_partition, iteration, produce, msg_consume, deliver, sigterm.
  rewrite trace_message_log_only.
  destruct s. split_turn; (split; [reflexivity|]);
    first [ exists []; rewrite app_nil_r; split; [reflexivity | constructor]
          | eexists [_]; split; [reflexivity | repeat constructor] ].
Qed.

Lemma sent_to_partition_serve gens (s : St) : sent_to_partition s (final (serve gens s)).
Proof.
  apply (through_serve sent_to_partition (fun _ => True)).
  - intros s0. apply sent_to_partition_same; reflexivity.
  - apply sent_to_partition_trans.
  - intros [] [] _; apply sent_to_partition_same; reflexivity.
  - intros l t []. apply sent_to_partition_same; reflexivity.
  - intros name [] _. apply sent_to_partition_same; reflexivity.
  - intros name [] _. apply sent_to_partition_same; reflexivity.
  - intros b []. apply sent_to_partition_same; reflexivity.
  - intros []. apply sent_to_partition_same; reflexivity.
  - intros it s0 _. apply sent_to_partition_iteration.
  - intros []. apply sent_to_partition_same; reflexivity.
  - apply Forall_forall. intros g _. unfold generation_allowed, launch_allowed.
    repeat split; auto; apply Forall_forall; auto.
Qed.

Lemma settings_serve gens (s : St) : settings (final (serve gens s)) = settings s.
Proof.
  apply (through_serve (keeps settings) (fun _ => True)); unfold keeps.
  - reflexivity.
  - congruence.
  - intros [] [] _; reflexivity.
  - intros l t []; reflexivity.
  - intros name [] _; reflexivity.
  - intros name [] _; reflexivity.
  - intros b []; reflexivity.
  - intros []; reflexivity.
  - intros it s0 _. apply settings_iteration.
  - intros []; reflexivity.
  - apply Forall_forall. intros g _. unfold generation_allowed, launch_allowed.
    repeat split; auto; apply Forall_forall; auto.
Qed.

(** X3. The loops leave the configuration alone, and every message goes
    to the configured partition.  On a run that starts without a
    recorded produce call, every produce call carries the partition the
    object holds at the end, which is the one [configure] resolved; and
    once [configure] has returned true, nothing of what it resolved
    (topics, partition, offset, timeout, the three configurations, the
    geofence, [exit_eof], the log level) is written again, whatever the
    loops receive. *)
Theorem loops_keep_configuration (cli : CommandLine) (gens : list Generation) (s : St) :
  produced s = [] ->
  let r := run cli gens s in
  Forall (fun c => call_partition c = partition (final r)) (produced (final r)) /\
  (forall s0, configure cli s = Returned true s0 -> settings (final r) = settings s0).
Proof.
  intros Hnone. unfold run.
  pose proof (runtime_configure cli s) as Hc.
  destruct (configure cli s) as [[|] s0 | s0] eqn:Hconf; simpl in Hc |- *.
  - assert (Hp0 : produced s0 = []).
    { unfold runtime, tally in Hc. injection Hc as _ _ _ _ _ _ Hp _ _ _ _ _ _.
      congruence. }
    destruct (sent_to_partition_serve gens s0) as [Hp (added & Ha & Hf)].
    split.
    + rewrite Ha, Hp0, Hp. exact Hf.
    + intros s1 [= <-]. apply settings_serve.
  - split; [|discriminate].
    unfold runtime, tally in Hc. injection Hc as _ _ _ _ _ _ Hp _ _ _ _ _ _.
    rewrite Hp, Hnone. constructor.
  - split; [|discriminate].
    unfold runtime, tally in Hc. injection Hc as _ _ _ _ _ _ Hp _ _ _ _ _ _.
    rewrite Hp, Hnone. constructor.
Qed.

End Produced.

Section Signals.

Context {coord entity : Type} `{World coord entity}.

Local Abbreviation St := (PPM coord entity).

(** A generation during which no signal is delivered. *)
Definition quiet (g : Generation) : Prop := generation_allowed (fun b => b = false) g.

Lemma bootstrap_kept_quiet gens (s : St) :
  Forall quiet gens -> bootstrap (bootstrap_loop gens s).2 = bootstrap s.
Proof.
  apply (through_bootstrap_loop (keeps bootstrap) (fun b => b = false)); unfold keeps.
  - reflexivity.
  - congruence.
  - intros b s0 ->. reflexivity.
  - intros l t []; reflexivity.
  - intros name [] _; reflexivity.
  - intros name [] _; reflexivity.
  - intros b []; reflexivity.
  - intros []; reflexivity.
  - intros it s0. apply bootstrap_iteration.
Qed.

Lemma flags_shutdown_bootstrap (s : St) : bootstrap (shutdown s) = bootstrap s.
Proof. destruct s; reflexivity. Qed.

(** The bootstrap loop is only left at its test. *)
Lemma bootstrap_loop_exit gens (s : St) :
  (bootstrap_loop gens s).1 = true -> bootstrap (bootstrap_loop gens s).2 = false.
Proof.
  revert s. induction gens as [|g rest IH]; intros s; simpl.
  - destruct (bootstrap s) eqn:Hb; simpl; congruence.
  - destruct (bootstrap s) eqn:Hb; simpl; [|auto].
    destruct (generation g s) as [[|] s1]; simpl; [apply IH | discriminate].
Qed.

(** X4. No return without a signal.  [operator()] returns
    [EXIT_SUCCESS] only with [bootstrap] down; on an object whose
    [bootstrap] is up and with no signal delivered, it never returns
    [EXIT_SUCCESS], whatever the broker sends: once [configure] has
    returned true the run is still inside the loops at the end of every
    input, also after the end of all partitions with [exit_eof] set and
    after consumer errors, which only end one generation. *)
Theorem no_return_without_signal (cli : CommandLine) (gens : list Generation) (s : St) :
  (exit_status (run cli gens s) = Some EXIT_SUCCESS -> bootstrap (final (run cli gens s)) = false) /\
  (bootstrap s = true -> Forall quiet gens ->
   exit_status (run cli gens s) <> Some EXIT_SUCCESS /\
   (entered_bootstrap (run cli gens s) = true ->
    exit_status (run cli gens s) = None /\ bootstrap (final (run cli gens s)) = true)).
Proof.
  unfold run.
  pose proof (flags_configure cli s) as Hf.
  destruct (configure cli s) as [[|] s0 | s0]; simpl in Hf |- *;
    try (split; [discriminate | intros _ _; split; discriminate]).
  unfold serve.
  pose proof (bootstrap_loop_exit gens s0) as Hexit.
  pose proof (bootstrap_kept_quiet gens s0) as Hquiet.
  destruct (bootstrap_loop gens s0) as [[|] s1]; simpl in *.
  - split.
    + intros _. rewrite flags_shutdown_bootstrap. auto.
    + intros Hb Hq. specialize (Hquiet Hq). specialize (Hexit eq_refl).
      unfold flags in Hf. congruence.
  - split; [discriminate|].
    intros Hb Hq. split; [discriminate|]. intros _. split; [reflexivity|].
    rewrite (Hquiet Hq). unfold flags in Hf. congruence.
Qed.

(** *** A signal between the test of the bootstrap loop and the reset

    Line 789 raises [bsms_available] again after the test of line 787.
    A signal that the handler serves between the two has lowered both
    flags, and the reset undoes half of it. *)

(** A turn without signal in which [consume] times out. *)
Definition idle (it : Iteration) : Prop :=
  it_signal it = false /\ msg_err (it_message it) = ERR__TIMED_OUT.

Lemma idle_turn_flags it (s : St) : idle it -> flags (iteration it s) = flags s.
Proof.
  destruct it as [signal message reply status]. intros [Hsig Herr]. simpl in *.
  unfold iteration, msg_consume, deliver. simpl. rewrite Hsig, Herr.
  destruct s; reflexivity.
Qed.

Lemma idle_turns_keep_turning its (s : St) :
  bsms_available s = true -> Forall idle its ->
  (consume_produce_loop its s).1 = false /\ flags (consume_produce_loop its s).2 = flags s.
Proof.
  intros Hav Hits. revert s Hav.
  induction Hits as [|it rest Hit Hrest IH]; intros s Hav; simpl; rewrite Hav.
  - split; reflexivity.
  - pose proof (idle_turn_flags it s Hit) as Hf.
    destruct (IH (iteration it s)) as [Hleft Hflags].
    + unfold flags in Hf. congruence.
    + split; [exact Hleft | congruence].
Qed.

Lemma launch_consumer_bootstrap_down env (s : St) :
  bootstrap s = false -> bootstrap (launch_consumer env s).2 = false.
Proof.
  apply (through_launch_consumer (fun s s' => bootstrap s = false -> bootstrap s' = false)
           (fun _ => True)); auto.
  - intros [] [] _; auto.
  - intros l t []; auto.
  - intros name [] _; auto.
  - split; [exact I | apply Forall_forall; auto].
Qed.

(** The signal is half lost.  When the handler runs between the test
    of the bootstrap loop and the reset, the launches go through, and
    no further signal comes, the generation starts consuming with
    [bootstrap] down and [bsms_available] up; as long as [consume] times
    out the consume-produce loop is not left, so [operator()] neither
    writes the summary nor returns. *)
Lemma signal_before_reset_half_lost (g : Generation) (gens : list Generation) (s s1 s2 : St) :
  bootstrap s = true -> gen_reset_signal g = true ->
  launch_consumer (gen_consumer g) (set_bsms_available true (sigterm s)) = (Some true, s1) ->
  bsms_available s1 = true ->
  launch_producer (gen_producer g) s1 = (true, s2) ->
  Forall idle (gen_iterations g) ->
  exit_status (serve (g :: gens) s) = None /\
  flags (final (serve (g :: gens) s)) = (false, true).
Proof.
  intros Hb Hsig Hlc Hav Hlp Hidle.
  assert (Hb1 : bootstrap s1 = false).
  { pose proof (launch_consumer_bootstrap_down (gen_consumer g)
                  (set_bsms_available true (sigterm s))) as Hd.
    rewrite Hlc in Hd. apply Hd. destruct s; reflexivity. }
  pose proof (flags_launch_producer (gen_producer g) s1) as Hfp. rewrite Hlp in Hfp.
  simpl in Hfp.
  assert (Hf2 : flags (log_position (gen_position g) s2) = (false, true)).
  { rewrite flags_log_position, Hfp. unfold flags. congruence. }
  assert (Hgen : generation g s =
                 consume_produce_loop (gen_iterations g) (log_position (gen_position g) s2)).
  { unfold generation. rewrite Hsig. simpl. rewrite Hlc, Hlp. reflexivity. }
  destruct (idle_turns_keep_turning (gen_iterations g) (log_position (gen_position g) s2))
    as [Hleft Hflags]; [unfold flags in Hf2; congruence | exact Hidle |].
  unfold serve. simpl. rewrite Hb, Hgen.
  destruct (consume_produce_loop _ _) as [[|] s3]; simpl in *; [discriminate|].
  split; [reflexivity | congruence].
Qed.

End Signals.

Section Latch.

Context {coord entity : Type} `{World coord entity}.

Local Abbreviation St := (PPM coord entity).

(** The EOF count has reached the partition count. *)
Definition latched (s : St) : Prop := partition_cnt s <= eof_cnt s.

(** A turn without signal whose message is a BSM, a timeout or the end
    of a partition. *)
Definition harmless (it : Iteration) : Prop :=
  it_signal it = false /\
  (msg_err (it_message it) = ERR_NO_ERROR \/
   msg_err (it_message it) = ERR__TIMED_OUT \/
   msg_err (it_message it) = ERR__PARTITION_EOF).

Lemma latched_grows (s s' : St) :
  partition_cnt s' = partition_cnt s -> grows s s' -> latched s -> latched s'.
Proof. unfold latched, grows. intros Hp (_&_&_&_&_&_&He&_). lia. Qed.

Lemma partition_cnt_iteration it (s : St) : partition_cnt (iteration it s) = partition_cnt s.
Proof.
  pose proof (settings_iteration it s) as Hs. unfold settings in Hs.
  injection Hs as _ Hp _ _ _ _ _ _ _ _ _ _. exact Hp.
Qed.

Lemma latched_iteration it (s : St) : latched s -> latched (iteration it s).
Proof. apply latched_grows; [apply partition_cnt_iteration | apply grows_iteration]. Qed.

Lemma harmless_keeps_available it (s : St) :
  latched s -> harmless it -> bsms_available (iteration it s) = bsms_available s.
Proof.
  destruct it as [signal message reply status]. unfold latched, harmless. simpl.
  intros Hl [-> Herr].
  unfold iteration, produce, msg_consume, deliver, sigterm.
  rewrite trace_message_log_only.
  destruct s. simpl in Hl.
  split_turn; try reflexivity; try (exfalso; intuition congruence).
  match goal with Heq : (_ =? _) = true |- _ => apply Z.eqb_eq in Heq end. lia.
Qed.

(** X5. The EOF count latches.  The count is never reset and the
    partition count never written, so once the EOF count has reached
    the partition count (as it has after the EOF that ended the first
    consume-produce loop) the end of a partition no longer lowers
    [bsms_available]: from then on, through every later generation,
    the consume-produce loop is left only by a signal or a consumer
    error, also with [exit_eof] set. *)
Theorem eof_count_latches :
  (forall (message : Message) (reply : HandlerReply) (s : St),
     msg_err message = ERR__PARTITION_EOF -> exit_eof s = true ->
     eof_cnt s + 1 = partition_cnt s ->
     bsms_available (msg_consume message reply s).2 = false /\
     latched (msg_consume message reply s).2) /\
  (forall (message : Message) (reply : HandlerReply) (s : St),
     msg_err message = ERR__PARTITION_EOF -> latched s ->
     bsms_available (msg_consume message reply s).2 = bsms_available s) /\
  (forall (gens : list Generation) (s : St),
     latched s -> latched (bootstrap_loop gens s).2) /\
  (forall (its : list Iteration) (s : St),
     latched s -> bsms_available s = true -> Forall harmless its ->
     (consume_produce_loop its s).1 = false).
Proof.
  split; [|split; [|split]].
  - intros message reply s Herr Hx Heq. unfold msg_consume, latched. rewrite Herr.
    destruct s. simpl in *. subst. simpl. rewrite Z.eqb_refl. simpl. split; [reflexivity | lia].
  - intros message reply s Herr Hl. unfold msg_consume. rewrite Herr.
    unfold latched in Hl. destruct s. simpl in *.
    repeat match goal with
           | |- context [if ?b then _ else _] => destruct b eqn:?
           end; simpl; try reflexivity.
    match goal with Heq : (_ =? _) = true |- _ => apply Z.eqb_eq in Heq end. lia.
  - intros gens s Hl.
    assert (Hall : Forall (generation_allowed (fun _ => True)) gens).
    { apply Forall_forall. intros g _. unfold generation_allowed, launch_allowed.
      repeat split; auto; apply Forall_forall; auto. }
    refine (through_bootstrap_loop (fun s s' => latched s -> latched s') (fun _ => True)
              _ _ _ _ _ _ _ _ _ gens s Hall Hl); auto.
    + intros [] [] _; auto.
    + intros l t []; auto.
    + intros name [] _; auto.
    + intros name [] _; auto.
    + intros b []; auto.
    + intros []; auto.
    + intros it s0 _. apply latched_iteration.
  - intros its s Hl Hav Hits. revert s Hl Hav.
    induction Hits as [|it rest Hit Hrest IH]; intros s Hl Hav; simpl; rewrite Hav.
    + reflexivity.
    + apply IH.
      * apply latched_iteration, Hl.
      * rewrite (harmless_keeps_available it s Hl Hit). exact Hav.
Qed.

End Latch.

Section Handles.

Context {coord entity : Type} `{World coord entity}.

Local Abbreviation St := (PPM coord entity).

(** The consumer and the producer that [s] holds are those of [s']. *)
Definition handles_kept (s s' : St) : Prop :=
  (forall name, consumer s = Some name -> consumer s' = Some name) /\
  (forall name, producer s = Some name -> producer s' = Some name).

Lemma handles_kept_same (s s' : St) :
  consumer s' = consumer s -> producer s' = producer s -> handles_kept s s'.
Proof. intros Hc Hp. split; intros name; congruence. Qed.

Lemma handles_iteration it (s : St) :
  (consumer (iteration it s), producer (iteration it s), filtered_topic (iteration it s)) =
  (consumer s, producer s, filtered_topic s).
Proof.
  destruct it as [signal message reply status].
  unfold iteration, produce, msg_consume, deliver, sigterm.
  rewrite trace_message_log_only.
  destruct s. split_turn; reflexivity.
Qed.

Lemma handles_kept_serve gens (s : St) : handles_kept s (final (serve gens s)).
Proof.
  apply (through_serve handles_kept (fun _ => True)).
  - intros s0. apply handles_kept_same; reflexivity.
  - intros s1 s2 s3 [Hc1 Hp1] [Hc2 Hp2]. split; intros name; auto.
  - intros [] [] _; apply handles_kept_same; reflexivity.
  - intros l t []. apply handles_kept_same; reflexivity.
  - intros name [] Hnone. simpl in Hnone. split; intros n; simpl; congruence.
  - intros name [] Hnone. simpl in Hnone. split; intros n; simpl; congruence.
  - intros b []. apply handles_kept_same; reflexivity.
  - intros []. apply handles_kept_same; reflexivity.
  - intros it s0 _. pose proof (handles_iteration it s0) as [= Hc Hp _].
    apply handles_kept_same; assumption.
  - intros []. apply handles_kept_same; reflexivity.
  - apply Forall_forall. intros g _. unfold generation_allowed, launch_allowed.
    repeat split; auto; apply Forall_forall; auto.
Qed.

Lemma launch_consumer_true env (s s1 : St) :
  launch_consumer env s = (Some true, s1) -> is_Some (consumer s1).
Proof.
  unfold launch_consumer.
  assert (Hwait : forall subscribe polls (s0 : St),
            consumer (wait_for_topic subscribe polls s0).2 = consumer s0).
  { intros subscribe polls s0.
    apply (through_wait_for_topic (keeps consumer) (fun _ => True)); unfold keeps;
      try congruence.
    - intros [] [] _; reflexivity.
    - intros l t []; reflexivity.
    - apply Forall_forall; auto. }
  assert (Hw : forall s0 : St, is_Some (consumer s0) ->
            match wait_for_topic (cl_subscribe env) (cl_polls env) s0 with
            | (Some true, s2) =>
                (Some true, logmsg info ("Consumer: " ++ default "" (consumer s2)
                   ++ " created using topic: " ++ consumed_topic s2 ++ ".") s2)
            | r => r
            end = (Some true, s1) -> is_Some (consumer s1)).
  { intros s0 Hs0. specialize (Hwait (cl_subscribe env) (cl_polls env) s0).
    destruct (wait_for_topic _ _ s0) as [[[|]|] s2]; simpl in Hwait; intros [= <-].
    destruct s2; simpl in *. congruence. }
  generalize (deliver (cl_signal env) s). intros s'. simpl.
  destruct (consumer s') eqn:Hc.
  - apply Hw. rewrite Hc. eauto.
  - destruct (cl_create env); simpl; [|discriminate].
    apply Hw. destruct s'; simpl. eauto.
Qed.

Lemma launch_producer_true env (s s1 : St) :
  launch_producer env s = (true, s1) ->
  is_Some (producer s1) /\ filtered_topic s1 = true /\ consumer s1 = consumer s.
Proof.
  unfold launch_producer.
  assert (Hw : forall s0 : St, is_Some (producer s0) -> consumer s0 = consumer s ->
            match pl_topic env with
            | Some error_string =>
                (false, logmsg critical ("Failed to create topic: " ++ published_topic s0
                   ++ ". Error: " ++ error_string ++ ".") (set_filtered_topic false s0))
            | None =>
                let s2 := set_filtered_topic true s0 in
                (true, logmsg info ("Producer: " ++ default "" (producer s2)
                   ++ " created using topic: " ++ published_topic s2 ++ ".") s2)
            end = (true, s1) ->
            is_Some (producer s1) /\ filtered_topic s1 = true /\ consumer s1 = consumer s).
  { intros s0 Hs0 Hc0. destruct (pl_topic env); simpl; intros [= <-].
    destruct s0; simpl in *. auto. }
  destruct (producer s) eqn:Hp.
  - apply Hw; [rewrite Hp; eauto | reflexivity].
  - destruct (pl_create env); simpl; [|discriminate].
    apply Hw; destruct s; simpl; eauto.
Qed.

(** X6. The handles.  The consumer and the producer are created at
    most once: one that the object holds is never replaced, through
    every later generation.  And a generation that has called
    [producer->produce] holds a consumer, a producer and the handle of
    the published topic: the turns run only after both launches
    returned true. *)
Theorem handles_created_once :
  (forall (gens : list Generation) (s : St),
     (forall name, consumer s = Some name -> consumer (final (serve gens s)) = Some name) /\
     (forall name, producer s = Some name -> producer (final (serve gens s)) = Some name)) /\
  (forall (g : Generation) (s : St),
     produced (generation g s).2 <> produced s ->
     is_Some (consumer (generation g s).2) /\
     is_Some (producer (generation g s).2) /\
     filtered_topic (generation g s).2 = true).
Proof.
  split; [intros gens s; apply handles_kept_serve|].
  intros g s. unfold generation.
  pose proof (tally_launch_consumer (gen_consumer g)
                (set_bsms_available true (deliver (gen_reset_signal g) s))) as Htc.
  rewrite tally_set_bsms_available, tally_deliver in Htc.
  pose proof (launch_consumer_true (gen_consumer g)
                (set_bsms_available true (deliver (gen_reset_signal g) s))) as Hlc.
  destruct (launch_consumer _ _) as [[[|]|] s1]; simpl in Htc, Hlc |- *.
  - specialize (Hlc s1 eq_refl).
    pose proof (tally_launch_producer (gen_producer g) s1) as Htp.
    pose proof (launch_producer_true (gen_producer g) s1) as Hlp.
    destruct (launch_producer _ s1) as [[|] s2]; simpl in Htp, Hlp |- *.
    + destruct (Hlp s2 eq_refl) as (Hp2 & Hf2 & Hc2). intros _.
      assert (Hkeep : (consumer (consume_produce_loop (gen_iterations g)
                                   (log_position (gen_position g) s2)).2,
                       producer (consume_produce_loop (gen_iterations g)
                                   (log_position (gen_position g) s2)).2,
                       filtered_topic (consume_produce_loop (gen_iterations g)
                                   (log_position (gen_position g) s2)).2) =
                      (consumer s2, producer s2, filtered_topic s2)).
      { transitivity (consumer (log_position (gen_position g) s2),
                      producer (log_position (gen_position g) s2),
                      filtered_topic (log_position (gen_position g) s2)).
        - apply (through_consume_produce_loop
                   (keeps (fun s => (consumer s, producer s, filtered_topic s)))
                   (fun _ => True)); unfold keeps; try congruence.
          + intros it s0 _. apply handles_iteration.
          + apply Forall_forall; auto.
        - apply (through_log_position
                   (keeps (fun s => (consumer s, producer s, filtered_topic s))));
            unfold keeps; try congruence.
          intros l t []; reflexivity. }
      injection Hkeep as -> -> ->. rewrite Hc2. auto.
    + intros Hne. exfalso. apply Hne.
      pose proof (tally_deliver (gen_sleep_signal g) s2) as Hd.
      unfold tally in *. congruence.
  - intros Hne. exfalso. apply Hne.
    pose proof (tally_deliver (gen_sleep_signal g) s1) as Hd.
    unfold tally in *. congruence.
  - intros Hne. exfalso. apply Hne. unfold tally in *. congruence.
Qed.

End Handles.

Section Failures.

Context {coord entity : Type} `{World coord entity}.

Local Abbreviation St := (PPM coord entity).

(** An error code that [msg_consume] takes for a failure of the
    consumer. *)
Definition consumer_failure (e : ErrorCode) : Prop :=
  e <> ERR_NO_ERROR /\ e <> ERR__TIMED_OUT /\ e <> ERR__PARTITION_EOF.

(** The last record of the log has level [l]. *)
Definition last_level (l : level) (s : St) : Prop :=
  exists t, last (log s) = Some {| entry_level := l; entry_text := t |}.

Lemma last_level_logmsg l t (s : St) : last_level l (logmsg l t s).
Proof. exists t. destruct s; simpl. apply last_snoc. Qed.

(** X7. A consumer error ends the consume-produce loop and nothing
    else.  When [consume] hands over a message whose code is none of
    [ERR_NO_ERROR], [ERR__TIMED_OUT] and [ERR__PARTITION_EOF], the turn
    is the last of its loop: [bsms_available] is down after it.  The
    turn counts nothing, calls neither the handler's result nor the
    producer, leaves the EOF count alone, and writes [bootstrap] only
    through a signal; its one record is an error that ends with the
    error text of the message.  So the bootstrap loop, if no signal
    came, starts its next turn. *)
Theorem consumer_error_ends_loop (it : Iteration) (rest : list Iteration) (s : St) :
  consumer_failure (msg_err (it_message it)) ->
  bsms_available s = true ->
  consume_produce_loop (it :: rest) s = (true, iteration it s) /\
  bsms_available (iteration it s) = false /\
  bootstrap (iteration it s) = bootstrap (deliver (it_signal it) s) /\
  tally (iteration it s) = tally s /\
  eof_cnt (iteration it s) = eof_cnt s /\
  exists text,
    log (iteration it s) =
    (log s ++ [{| entry_level := err; entry_text := text ++ msg_errstr (it_message it) |}])%list.
Proof.
  intros (Hne & Hnt & Hnp) Hav.
  assert (Hturn : bsms_available (iteration it s) = false /\
                  bootstrap (iteration it s) = bootstrap (deliver (it_signal it) s) /\
                  tally (iteration it s) = tally s /\
                  eof_cnt (iteration it s) = eof_cnt s /\
                  exists text,
                    log (iteration it s) =
                    (log s ++ [{| entry_level := err;
                                  entry_text := text ++ msg_errstr (it_message it) |}])%list).
  { destruct it as [signal message reply status]. simpl in *.
    unfold iteration, msg_consume, deliver, sigterm. simpl.
    destruct s. destruct (msg_err message); try congruence; destruct signal; simpl;
      repeat split; eexists; reflexivity. }
  split; [|exact Hturn].
  simpl. rewrite Hav. destruct Hturn as (Hdown & _). destruct rest; simpl; rewrite Hdown; reflexivity.
Qed.

End Failures.

Section Launches.

Context {coord entity : Type} `{World coord entity}.

Local Abbreviation St := (PPM coord entity).

(** The metadata of a poll does not give the topic: the call failed or
    the topic is not listed; and no signal came during the poll. *)
Definition unlisted (topic : string) (poll : TopicPoll) : Prop :=
  poll_signal poll = false /\
  (md_err (poll_metadata poll) <> ERR_NO_ERROR \/ ~ In topic (md_topics (poll_metadata poll))).

(** The metadata of a poll was retrieved and lists the topic. *)
Definition listed (topic : string) (poll : TopicPoll) : Prop :=
  md_err (poll_metadata poll) = ERR_NO_ERROR /\ In topic (md_topics (poll_metadata poll)).

Lemma is_no_error_true e : is_no_error e = true <-> e = ERR_NO_ERROR.
Proof. destruct e; simpl; split; congruence. Qed.

Lemma topic_available_true topic md (s : St) :
  (topic_available topic md s).1 = true <->
  md_err md = ERR_NO_ERROR /\ In topic (md_topics md).
Proof.
  unfold topic_available. rewrite <- is_no_error_true.
  destruct (is_no_error (md_err md)); simpl.
  - destruct (existsb (String.eqb topic) (md_topics md)) eqn:Hex; simpl.
    + apply existsb_exists in Hex as (t & Hin & Heq). apply String.eqb_eq in Heq. subst t.
      tauto.
    + split; [discriminate|]. intros [_ Hin]. exfalso.
      assert (Hex' : existsb (String.eqb topic) (md_topics md) = true).
      { apply existsb_exists. exists topic. split; [exact Hin | apply String.eqb_refl]. }
      congruence.
  - split; [discriminate | intros [? _]; discriminate].
Qed.

Lemma topic_available_settings topic md (s : St) :
  consumed_topic (topic_available topic md s).2 = consumed_topic s /\
  bsms_available (topic_available topic md s).2 = bsms_available s /\
  consumer (topic_available topic md s).2 = consumer s.
Proof.
  unfold topic_available. destruct s.
  destruct (is_no_error _); [destruct (existsb _ _)|]; simpl; auto.
Qed.

Lemma wait_for_topic_subscribed subscribe polls (s s1 : St) :
  wait_for_topic subscribe polls s = (Some true, s1) ->
  bsms_available s1 = true ->
  subscribe = ERR_NO_ERROR /\ exists poll, In poll polls /\ listed (consumed_topic s) poll.
Proof.
  revert s. induction polls as [|poll rest IH]; intros s; simpl.
  - destruct (bsms_available s) eqn:Hav; [discriminate|]. intros [= <-]. congruence.
  - destruct (bsms_available s) eqn:Hav; [|intros [= <-]; congruence].
    assert (Hct : consumed_topic (deliver (poll_signal poll) s) = consumed_topic s).
    { destruct (poll_signal poll), s; reflexivity. }
    pose proof (topic_available_true (consumed_topic (deliver (poll_signal poll) s))
                  (poll_metadata poll) (deliver (poll_signal poll) s)) as Hta.
    pose proof (topic_available_settings (consumed_topic (deliver (poll_signal poll) s))
                  (poll_metadata poll) (deliver (poll_signal poll) s)) as (Hts & _).
    destruct (topic_available _ _ _) as [[|] s2]; simpl in Hta, Hts.
    + destruct (is_no_error subscribe) eqn:Hsub; [|discriminate].
      intros _ _. split; [apply is_no_error_true, Hsub|].
      exists poll. split; [left; reflexivity|]. rewrite <- Hct. apply Hta. reflexivity.
    + intros Hw Hav1.
      destruct (IH _ Hw Hav1) as (Hsub & poll' & Hin & Hl).
      split; [exact Hsub|]. exists poll'. split; [right; exact Hin|].
      revert Hl. destruct s2; simpl in *. congruence.
Qed.

Lemma wait_for_topic_waits subscribe polls (s : St) :
  bsms_available s = true ->
  Forall (unlisted (consumed_topic s)) polls ->
  (wait_for_topic subscribe polls s).1 = None.
Proof.
  intros Hav Hpolls. revert s Hav Hpolls.
  induction polls as [|poll rest IH]; intros s Hav Hpolls; simpl; rewrite Hav; [reflexivity|].
  inversion Hpolls as [|? ? [Hsig Hun] Hrest]; subst.
  rewrite Hsig. simpl.
  pose proof (topic_available_true (consumed_topic s) (poll_metadata poll) s) as Hta.
  pose proof (topic_available_settings (consumed_topic s) (poll_metadata poll) s)
    as (Hts & Hta2 & _).
  destruct (topic_available _ _ _) as [[|] s2]; simpl in Hta, Hts, Hta2.
  - exfalso. destruct (proj1 Hta eq_refl) as [He Hin]. destruct Hun; auto.
  - apply IH.
    + destruct s2; simpl in *. congruence.
    + destruct s2; simpl in *. rewrite Hts. exact Hrest.
Qed.

(** X8. What a launch of the consumer has done.  A launch that
    returns true with [bsms_available] still up has subscribed: the
    subscription was accepted, and one of the metadata answers was
    retrieved without error and lists the consumed topic.  (With the
    flag down the launch returns true without a subscription.)  A
    launch that returns false ends with a critical record.  And as
    long as no answer lists the topic and no signal comes, a launch
    that has its consumer does not return: it polls again. *)
Theorem launch_consumer_subscribes (env : ConsumerLaunch) (s : St) :
  (forall s1, launch_consumer env s = (Some true, s1) -> bsms_available s1 = true ->
     cl_subscribe env = ERR_NO_ERROR /\
     is_Some (consumer s1) /\
     exists poll, In poll (cl_polls env) /\ listed (consumed_topic s) poll) /\
  (forall s1, launch_consumer env s = (Some false, s1) -> last_level critical s1) /\
  (cl_signal env = false -> bsms_available s = true ->
   is_Some (consumer s) \/ (exists name, cl_create env = inl name) ->
   Forall (unlisted (consumed_topic s)) (cl_polls env) ->
   (launch_consumer env s).1 = None).
Proof.
  split; [|split].
  - intros s1 Hl Hav.
    assert (Hboth : cl_subscribe env = ERR_NO_ERROR /\
                    exists poll, In poll (cl_polls env) /\ listed (consumed_topic s) poll).
    { revert Hl. unfold launch_consumer.
      assert (Hw : forall s0 : St, consumed_topic s0 = consumed_topic s ->
                match wait_for_topic (cl_subscribe env) (cl_polls env) s0 with
                | (Some true, s2) =>
                    (Some true, logmsg info ("Consumer: " ++ default "" (consumer s2)
                       ++ " created using topic: " ++ consumed_topic s2 ++ ".") s2)
                | r => r
                end = (Some true, s1) ->
                cl_subscribe env = ERR_NO_ERROR /\
                exists poll, In poll (cl_polls env) /\ listed (consumed_topic s) poll).
      { intros s0 Hct0. destruct (wait_for_topic _ _ s0) as [[[|]|] s2] eqn:Hw; intros [= <-].
        rewrite <- Hct0. apply (wait_for_topic_subscribed _ _ _ _ Hw).
        destruct s2; exact Hav. }
      assert (Hct : consumed_topic (deliver (cl_signal env) s) = consumed_topic s).
      { destruct (cl_signal env), s; reflexivity. }
      destruct (consumer _) eqn:Hc.
      - apply Hw, Hct.
      - destruct (cl_create env); [|discriminate].
        apply Hw. rewrite <- Hct. destruct (deliver (cl_signal env) s); reflexivity. }
    destruct Hboth as [Hsub Hpoll].
    split; [exact Hsub | split; [eapply launch_consumer_true; exact Hl | exact Hpoll]].
  - intros s1. unfold launch_consumer.
    assert (Hw : forall s0 : St,
              wait_for_topic (cl_subscribe env) (cl_polls env) s0 = (Some false, s1) ->
              last_level critical s1).
    { generalize (cl_polls env). intros polls. induction polls as [|poll rest IH]; intros s0; simpl.
      - destruct (bsms_available s0); discriminate.
      - destruct (bsms_available s0); [|discriminate].
        destruct (topic_available _ _ _) as [[|] s2].
        + destruct (is_no_error _); [discriminate|]. intros [= <-]. apply last_level_logmsg.
        + apply IH. }
    destruct (consumer _).
    + destruct (wait_for_topic _ _ _) as [[[|]|] s2] eqn:Heq; try discriminate.
      intros [= <-]. eapply Hw, Heq.
    + destruct (cl_create env).
      * destruct (wait_for_topic _ _ _) as [[[|]|] s2] eqn:Heq; try discriminate.
        intros [= <-]. eapply Hw, Heq.
      * intros [= <-]. apply last_level_logmsg.
  - intros Hsig Hav Hcons Hpolls. unfold launch_consumer. rewrite Hsig. simpl.
    assert (Hw : forall s0 : St, bsms_available s0 = true -> consumed_topic s0 = consumed_topic s ->
              (match wait_for_topic (cl_subscribe env) (cl_polls env) s0 with
               | (Some true, s2) =>
                   (Some true, logmsg info ("Consumer: " ++ default "" (consumer s2)
                      ++ " created using topic: " ++ consumed_topic s2 ++ ".") s2)
               | r => r
               end).1 = None).
    { intros s0 Hav0 Hct0.
      pose proof (wait_for_topic_waits (cl_subscribe env) (cl_polls env) s0 Hav0) as Hnone.
      rewrite Hct0 in Hnone. specialize (Hnone Hpolls).
      destruct (wait_for_topic _ _ s0) as [[[|]|] s2]; simpl in *; congruence. }
    destruct (consumer s) eqn:Hc.
    + apply Hw; auto.
    + destruct Hcons as [[? ?] | [name Hname]]; [discriminate|]. rewrite Hname.
      apply Hw; destruct s; simpl in *; auto.
Qed.

(** X9. What a launch of the producer has done.  It returns true
    exactly when it has a producer (the one it held, or one that
    [Producer::create] gives) and [Topic::create] gives a handle; the
    object then holds both.  A false launch ends with a critical
    record and calls nothing else; a failed [Topic::create] drops the
    handle of an earlier launch, while the producer stays for the next
    one.  No launch writes the counters, the flags or the consumer. *)
Theorem launch_producer_result (env : ProducerLaunch) (s : St) :
  ((launch_producer env s).1 = true <->
   (is_Some (producer s) \/ exists name, pl_create env = inl name) /\ pl_topic env = None) /\
  ((launch_producer env s).1 = true ->
   is_Some (producer (launch_producer env s).2) /\
   filtered_topic (launch_producer env s).2 = true) /\
  ((launch_producer env s).1 = false ->
   last_level critical (launch_producer env s).2 /\
   (is_Some (pl_topic env) ->
    (is_Some (producer s) \/ exists name, pl_create env = inl name) ->
    filtered_topic (launch_producer env s).2 = false /\
    is_Some (producer (launch_producer env s).2))) /\
  tally (launch_producer env s).2 = tally s /\
  flags (launch_producer env s).2 = flags s /\
  consumer (launch_producer env s).2 = consumer s.
Proof.
  unfold launch_producer, last_level.
  destruct (producer s) as [name|] eqn:Hheld; [|destruct (pl_create env) as [name|text]];
    destruct s; simpl in Hheld; subst;
    destruct (pl_topic env) as [text'|]; simpl;
    repeat match goal with
           | |- _ /\ _ => split
           | |- _ <-> _ => split
           | |- _ -> _ => intro
           | H : _ /\ _ |- _ => destruct H
           | H : is_Some None |- _ => destruct H; discriminate
           | H : _ \/ _ |- _ => destruct H
           | H : exists _, _ |- _ => destruct H
           | |- is_Some (Some _) => eexists; reflexivity
           | |- exists t, last _ = _ => eexists; apply last_snoc
           end;
    try discriminate; try reflexivity; eauto.
Qed.

End Launches.

(** * Further properties of [configure] *)

Section File.

Context {coord entity : Type} `{World coord entity}.

Local Abbreviation St := (PPM coord entity).

(** The setting that a line of the configuration file holds: none for
    a blank line, for a comment and for a line that [split] does not
    cut in two at the equals sign. *)
Definition line_entry (line : string) : option (string * string) :=
  let line := strip line in
  if negb (String.eqb line "") && negb (String.prefix "#" line) then
    match split line "=" with
    | [p0; p1] => Some (strip p0, strip p1)
    | _ => None
    end
  else None.

(** Neither librdkafka configuration takes the setting. *)
Definition refused (key value : string) : bool :=
  negb (conf_accepts CONF_TOPIC key value || conf_accepts CONF_GLOBAL key value).

(** A map after the lines of a file, when it takes the settings that
    [takes] selects. *)
Definition file_map (takes : string -> string -> bool) (lines : list string)
    (m : gmap string string) : gmap string string :=
  foldl (fun m line =>
           match line_entry line with
           | Some (key, value) => if takes key value then <[key := value]> m else m
           | None => m
           end) m lines.

(** All that the file is not read into. *)
Definition beside_file (s : St) :=
  (flags s, tally s, eof_cnt s, partition_cnt s, exit_eof s, info_level s,
   partition s, offset s, consumed_topic s, published_topic s, qptr s,
   consumer_timeout s, consumer s, producer s, filtered_topic s).

Lemma file_map_app takes l1 l2 m :
  file_map takes (l1 ++ l2) m = file_map takes l2 (file_map takes l1 m).
Proof. unfold file_map. apply foldl_app. Qed.

Lemma file_map_origin takes lines m key value :
  file_map takes lines m !! key = Some value ->
  m !! key = Some value \/
  exists line, In line lines /\ line_entry line = Some (key, value) /\ takes key value = true.
Proof.
  revert m. induction lines as [|line rest IH]; intros m; simpl; [auto|].
  intros Hl. apply IH in Hl as [Hl | (l & Hin & He & Ht)]; [|right; eauto].
  destruct (line_entry line) as [[k v]|] eqn:He; [|auto].
  destruct (takes k v) eqn:Ht; [|auto].
  destruct (decide (k = key)) as [->|Hne].
  - rewrite lookup_insert_eq in Hl. injection Hl as ->. right. eauto.
  - rewrite lookup_insert_ne in Hl by exact Hne. auto.
Qed.

Lemma file_map_untouched takes lines m key :
  (forall line value, In line lines -> line_entry line = Some (key, value) ->
                      takes key value = false) ->
  file_map takes lines m !! key = m !! key.
Proof.
  revert m. induction lines as [|line rest IH]; intros m Hno; simpl; [reflexivity|].
  rewrite IH by (intros l v Hin; apply Hno; right; exact Hin).
  destruct (line_entry line) as [[k v]|] eqn:He; [|reflexivity].
  destruct (takes k v) eqn:Ht; [|reflexivity].
  destruct (decide (k = key)) as [->|Hne].
  - rewrite (Hno line v) in Ht; [discriminate | left; reflexivity | exact He].
  - apply lookup_insert_ne. exact Hne.
Qed.

Lemma file_map_last takes before line after m key value :
  line_entry line = Some (key, value) -> takes key value = true ->
  (forall l v, In l after -> line_entry l = Some (key, v) -> takes key v = false) ->
  file_map takes (before ++ line :: after) m !! key = Some value.
Proof.
  intros He Ht Hafter. rewrite file_map_app. simpl.
  rewrite file_map_untouched by exact Hafter.
  rewrite He, Ht. apply lookup_insert_eq.
Qed.

Lemma conf_set_next scope name value (s s1 : St) ok :
  conf_set scope name value s = Next ok s1 ->
  ok = conf_accepts scope name value /\
  s1 = if ok then match scope with
                  | CONF_GLOBAL => set_conf (<[name := value]> (conf s)) s
                  | CONF_TOPIC => set_tconf (<[name := value]> (tconf s)) s
                  end
       else s.
Proof.
  unfold conf_set. destruct (conf_accepts scope name value).
  - unfold mbind, modify, mret. intros [= <- <-]. auto.
  - intros [= <- <-]. auto.
Qed.

Lemma configure_line_next line (s : St) :
  exists s', configure_line line s = Next tt s' /\
    pconf s' = file_map refused [line] (pconf s) /\
    conf s' = file_map (conf_accepts CONF_GLOBAL) [line] (conf s) /\
    tconf s' = file_map (conf_accepts CONF_TOPIC) [line] (tconf s) /\
    beside_file s' = beside_file s.
Proof.
  unfold configure_line, file_map, line_entry, refused. simpl.
  destruct (String.eqb (strip line) ""); simpl.
  { exists s. repeat split; auto. }
  destruct (String.prefix "#" (strip line)); simpl.
  { exists s. repeat split; auto. }
  destruct (split (strip line) "=") as [|p0 [|p1 [|p2 l]]]; simpl;
    try (eexists; split; [reflexivity|]; destruct s; repeat split; reflexivity).
  unfold mbind, conf_set, when, logm, modify, mret.
  destruct (conf_accepts CONF_TOPIC (strip p0) (strip p1)),
           (conf_accepts CONF_GLOBAL (strip p0) (strip p1)); simpl;
    (eexists; split; [reflexivity|]; destruct s; repeat split; reflexivity).
Qed.

Lemma configure_lines_next lines (s : St) :
  exists s', configure_lines lines s = Next tt s' /\
    pconf s' = file_map refused lines (pconf s) /\
    conf s' = file_map (conf_accepts CONF_GLOBAL) lines (conf s) /\
    tconf s' = file_map (conf_accepts CONF_TOPIC) lines (tconf s) /\
    beside_file s' = beside_file s.
Proof.
  revert s. induction lines as [|line rest IH]; intros s; simpl.
  - exists s. repeat split; reflexivity.
  - destruct (configure_line_next line s) as (s1 & H1 & Hp1 & Hc1 & Ht1 & Hb1).
    destruct (IH s1) as (s2 & H2 & Hp2 & Hc2 & Ht2 & Hb2).
    exists s2. unfold mbind. rewrite H1.
    split; [exact H2|].
    change (file_map ?t (line :: rest) ?m) with (file_map t rest (file_map t [line] m)).
    rewrite Hp2, Hc2, Ht2, Hb2, Hp1, Hc1, Ht1, Hb1. repeat split; reflexivity.
Qed.

Lemma configure_log_level_next cli (s : St) :
  exists s', configure_log_level cli s = Next tt s' /\
    s' = set_log (log s') (set_info_level (info_level s') s).
Proof.
  unfold configure_log_level, when, logm, modify, mret.
  destruct (optIsSet cli "v"); [|exists s; split; [reflexivity | destruct s; reflexivity]].
  cbv zeta.
  repeat match goal with
         | |- context [if String.eqb ?a ?b then _ else _] => destruct (String.eqb a b)
         end;
    (eexists; split; [reflexivity | destruct s; reflexivity]).
Qed.

(** The settings that [configure] resolves after it has read the
    file. *)
Definition resolved (s : St) :=
  (pconf s, qptr s, partition s, offset s, consumed_topic s, published_topic s,
   exit_eof s, consumer_timeout s).

(** X10. The configuration file is mandatory.  Without option [c],
    or when the file it names cannot be opened, [configure] returns
    false with an error record last in the log: whatever the other
    options say, none of them but [v] is looked at.  By then the log
    level has been set as option [v] says and the two librdkafka
    configurations have been replaced by fresh ones; apart from these
    three and the log, the object is as it was: no other setting, no
    counter, no flag and no handle is written.  [operator()] returns
    [EXIT_FAILURE] without going into the bootstrap loop. *)
Theorem configuration_file_is_mandatory (cli : CommandLine) (gens : list Generation) (s : St) :
  optIsSet cli "c" = false \/ config_file (optString cli "c") = None ->
  exists s',
    configure cli s = Returned false s' /\
    last_level err s' /\
    resolved s' = resolved s /\ tally s' = tally s /\ flags s' = flags s /\
    conf s' = ∅ /\ tconf s' = ∅ /\
    info_level s' = info_level (result_state (configure_log_level cli s)) /\
    s' = set_log (log s') (set_info_level (info_level s') (set_tconf ∅ (set_conf ∅ s))) /\
    run cli gens s =
    {| exit_status := Some EXIT_FAILURE; entered_bootstrap := false; final := s' |}.
Proof.
  intros Hfile.
  destruct (configure_log_level_next cli s) as (s1 & Hl & Hs1).
  assert (Hc : exists s',
             configure cli s = Returned false s' /\
             last_level err s' /\
             resolved s' = resolved s /\ tally s' = tally s /\ flags s' = flags s /\
             conf s' = ∅ /\ tconf s' = ∅ /\
             info_level s' = info_level s1 /\
             s' = set_log (log s') (set_info_level (info_level s') (set_tconf ∅ (set_conf ∅ s)))).
  { unfold configure, call, configure_body, configure_read, mbind at 1 2 3 4.
    rewrite Hl. unfold logm, modify at 1 2. unfold configure_file.
    destruct (optIsSet cli "c") eqn:Hc; simpl.
    - destruct Hfile as [|Hnone]; [discriminate|]. rewrite Hnone.
      unfold mbind, logm, modify, return_. simpl.
      eexists. split; [reflexivity|]. rewrite Hs1.
      split; [eexists; destruct s; simpl; apply last_snoc|].
      destruct s; repeat split; reflexivity.
    - unfold mbind, logm, modify, return_. simpl.
      eexists. split; [reflexivity|]. rewrite Hs1.
      split; [eexists; destruct s; simpl; apply last_snoc|].
      destruct s; repeat split; reflexivity. }
  destruct Hc as (s' & Hc & Hlast & Hres & Ht & Hf & Hconf & Htconf & Hlevel & Hframe).
  exists s'. rewrite Hl. simpl.
  repeat (split; [assumption|]).
  unfold run. rewrite Hc. reflexivity.
Qed.

(** The three ways [configure_read] can end. *)
Lemma configure_read_cases (cli : CommandLine) (s : St) :
  match configure_read cli s with
  | Next _ s0 =>
      optIsSet cli "c" = true /\
      exists lines,
        config_file (optString cli "c") = Some lines /\
        pconf s0 = file_map refused lines (pconf s) /\
        conf s0 = file_map (conf_accepts CONF_GLOBAL) lines ∅ /\
        tconf s0 = file_map (conf_accepts CONF_TOPIC) lines ∅ /\
        (flags s0, tally s0, eof_cnt s0, partition_cnt s0, exit_eof s0,
         partition s0, offset s0, consumed_topic s0, published_topic s0, qptr s0,
         consumer_timeout s0, consumer s0, producer s0, filtered_topic s0) =
        (flags s, tally s, eof_cnt s, partition_cnt s, exit_eof s,
         partition s, offset s, consumed_topic s, published_topic s, qptr s,
         consumer_timeout s, consumer s, producer s, filtered_topic s)
  | Ret b s' =>
      b = false /\ last_level err s' /\
      (optIsSet cli "c" = false \/ config_file (optString cli "c") = None)
  | Exn _ => False
  end.
Proof.
  unfold configure_read.
  destruct (configure_log_level_next cli s) as (s1 & Hl & Hs1).
  unfold mbind at 1. rewrite Hl.
  unfold mbind at 1 2, logm, modify at 1 2.
  unfold configure_file.
  destruct (optIsSet cli "c") eqn:Hc; simpl.
  - unfold mbind at 1, logm, modify at 1.
    destruct (config_file (optString cli "c")) as [lines|] eqn:Hfile.
    + match goal with |- context [configure_lines lines ?st] =>
        destruct (configure_lines_next lines st) as (s2 & H2 & Hp & Hcf & Htc & Hb) end.
      rewrite H2. split; [reflexivity|].
      exists lines. split; [reflexivity|].
      split; [rewrite Hp, Hs1; destruct s; reflexivity|].
      split; [rewrite Hcf, Hs1; destruct s; reflexivity|].
      split; [rewrite Htc, Hs1; destruct s; reflexivity|].
      unfold beside_file in Hb. rewrite Hs1 in Hb. destruct s.
      unfold flags, tally in *. simpl in *. congruence.
    + unfold mbind, logm, modify, return_.
      split; [reflexivity|]. split; [|right; reflexivity].
      eexists. rewrite Hs1. destruct s; simpl. apply last_snoc.
  - unfold mbind, logm, modify, return_.
    split; [reflexivity|]. split; [|left; reflexivity].
    eexists. rewrite Hs1. destruct s; simpl. apply last_snoc.
Qed.

(** X11. How the configuration file is read.  Reading never throws,
    and it returns early, with false and an error record last, only
    when option [c] is not set or the file it names cannot be opened:
    with the option and a file that opens, whatever its lines,
    [configure_read] goes on.  Each line that holds a setting is
    offered to the topic configuration and to the global configuration
    of librdkafka, and goes to [pconf] exactly when both refuse it; so
    the three maps are the fold of the lines, the Kafka ones from
    empty, [pconf] from what it held.  Hence an entry of [pconf] that
    was not there before comes from a line of the file, and among the
    refused lines for one key the last one counts.  Nothing else but
    the log and the log level is written. *)
Theorem file_is_read_line_by_line (cli : CommandLine) (s : St) :
  match configure_read cli s with
  | Next _ _ => True
  | Ret b s' =>
      b = false /\ last_level err s' /\
      (optIsSet cli "c" = false \/ config_file (optString cli "c") = None)
  | Exn _ => False
  end /\
  (forall lines, optIsSet cli "c" = true -> config_file (optString cli "c") = Some lines ->
     exists s0, configure_read cli s = Next tt s0) /\
  (forall s0, configure_read cli s = Next tt s0 ->
   optIsSet cli "c" = true /\
   exists lines,
     config_file (optString cli "c") = Some lines /\
     pconf s0 = file_map refused lines (pconf s) /\
     conf s0 = file_map (conf_accepts CONF_GLOBAL) lines ∅ /\
     tconf s0 = file_map (conf_accepts CONF_TOPIC) lines ∅ /\
     (forall key value, pconf s0 !! key = Some value ->
        pconf s !! key = Some value \/
        exists line, In line lines /\ line_entry line = Some (key, value) /\
                     refused key value = true) /\
     (forall before line after key value,
        lines = (before ++ line :: after)%list ->
        line_entry line = Some (key, value) -> refused key value = true ->
        (forall l v, In l after -> line_entry l = Some (key, v) -> refused key v = false) ->
        pconf s0 !! key = Some value) /\
     (flags s0, tally s0, eof_cnt s0, partition_cnt s0, exit_eof s0,
      partition s0, offset s0, consumed_topic s0, published_topic s0, qptr s0,
      consumer_timeout s0, consumer s0, producer s0, filtered_topic s0) =
     (flags s, tally s, eof_cnt s, partition_cnt s, exit_eof s,
      partition s, offset s, consumed_topic s, published_topic s, qptr s,
      consumer_timeout s, consumer s, producer s, filtered_topic s)).
Proof.
  pose proof (configure_read_cases cli s) as Hcases.
  split; [|split].
  - destruct (configure_read cli s); [exact I | exact Hcases | exact Hcases].
  - intros lines Hc Hfile.
    destruct (configure_read cli s) as [[] s0 | b s' | s'].
    + exists s0. reflexivity.
    + destruct Hcases as (_ & _ & [Hno | Hno]); congruence.
    + contradiction.
  - intros s0 Hr. rewrite Hr in Hcases.
    destruct Hcases as (Hc & lines & Hfile & Hpconf & Hconf & Htconf & Hframe).
    split; [exact Hc|]. exists lines.
    split; [exact Hfile|]. split; [exact Hpconf|].
    split; [exact Hconf|]. split; [exact Htconf|].
    split; [intros key value; rewrite Hpconf; apply file_map_origin|].
    split; [|exact Hframe].
    intros before line after key value -> He Href Hafter. rewrite Hpconf.
    apply file_map_last; assumption.
Qed.

End File.

(** The state after a step of [configure_settings] that went on keeps
    the projection [f], when the setters of the step keep it. *)
Ltac kept_with f Hstep lemma :=
  apply (respects_next (keeps f) _ _ _ _ ltac:(apply lemma; keeps_tac) Hstep).

Ltac kept f Hstep :=
  match type of Hstep with
  | _ ?s = Next _ ?s' =>
      let E := fresh "Hkept" in
      assert (E : f s' = f s)
        by first [ kept_with f Hstep configure_geofence_respects
                 | kept_with f Hstep configure_broker_respects
                 | kept_with f Hstep configure_partition_respects
                 | kept_with f Hstep configure_confluent_respects
                 | kept_with f Hstep configure_option_respects
                 | kept_with f Hstep configure_offset_respects
                 | kept_with f Hstep configure_consumed_topic_respects
                 | kept_with f Hstep configure_published_topic_respects
                 | kept_with f Hstep configure_timeout_respects
                 | kept_with f Hstep configure_read_respects ];
      try rewrite E in *
  end.

Section Settings.

Context {coord entity : Type} `{World coord entity}.

Local Abbreviation St := (PPM coord entity).

(** *** The geofence *)

Definition corner_keys : list string :=
  [ "privacy.filter.geofence.sw.lat"; "privacy.filter.geofence.sw.lon";
    "privacy.filter.geofence.ne.lat"; "privacy.filter.geofence.ne.lon" ].

(** The coordinate that the file gives for a corner key. *)
Definition corner (s : St) (key : string) : option coord := pconf s !! key ≫= stod.

(** The file gives a corner key a value that [stod] does not read. *)
Definition bad_corner (s : St) (key : string) : Prop :=
  exists v, pconf s !! key = Some v /\ stod v = None.

Lemma geofence_coord_cases key (s : St) :
  match geofence_coord key s with
  | Next c s' => s' = s /\ c = corner s key /\ ~ bad_corner s key
  | Ret _ _ => False
  | Exn s' => s' = s /\ bad_corner s key
  end.
Proof.
  unfold geofence_coord, corner, bad_corner, mbind, find, gets.
  destruct (pconf s !! key) as [v|] eqn:Hk; simpl.
  - destruct (stod v) eqn:Hv; simpl.
    + repeat split; auto. intros (v' & [= <-] & Hv'). congruence.
    + split; eauto.
  - repeat split; auto. intros (v' & Hv' & _). discriminate.
Qed.

Lemma BuildGeofence_cases (mapfile : string) (s : St) :
  match BuildGeofence mapfile s with
  | Next q s' =>
      Forall (fun key => ~ bad_corner s key) corner_keys /\
      (exists circles edges grids,
         make_shapes mapfile = Some (circles, edges, grids) /\
         q = {| sw_lat := corner s "privacy.filter.geofence.sw.lat";
                sw_lon := corner s "privacy.filter.geofence.sw.lon";
                ne_lat := corner s "privacy.filter.geofence.ne.lat";
                ne_lon := corner s "privacy.filter.geofence.ne.lon";
                entities := (circles ++ edges ++ grids)%list |}) /\
      s' = logmsg trace "Completed BuildGeofence." (logmsg trace "Starting BuildGeofence." s)
  | Ret _ _ => False
  | Exn s' =>
      (Exists (bad_corner s) corner_keys \/ make_shapes mapfile = None) /\
      s' = logmsg trace "Starting BuildGeofence." s
  end.
Proof.
  unfold BuildGeofence, corner_keys.
  unfold mbind at 1, logm, modify at 1.
  assert (Hp : pconf (logmsg trace "Starting BuildGeofence." s) = pconf s)
    by (destruct s; reflexivity).
  set (s1 := logmsg trace "Starting BuildGeofence." s) in *.
  assert (Hbad : forall key, bad_corner s1 key -> bad_corner s key)
    by (intros key; unfold bad_corner; rewrite Hp; auto).
  assert (Hgood : forall key, ~ bad_corner s1 key -> ~ bad_corner s key)
    by (intros key; unfold bad_corner; rewrite Hp; auto).
  assert (Hcorner : forall key, corner s1 key = corner s key)
    by (intros key; unfold corner; rewrite Hp; reflexivity).
  unfold mbind at 1.
  pose proof (geofence_coord_cases "privacy.filter.geofence.sw.lat" s1) as H1.
  destruct (geofence_coord "privacy.filter.geofence.sw.lat" s1) as [c1 s2| |s2];
    [destruct H1 as (-> & -> & Hn1) | contradiction
    | destruct H1 as (-> & Hb1); split; [left; apply Exists_cons_hd; auto | reflexivity]].
  unfold mbind at 1.
  pose proof (geofence_coord_cases "privacy.filter.geofence.sw.lon" s1) as H2.
  destruct (geofence_coord "privacy.filter.geofence.sw.lon" s1) as [c2 s2| |s2];
    [destruct H2 as (-> & -> & Hn2) | contradiction
    | destruct H2 as (-> & Hb2); split;
      [left; apply Exists_cons_tl, Exists_cons_hd; auto | reflexivity]].
  unfold mbind at 1.
  pose proof (geofence_coord_cases "privacy.filter.geofence.ne.lat" s1) as H3.
  destruct (geofence_coord "privacy.filter.geofence.ne.lat" s1) as [c3 s2| |s2];
    [destruct H3 as (-> & -> & Hn3) | contradiction
    | destruct H3 as (-> & Hb3); split;
      [left; do 2 apply Exists_cons_tl; apply Exists_cons_hd; auto | reflexivity]].
  unfold mbind at 1.
  pose proof (geofence_coord_cases "privacy.filter.geofence.ne.lon" s1) as H4.
  destruct (geofence_coord "privacy.filter.geofence.ne.lon" s1) as [c4 s2| |s2];
    [destruct H4 as (-> & -> & Hn4) | contradiction
    | destruct H4 as (-> & Hb4); split;
      [left; do 3 apply Exists_cons_tl; apply Exists_cons_hd; auto | reflexivity]].
  destruct (make_shapes mapfile) as [[[circles edges] grids]|]; simpl.
  - split; [|split; [|reflexivity]].
    + repeat constructor; auto.
    + exists circles, edges, grids. split; [reflexivity|].
      rewrite !Hcorner. reflexivity.
  - split; [right; reflexivity | reflexivity].
Qed.

Lemma configure_mapfile_next cli (s s1 : St) mapfile :
  configure_mapfile cli s = Next mapfile s1 ->
  s1 = s /\
  if optIsSet cli "m" then mapfile = optString cli "m"
  else pconf s !! "privacy.filter.geofence.mapfile" = Some mapfile.
Proof.
  unfold configure_mapfile. destruct (optIsSet cli "m").
  - intros [= <- <-]. auto.
  - unfold mbind, find, gets.
    destruct (pconf s !! "privacy.filter.geofence.mapfile"); [|discriminate].
    intros [= <- <-]. auto.
Qed.

(** X12. When the geofence cannot be built.  [BuildGeofence] throws
    exactly when the file gives one of the four corner keys a value
    that [stod] does not read, or the shapes of the map file cannot be
    made; it never returns from [configure] by itself.  A corner whose
    key the file does not give is no error: the coordinate is left as
    the point was constructed.  The quad of a build that went through
    holds the circles, then the edges, then the grids.  When the build
    throws inside [configure], the quad of the object is left as it
    was and [operator()] returns [EXIT_FAILURE] without going into the
    bootstrap loop. *)
Theorem geofence_build (mapfile : string) (s : St) :
  match BuildGeofence mapfile s with
  | Next q s' =>
      Forall (fun key => ~ bad_corner s key) corner_keys /\
      (exists circles edges grids,
         make_shapes mapfile = Some (circles, edges, grids) /\
         q = {| sw_lat := corner s "privacy.filter.geofence.sw.lat";
                sw_lon := corner s "privacy.filter.geofence.sw.lon";
                ne_lat := corner s "privacy.filter.geofence.ne.lat";
                ne_lon := corner s "privacy.filter.geofence.ne.lon";
                entities := (circles ++ edges ++ grids)%list |}) /\
      s' = logmsg trace "Completed BuildGeofence." (logmsg trace "Starting BuildGeofence." s)
  | Ret _ _ => False
  | Exn s' =>
      (Exists (bad_corner s) corner_keys \/ make_shapes mapfile = None) /\
      s' = logmsg trace "Starting BuildGeofence." s
  end /\
  (forall (cli : CommandLine) (gens : list Generation) (s0 s1 : St),
     configure_read cli s0 = Next tt s ->
     configure_mapfile cli s = Next mapfile s1 ->
     Exists (bad_corner s) corner_keys \/ make_shapes mapfile = None ->
     exists s',
       configure cli s0 = Thrown s' /\ qptr s' = qptr s0 /\
       run cli gens s0 =
       {| exit_status := Some EXIT_FAILURE; entered_bootstrap := false; final := s' |}).
Proof.
  split; [apply BuildGeofence_cases|].
  intros cli gens s0 s1 Hr Hm Hbad.
  destruct (configure_mapfile_next _ _ _ _ Hm) as [-> _].
  set (s2 := logmsg info ("ppm mapfile: " ++ mapfile) s).
  assert (Hp : pconf s2 = pconf s) by (destruct s; reflexivity).
  assert (Hthrow : BuildGeofence mapfile s2 = Exn (logmsg trace "Starting BuildGeofence." s2)).
  { pose proof (BuildGeofence_cases mapfile s2) as Hc.
    destruct (BuildGeofence mapfile s2) as [q s3 | b s3 | s3].
    - exfalso. destruct Hc as (Hgood & (c & e & g & Hsh & _) & _).
      destruct Hbad as [Hbad | Hnone]; [|congruence].
      apply Exists_exists in Hbad as (key & Hin & Hb).
      rewrite Forall_forall in Hgood. apply (Hgood key Hin).
      unfold bad_corner. rewrite Hp. exact Hb.
    - contradiction.
    - destruct Hc as [_ ->]. reflexivity. }
  assert (Hc : configure cli s0 = Thrown (logmsg trace "Starting BuildGeofence." s2)).
  { unfold configure, call, configure_body, mbind at 1. rewrite Hr.
    unfold configure_settings, mbind at 1, configure_geofence, mbind at 1.
    rewrite Hm. unfold mbind at 1, logm, modify at 1. fold s2.
    unfold mbind at 1. rewrite Hthrow. reflexivity. }
  exists (logmsg trace "Starting BuildGeofence." s2).
  split; [exact Hc|]. split.
  - transitivity (qptr s); [unfold s2; destruct s; reflexivity|].
    apply (respects_next (keeps qptr) _ _ _ _
             ltac:(apply configure_read_respects; keeps_tac) Hr).
  - unfold run. rewrite Hc. reflexivity.
Qed.

(** *** The offset and the consumer timeout *)

Lemma strtoll_bounds (o : string) : LLONG_MIN <= strtoll o <= LLONG_MAX.
Proof.
  unfold strtoll, LLONG_MIN, LLONG_MAX. destruct (parse_integer o); lia.
Qed.

Lemma configure_offset_next cli (s s1 : St) :
  configure_offset cli s = Next tt s1 ->
  offset s1 =
  if optIsSet cli "o" then
    let o := optString cli "o" in
    if String.eqb o "end" then OFFSET_END
    else if String.eqb o "beginning" then OFFSET_BEGINNING
    else if String.eqb o "stored" then OFFSET_STORED
    else strtoll o
  else offset s.
Proof.
  unfold configure_offset, when. destruct (optIsSet cli "o").
  - unfold mbind, modify, logm. intros [= <-]. destruct s; reflexivity.
  - intros [= <-]. reflexivity.
Qed.

(** X13. The offset.  No text for the offset makes [configure]
    fail: the step always goes on, writing only the offset and one
    information record.  After a [configure] that returned true the
    offset is the one the object had when option [o] is not set.
    With the option, the three words [end], [beginning] and [stored]
    give the three constants of librdkafka; any other text goes
    through [strtoll], so the offset is within the 64-bit range, the
    number the text starts with when that fits, and zero when the text
    does not start with a number. *)
Theorem offset_resolution (cli : CommandLine) (s : St) :
  (exists s1,
     configure_offset cli s = Next tt s1 /\
     s1 = set_log (log s1) (set_offset (offset s1) s) /\
     (optIsSet cli "o" = false -> s1 = s)) /\
  (forall s', configure cli s = Returned true s' ->
   (optIsSet cli "o" = false -> offset s' = offset s) /\
   (optIsSet cli "o" = true ->
    (optString cli "o" = "end" -> offset s' = OFFSET_END) /\
    (optString cli "o" = "beginning" -> offset s' = OFFSET_BEGINNING) /\
    (optString cli "o" = "stored" -> offset s' = OFFSET_STORED) /\
    (optString cli "o" <> "end" -> optString cli "o" <> "beginning" ->
     optString cli "o" <> "stored" ->
     LLONG_MIN <= offset s' <= LLONG_MAX /\
     (parse_integer (optString cli "o") = None -> offset s' = 0) /\
     (forall v, parse_integer (optString cli "o") = Some v ->
                LLONG_MIN <= v <= LLONG_MAX -> offset s' = v)))).
Proof.
  split.
  { unfold configure_offset, when. destruct (optIsSet cli "o").
    - unfold mbind, modify, logm. eexists. split; [reflexivity|].
      split; [destruct s; reflexivity | discriminate].
    - exists s. split; [reflexivity|]. split; [destruct s; reflexivity | reflexivity]. }
  intros s' Hc. apply configure_true in Hc as (s0 & Hr & Hs).
  apply configure_settings_next in Hs
    as (_ & s1 & s2 & s3 & s4 & s5 & s6 & s8 & s9 & s10 & s11 &
        H1 & H2 & H3 & H4 & H5 & H6 & H8 & H9 & H10 & H11 & ->).
  assert (Hafter : offset (logmsg trace "ending configure()" s11) = offset s6).
  { transitivity (offset s11); [destruct s11; reflexivity|].
    kept (@offset coord entity) H11. kept (@offset coord entity) H10.
    kept (@offset coord entity) H9. kept (@offset coord entity) H8.
    destruct s6; reflexivity. }
  assert (Hbefore : offset s5 = offset s).
  { kept (@offset coord entity) H5. kept (@offset coord entity) H4.
    kept (@offset coord entity) H3. kept (@offset coord entity) H2.
    kept (@offset coord entity) H1. kept (@offset coord entity) Hr. reflexivity. }
  apply configure_offset_next in H6. rewrite Hafter, H6, Hbefore.
  split; [intros ->; reflexivity|]. intros ->. cbv zeta.
  split; [intros ->; reflexivity|].
  split; [intros ->; reflexivity|].
  split; [intros ->; reflexivity|].
  intros Hne Hnb Hns.
  destruct (String.eqb_spec (optString cli "o") "end"); [contradiction|].
  destruct (String.eqb_spec (optString cli "o") "beginning"); [contradiction|].
  destruct (String.eqb_spec (optString cli "o") "stored"); [contradiction|].
  split; [apply strtoll_bounds|].
  unfold strtoll. split.
  - intros ->. reflexivity.
  - intros v -> Hv. lia.
Qed.

Lemma configure_timeout_next (s s1 : St) :
  configure_timeout s = Next tt s1 ->
  consumer_timeout s1 =
  match pconf s !! "privacy.consumer.timeout.ms" ≫= stoi with
  | Some n => n
  | None => consumer_timeout s
  end.
Proof.
  unfold configure_timeout, mbind, find, gets.
  destruct (pconf s !! "privacy.consumer.timeout.ms") as [v|]; simpl.
  - destruct (stoi v); unfold modify, logm, modify; intros [= <-]; destruct s; reflexivity.
  - intros [= <-]. reflexivity.
Qed.

(** The file settings stay as read through the settings part of
    [configure]. *)
Lemma configure_settings_pconf cli (s s' : St) b :
  configure_settings cli s = Next b s' -> pconf s' = pconf s.
Proof.
  apply (respects_next (keeps pconf)). apply configure_settings_respects; keeps_tac.
Qed.

(** X14. The consumer timeout.  The step that reads it never makes
    [configure] fail: a value that [stoi] does not read, which for the
    partition is an exception, here only leaves an information record
    and the timeout the object had.  After a [configure] that returned
    true the timeout is the number of the file's key when the file has
    the key and [stoi] reads its value as an [int], and otherwise the
    one the object had. *)
Theorem timeout_fallback (cli : CommandLine) (s : St) :
  (exists s1, configure_timeout s = Next tt s1 /\
     (forall v, pconf s !! "privacy.consumer.timeout.ms" = Some v -> stoi v = None ->
        s1 = logmsg info "using the default consumer timeout value." s)) /\
  (forall s', configure cli s = Returned true s' ->
     consumer_timeout s' =
     match pconf (result_state (configure_read cli s)) !! "privacy.consumer.timeout.ms"
           ≫= stoi with
     | Some n => n
     | None => consumer_timeout s
     end /\
     (forall v, pconf (result_state (configure_read cli s)) !! "privacy.consumer.timeout.ms"
                = Some v -> stoi v <> None -> INT_MIN <= consumer_timeout s' <= INT_MAX)).
Proof.
  split.
  - unfold configure_timeout, mbind, find, gets.
    destruct (pconf s !! "privacy.consumer.timeout.ms") as [v|]; simpl.
    + destruct (stoi v) eqn:Hv; unfold logm, modify; eexists; (split; [reflexivity|]).
      * intros v' [= <-]. congruence.
      * intros v' [= <-] _. reflexivity.
    + eexists. split; [reflexivity|]. discriminate.
  - intros s' Hc. apply configure_true in Hc as (s0 & Hr & Hs). rewrite Hr. simpl.
    pose proof (configure_settings_pconf _ _ _ _ Hs) as Hpconf.
    apply configure_settings_next in Hs
      as (_ & s1 & s2 & s3 & s4 & s5 & s6 & s8 & s9 & s10 & s11 &
          H1 & H2 & H3 & H4 & H5 & H6 & H8 & H9 & H10 & H11 & ->).
    assert (Hp10 : pconf s10 = pconf s0).
    { rewrite <- Hpconf. transitivity (pconf s11); [|destruct s11; reflexivity].
      symmetry. apply (respects_next (keeps pconf) _ _ _ _
                         ltac:(apply configure_timeout_respects; keeps_tac) H11). }
    assert (Hbefore : consumer_timeout s10 = consumer_timeout s).
    { kept (@consumer_timeout coord entity) H10. kept (@consumer_timeout coord entity) H9.
      kept (@consumer_timeout coord entity) H8.
      transitivity (consumer_timeout s6); [destruct s6; reflexivity|].
      kept (@consumer_timeout coord entity) H6. kept (@consumer_timeout coord entity) H5.
      kept (@consumer_timeout coord entity) H4. kept (@consumer_timeout coord entity) H3.
      kept (@consumer_timeout coord entity) H2. kept (@consumer_timeout coord entity) H1.
      kept (@consumer_timeout coord entity) Hr. reflexivity. }
    apply configure_timeout_next in H11. rewrite Hp10, Hbefore in H11.
    assert (Hlast : consumer_timeout (logmsg trace "ending configure()" s11) =
                    consumer_timeout s11) by (destruct s11; reflexivity).
    rewrite Hlast, H11. split; [reflexivity|].
    intros v Hv Hok. rewrite Hv. simpl.
    unfold stoi in *. destruct (parse_integer v) as [n|]; [|congruence].
    destruct ((INT_MIN <=? n) && (n <=? INT_MAX))%bool eqn:Hb; [|congruence].
    apply andb_true_iff in Hb as [Hlo Hhi]. lia.
Qed.

(** *** The settings that go to librdkafka *)



(** A global configuration after it was offered some settings. *)
Definition offered (settings : list (string * string)) (m : gmap string string) :
    gmap string string :=
  foldl (fun m kv => if conf_accepts CONF_GLOBAL kv.1 kv.2 then <[kv.1 := kv.2]> m else m)
        m settings.




Lemma conf_set_global name value (s : St) :
  exists ok, conf_set CONF_GLOBAL name value s =
             Next ok (set_conf (offered [(name, value)] (conf s)) s).
Proof.
  unfold conf_set, offered. simpl.
  destruct (conf_accepts CONF_GLOBAL name value).
  - exists true. reflexivity.
  - exists false. unfold mret. destruct s; reflexivity.
Qed.


Lemma configure_option_next cli opt name complaint (s s1 : St) :
  configure_option cli opt name complaint s = Next tt s1 ->
  (optIsSet cli opt = true -> conf_accepts CONF_GLOBAL name (optString cli opt) = true) /\
  s1 = if optIsSet cli opt then set_conf (<[name := optString cli opt]> (conf s)) s else s.
Proof.
  unfold configure_option. destruct (optIsSet cli opt).
  - unfold mbind at 1, conf_set.
    destruct (conf_accepts CONF_GLOBAL name (optString cli opt)); simpl.
    + intros [= <-]. auto.
    + discriminate.
  - simpl. intros [= <-]. split; [discriminate | reflexivity].
Qed.


(** X16. Options that librdkafka refuses.  When option [g] is set
    and the global configuration refuses its value as [group.id], or
    option [d] is set and its value is refused as [debug], [configure]
    never returns true, and [operator()] returns [EXIT_FAILURE] without
    going into the bootstrap loop.  The broker list of option [b] is
    different: its answer is not looked at, so a refused list leaves
    the global configuration as it was and [configure] goes on. *)
Theorem refused_options (cli : CommandLine) (gens : list Generation) (s : St) :
  ((optIsSet cli "g" = true /\
    conf_accepts CONF_GLOBAL "group.id" (optString cli "g") = false) \/
   (optIsSet cli "d" = true /\
    conf_accepts CONF_GLOBAL "debug" (optString cli "d") = false) ->
   (forall s', configure cli s <> Returned true s') /\
   exit_status (run cli gens s) = Some EXIT_FAILURE /\
   entered_bootstrap (run cli gens s) = false) /\
  (exists s1,
     configure_broker cli s = Next tt s1 /\
     (conf_accepts CONF_GLOBAL "metadata.broker.list" (optString cli "b") = false ->
      conf s1 = conf s) /\
     (optIsSet cli "b" = true ->
      conf_accepts CONF_GLOBAL "metadata.broker.list" (optString cli "b") = true ->
      conf s1 = <["metadata.broker.list" := optString cli "b"]> (conf s))).
Proof.
  split.
  - intros Hrefused.
    assert (Hnot : forall s', configure cli s <> Returned true s').
    { intros s' Hc. apply configure_true in Hc as (s0 & Hr & Hs).
      apply configure_settings_next in Hs
        as (_ & s1 & s2 & s3 & s4 & s5 & s6 & s8 & s9 & s10 & s11 &
            H1 & H2 & H3 & H4 & H5 & H6 & H8 & H9 & H10 & H11 & ->).
      apply configure_option_next in H5 as [H5 _].
      apply configure_option_next in H8 as [H8 _].
      destruct Hrefused as [[Hset Href] | [Hset Href]];
        [specialize (H5 Hset) | specialize (H8 Hset)]; congruence. }
    split; [exact Hnot|].
    unfold run. destruct (configure cli s) as [[|] s1 | s1] eqn:Hc; simpl; auto.
    exfalso. exact (Hnot s1 eq_refl).
  - unfold configure_broker, when.
    destruct (optIsSet cli "b").
    + unfold mbind at 1, logm, modify.
      destruct (conf_set_global "metadata.broker.list" (optString cli "b")
                  (logmsg info ("setting kafka broker to: " ++ optString cli "b") s))
        as [ok Hok].
      unfold mbind. rewrite Hok. eexists. split; [reflexivity|].
      unfold offered. simpl.
      split; [intros ->; destruct s; reflexivity|].
      intros _ ->. destruct s; reflexivity.
    + exists s. split; [reflexivity|]. split; [reflexivity | discriminate].
Qed.

End Settings.

(** * The two file tests of [make_loggers] *)

Section FileTests.

(** The file type bits of [st_mode], with the values that
    [<sys/stat.h>] gives them on Linux. *)
Definition S_IFMT : Z := 0xF000.
Definition S_IFSOCK : Z := 0xC000.
Definition S_IFLNK : Z := 0xA000.
Definition S_IFREG : Z := 0x8000.
Definition S_IFBLK : Z := 0x6000.
Definition S_IFDIR : Z := 0x4000.
Definition S_IFCHR : Z := 0x2000.
Definition S_IFIFO : Z := 0x1000.

(** [stat] on a path: the [st_mode] of the file, [None] when the call
    does not return zero. *)
Variable stat : string -> option Z.

(** [fileExists]. *)
Definition fileExists (s : string) : bool :=
  match stat s with
  | None => false
  | Some st_mode => if Z.land st_mode S_IFREG =? 0 then false else true
  end.

(** [dirExists]. *)
Definition dirExists (s : string) : bool :=
  match stat s with
  | None => false
  | Some st_mode => if Z.land st_mode S_IFDIR =? 0 then false else true
  end.

(** The seven file types. *)
Definition file_types : list Z :=
  [S_IFSOCK; S_IFLNK; S_IFREG; S_IFBLK; S_IFDIR; S_IFCHR; S_IFIFO].

Lemma land_type_bit (st_mode bit : Z) :
  Z.land S_IFMT bit = bit -> Z.land st_mode bit = Z.land (Z.land st_mode S_IFMT) bit.
Proof. intros Hb. rewrite <- Z.land_assoc, Hb. reflexivity. Qed.

(** X17. The two file tests look at one bit.  Both answer false
    when [stat] fails.  Otherwise [fileExists] tests the mode against
    [S_IFREG] and [dirExists] against [S_IFDIR] with a bitwise and, not
    by comparing the file type: so [fileExists] holds of a regular
    file and also of a socket (and of the mode of a symbolic link),
    and [dirExists] holds of a directory and also of a block device
    and of a socket; neither holds of a character device or a FIFO. *)
Theorem file_tests_read_one_bit (path : string) :
  (stat path = None -> fileExists path = false /\ dirExists path = false) /\
  (forall st_mode, stat path = Some st_mode ->
     In (Z.land st_mode S_IFMT) file_types ->
     (fileExists path = true <-> In (Z.land st_mode S_IFMT) [S_IFREG; S_IFLNK; S_IFSOCK]) /\
     (dirExists path = true <-> In (Z.land st_mode S_IFMT) [S_IFDIR; S_IFBLK; S_IFSOCK])).
Proof.
  unfold fileExists, dirExists. split.
  - intros ->. split; reflexivity.
  - intros st_mode -> Htype.
    rewrite (land_type_bit st_mode S_IFREG) by reflexivity.
    rewrite (land_type_bit st_mode S_IFDIR) by reflexivity.
    unfold file_types in Htype. simpl in Htype.
    repeat match goal with
           | Hor : _ \/ _ |- _ => destruct Hor as [<- | Hor]
           end;
      try contradiction;
      (split; (split;
       [ first [ discriminate | intros _; simpl; tauto ]
       | first [ reflexivity
               | intros Hin; simpl in Hin; exfalso;
                 repeat match goal with
                        | Hor : _ \/ _ |- _ => destruct Hor as [Heq | Hor]; [discriminate Heq|]
                        end; contradiction ] ])).
Qed.

End FileTests.

(** * The log of a run *)

Section Log.

Context {coord entity : Type} `{World coord entity}.

Local Abbreviation St := (PPM coord entity).

(** The log is only added to. *)
Definition log_grows (s s' : St) : Prop := log s `prefix_of` log s'.

Lemma log_grows_same (s s' : St) : log s' = log s -> log_grows s s'.
Proof. unfold log_grows. intros ->. reflexivity. Qed.

Lemma log_grows_trans (s1 s2 s3 : St) : log_grows s1 s2 -> log_grows s2 s3 -> log_grows s1 s3.
Proof. unfold log_grows. intros H12 H23. etransitivity; eassumption. Qed.

Lemma log_grows_logmsg l t (s : St) : log_grows s (logmsg l t s).
Proof. unfold log_grows. destruct s; simpl. apply prefix_app_r. reflexivity. Qed.

Lemma log_grows_iteration it (s : St) : log_grows s (iteration it s).
Proof.
  destruct it as [signal message reply status].
  assert (Htrace : forall s0 : St, log_grows s0 (trace_message message s0)).
  { intros s0. unfold trace_message.
    destruct (ts_type (msg_timestamp message)), (msg_key message);
      repeat (eapply log_grows_trans; [|apply log_grows_logmsg]);
      first [apply log_grows_logmsg | apply log_grows_same; reflexivity]. }
  unfold iteration, produce, msg_consume, deliver, sigterm.
  rewrite trace_message_log_only. unfold log_grows in *.
  destruct s. split_turn; repeat (apply prefix_app_r); try reflexivity;
    match goal with
    | |- context [trace_message _ ?st] => exact (Htrace st)
    end.
Qed.

Lemma log_grows_configure cli (s : St) : log_grows s (outcome_state (configure cli s)).
Proof.
  apply (configure_related cli log_grows).
  - intros s0. apply log_grows_same. reflexivity.
  - apply log_grows_trans.
  - apply log_grows_logmsg.
  - intros v []. apply log_grows_same. reflexivity.
  - intros v []. apply log_grows_same. reflexivity.
  - intros v []. apply log_grows_same. reflexivity.
  - intros v []. apply log_grows_same. reflexivity.
  - intros v []. apply log_grows_same. reflexivity.
  - intros v []. apply log_grows_same. reflexivity.
  - intros v []. apply log_grows_same. reflexivity.
  - intros v []. apply log_grows_same. reflexivity.
  - intros v []. apply log_grows_same. reflexivity.
  - intros v []. apply log_grows_same. reflexivity.
  - intros v []. apply log_grows_same. reflexivity.
Qed.

Lemma log_grows_bootstrap_loop gens (s : St) : log_grows s (bootstrap_loop gens s).2.
Proof.
  apply (through_bootstrap_loop log_grows (fun _ => True)).
  - intros s0. apply log_grows_same. reflexivity.
  - apply log_grows_trans.
  - intros [] [] _; apply log_grows_same; reflexivity.
  - apply log_grows_logmsg.
  - intros name [] _. apply log_grows_same. reflexivity.
  - intros name [] _. apply log_grows_same. reflexivity.
  - intros b []. apply log_grows_same. reflexivity.
  - intros []. apply log_grows_same. reflexivity.
  - intros it s0 _. apply log_grows_iteration.
  - apply Forall_forall. intros g _. unfold generation_allowed, launch_allowed.
    repeat split; auto; apply Forall_forall; auto.
Qed.

Lemma summary_shutdown (s : St) : summary (shutdown s) = summary s.
Proof. destruct s; reflexivity. Qed.

(** X18. The summary closes the log.  A run of [operator()] never
    removes a record from the log.  When it returns [EXIT_SUCCESS], the
    last four records are the summary, and the numbers in it are the
    counters of the object at the return; nothing is logged after it.
    When it returns [EXIT_FAILURE], no counter and no flag has been
    written. *)
Theorem summary_closes_log (cli : CommandLine) (gens : list Generation) (s : St) :
  log s `prefix_of` log (final (run cli gens s)) /\
  (exit_status (run cli gens s) = Some EXIT_SUCCESS ->
   exists before,
     log s `prefix_of` before /\
     log (final (run cli gens s)) = (before ++ summary (final (run cli gens s)))%list) /\
  (exit_status (run cli gens s) = Some EXIT_FAILURE ->
   tally (final (run cli gens s)) = tally s /\ flags (final (run cli gens s)) = flags s).
Proof.
  unfold run.
  pose proof (log_grows_configure cli s) as Hc.
  pose proof (tally_configure cli s) as Ht.
  pose proof (flags_configure cli s) as Hf.
  destruct (configure cli s) as [[|] s0 | s0]; simpl in Hc, Ht, Hf |- *;
    try (split; [exact Hc | split; [discriminate | auto]]).
  unfold serve.
  pose proof (log_grows_bootstrap_loop gens s0) as Hb.
  destruct (bootstrap_loop gens s0) as [[|] s1]; simpl in Hb |- *.
  - assert (Hs1 : log s `prefix_of` log s1) by (eapply log_grows_trans; eassumption).
    split; [|split; [|discriminate]].
    + destruct s1; simpl in *. apply prefix_app_r. exact Hs1.
    + intros _. exists (log s1). split; [exact Hs1|].
      rewrite summary_shutdown. destruct s1; reflexivity.
  - split; [eapply log_grows_trans; eassumption | split; discriminate].
Qed.

End Log.

(** * The further properties on concrete inputs *)

Module Further.

Import Sample.

(** The object after [configure] on the command line
    [ppm -c ppm.properties -x]. *)
Definition configured : PPM unit unit := outcome_state (configure Sample.cli start).

Definition generations : list Generation :=
  [gen false turns; gen false [turn true ERR__TIMED_OUT "" false "" ERR_NO_ERROR]].

(** X2 on the sample run. *)
Lemma produce_calls_accounted_witness :
  accounted start /\
  bsm_send_count (final (run Sample.cli generations start)) =
  accepted_calls (produced (final (run Sample.cli generations start))).
Proof.
  assert (H0 : accounted start) by (split; reflexivity).
  split; [exact H0|].
  exact (proj1 (produce_calls_accounted Sample.cli generations start H0)).
Defined.

(** X3 on the sample run. *)
Lemma loops_keep_configuration_witness :
  produced start = [] /\
  Forall (fun c => call_partition c = partition (final (run Sample.cli generations start)))
         (produced (final (run Sample.cli generations start))).
Proof.
  split; [reflexivity|].
  exact (proj1 (loops_keep_configuration Sample.cli generations start eq_refl)).
Defined.

(** X4 on a run without signal: the five turns end at the end of the
    partition, and the run is still in the bootstrap loop. *)
Lemma no_return_without_signal_witness :
  bootstrap start = true /\ Forall quiet [gen false turns] /\
  exit_status (run Sample.cli [gen false turns] start) = None.
Proof.
  assert (Hq : Forall quiet [gen false turns]).
  { repeat constructor. }
  assert (He : entered_bootstrap (run Sample.cli [gen false turns] start) = true)
    by (vm_compute; reflexivity).
  split; [reflexivity|]. split; [exact Hq|].
  destruct (proj2 (no_return_without_signal Sample.cli [gen false turns] start) eq_refl Hq)
    as [_ Hin].
  exact (proj1 (Hin He)).
Defined.

(** X5 on the constructed object, whose partition count is one: the
    first EOF lowers [bsms_available] and latches the count. *)
Lemma eof_count_latches_witness :
  exit_eof start = true /\ eof_cnt start + 1 = partition_cnt start /\
  bsms_available (msg_consume (message ERR__PARTITION_EOF "") (reply false "") start).2 = false /\
  latched (msg_consume (message ERR__PARTITION_EOF "") (reply false "") start).2.
Proof.
  split; [reflexivity|]. split; [reflexivity|].
  exact (proj1 (eof_count_latches (coord := unit) (entity := unit))
           (message ERR__PARTITION_EOF "") (reply false "") start eq_refl eq_refl eq_refl).
Defined.

(** X6 on the first generation of the sample run. *)
Lemma handles_created_once_witness :
  produced (generation (gen false turns) configured).2 <> produced configured /\
  is_Some (consumer (generation (gen false turns) configured).2) /\
  filtered_topic (generation (gen false turns) configured).2 = true.
Proof.
  assert (Hne : produced (generation (gen false turns) configured).2 <> produced configured)
    by (vm_compute; discriminate).
  split; [exact Hne|].
  destruct (proj2 handles_created_once (gen false turns) configured Hne) as (Hc & _ & Hf).
  split; [exact Hc | exact Hf].
Defined.

Definition unknown_topic_turn : Iteration :=
  turn false ERR__UNKNOWN_TOPIC "" false "" ERR_NO_ERROR.

(** X7 on the constructed object. *)
Lemma consumer_error_ends_loop_witness :
  consumer_failure (msg_err (it_message unknown_topic_turn)) /\
  bsms_available start = true /\
  consume_produce_loop (unknown_topic_turn :: turns) start =
  (true, iteration unknown_topic_turn start).
Proof.
  assert (Hf : consumer_failure (msg_err (it_message unknown_topic_turn)))
    by (repeat split; discriminate).
  split; [exact Hf|]. split; [reflexivity|].
  exact (proj1 (consumer_error_ends_loop unknown_topic_turn turns start Hf eq_refl)).
Defined.

(** X8 on the launch of the sample generation. *)
Lemma launch_consumer_subscribes_witness :
  (launch_consumer (gen_consumer (gen false turns)) configured).1 = Some true /\
  bsms_available (launch_consumer (gen_consumer (gen false turns)) configured).2 = true /\
  exists poll, In poll (cl_polls (gen_consumer (gen false turns))) /\
               listed (consumed_topic configured) poll.
Proof.
  assert (Hl : launch_consumer (gen_consumer (gen false turns)) configured =
               (Some true, (launch_consumer (gen_consumer (gen false turns)) configured).2))
    by (vm_compute; reflexivity).
  assert (Hav : bsms_available (launch_consumer (gen_consumer (gen false turns)) configured).2
                = true) by (vm_compute; reflexivity).
  split; [vm_compute; reflexivity|]. split; [exact Hav|].
  destruct (proj1 (launch_consumer_subscribes (gen_consumer (gen false turns)) configured)
              _ Hl Hav) as (_ & _ & Hpoll).
  exact Hpoll.
Defined.

(** X9 on the launch of the sample generation. *)
Lemma launch_producer_result_witness :
  (producer start = None /\ pl_create (gen_producer (gen false turns)) = inl "ppm-producer") /\
  (launch_producer (gen_producer (gen false turns)) start).1 = true.
Proof.
  split; [split; reflexivity|].
  apply (proj1 (launch_producer_result (gen_producer (gen false turns)) start)).
  split; [right; exists "ppm-producer"; reflexivity | reflexivity].
Defined.

(** X10 on the command line without any option. *)
Lemma configuration_file_is_mandatory_witness :
  optIsSet cli_none "c" = false /\
  exit_status (run cli_none generations start) = Some EXIT_FAILURE.
Proof.
  split; [reflexivity|].
  destruct (configuration_file_is_mandatory cli_none generations start (or_introl eq_refl))
    as (s' & _ & _ & _ & _ & _ & _ & _ & _ & _ & Hrun).
  rewrite Hrun. reflexivity.
Defined.

(** X11 on the sample file: it opens, so the reading goes on. *)
Lemma file_is_read_line_by_line_witness :
  (optIsSet Sample.cli "c" = true /\
   config_file (optString Sample.cli "c") = Some file_lines) /\
  exists s0,
    configure_read Sample.cli start = Next tt s0 /\
    pconf s0 = file_map refused file_lines (pconf start).
Proof.
  split; [split; reflexivity|].
  destruct (file_is_read_line_by_line Sample.cli start) as (_ & Hgoes & Hread).
  destruct (Hgoes file_lines eq_refl eq_refl) as [s0 Hr].
  exists s0. split; [exact Hr|].
  destruct (Hread s0 Hr) as (_ & lines & Hfile & Hpconf & _).
  assert (Hlines : lines = file_lines).
  { change (config_file (optString Sample.cli "c")) with (Some file_lines) in Hfile.
    congruence. }
  rewrite <- Hlines. exact Hpconf.
Defined.

(** A world whose map file cannot be read. *)
Definition world_shapes : World unit unit := {|
  strip := trim;
  split := fun s c => split_on c "" s;
  stod := fun _ => Some tt;
  make_shapes := fun _ => None;
  conf_accepts := fun _ name _ => negb (String.prefix "privacy." name);
  conf_errstr := fun _ name _ => "No such configuration property: " ++ name;
  literal_offset := drop_chars;
  config_file := fun path => if String.eqb path "ppm.properties" then Some file_lines else None;
  getenv := fun _ => None;
  err2str := error_text
|}.

(** X12 on the sample file with a map file that cannot be read. *)
Lemma geofence_build_witness :
  make_shapes (World := world_shapes) "road_file.csv" = None /\
  exists s', configure (H := world_shapes) Sample.cli start = Thrown s' /\
             qptr s' = qptr start.
Proof.
  split; [reflexivity|].
  assert (Hr : configure_read (H := world_shapes) Sample.cli start =
               Next tt (result_state (configure_read (H := world_shapes) Sample.cli start)))
    by (vm_compute; reflexivity).
  assert (Hm : configure_mapfile Sample.cli
                 (result_state (configure_read (H := world_shapes) Sample.cli start)) =
               Next "road_file.csv"
                 (result_state (configure_read (H := world_shapes) Sample.cli start)))
    by (vm_compute; reflexivity).
  destruct (proj2 (geofence_build (H := world_shapes) "road_file.csv"
                     (result_state (configure_read (H := world_shapes) Sample.cli start)))
              Sample.cli [] start _ Hr Hm (or_intror eq_refl))
    as (s' & Hc & Hq & _).
  exists s'. split; [exact Hc | exact Hq].
Defined.

(** The command line [ppm -c ppm.properties -o latest]. *)
Definition cli_o : CommandLine := {|
  optIsSet := fun c => (Ascii.eqb c "c" || Ascii.eqb c "o")%bool;
  optString := fun c => if Ascii.eqb c "c" then "ppm.properties"
                        else if Ascii.eqb c "o" then "latest" else "";
  optInt := fun _ => None
|}.

(** X13 on an offset that is neither a keyword nor a number:
    [configure] returns true and the offset is zero. *)
Lemma offset_resolution_witness :
  configure cli_o start = Returned true (outcome_state (configure cli_o start)) /\
  offset (outcome_state (configure cli_o start)) = 0.
Proof.
  assert (Hc : configure cli_o start = Returned true (outcome_state (configure cli_o start)))
    by (vm_compute; reflexivity).
  split; [exact Hc|].
  destruct (proj2 (proj2 (offset_resolution cli_o start) _ Hc) eq_refl) as (_ & _ & _ & Hnum).
  destruct (Hnum ltac:(discriminate) ltac:(discriminate) ltac:(discriminate)) as (_ & Hnone & _).
  apply Hnone. vm_compute. reflexivity.
Defined.

(** X14 on the sample file, which has no timeout. *)
Lemma timeout_fallback_witness :
  configure Sample.cli start = Returned true configured /\
  consumer_timeout configured = consumer_timeout start.
Proof.
  assert (Hc : configure Sample.cli start = Returned true configured)
    by (vm_compute; reflexivity).
  split; [exact Hc|].
  destruct (proj2 (timeout_fallback Sample.cli start) _ Hc) as [Ht _].
  rewrite Ht. vm_compute. reflexivity.
Defined.



(** A Kafka client that refuses an empty value. *)
Definition world_strict : World unit unit := {|
  strip := trim;
  split := fun s c => split_on c "" s;
  stod := fun _ => Some tt;
  make_shapes := fun _ => Some ([], [], []);
  conf_accepts := fun _ name value =>
    (negb (String.prefix "privacy." name) && negb (String.eqb value ""))%bool;
  conf_errstr := fun _ name _ => "Invalid value for configuration property: " ++ name;
  literal_offset := drop_chars;
  config_file := fun path => if String.eqb path "ppm.properties" then Some file_lines else None;
  getenv := fun _ => None;
  err2str := error_text
|}.

(** The command line [ppm -c ppm.properties -g ''] with an empty group
    identifier. *)
Definition cli_g : CommandLine := {|
  optIsSet := fun c => (Ascii.eqb c "c" || Ascii.eqb c "g")%bool;
  optString := fun c => if Ascii.eqb c "c" then "ppm.properties" else "";
  optInt := fun _ => None
|}.

(** X16 in that world. *)
Lemma refused_options_witness :
  (optIsSet cli_g "g" = true /\
   conf_accepts (World := world_strict) CONF_GLOBAL "group.id" (optString cli_g "g") = false) /\
  exit_status (run (H := world_strict) cli_g generations start) = Some EXIT_FAILURE.
Proof.
  assert (Hg : optIsSet cli_g "g" = true /\
               conf_accepts (World := world_strict) CONF_GLOBAL "group.id" (optString cli_g "g")
               = false) by (split; reflexivity).
  split; [exact Hg|].
  exact (proj1 (proj2 (proj1 (refused_options (H := world_strict) cli_g generations start)
                         (or_introl Hg)))).
Defined.

(** A file system with one socket, of mode 0140755. *)
Definition stat_socket (path : string) : option Z :=
  if String.eqb path "/var/run/ppm.sock" then Some 0xC1ED else None.

(** X17 on the socket: both tests hold. *)
Lemma file_tests_read_one_bit_witness :
  stat_socket "/var/run/ppm.sock" = Some 0xC1ED /\
  fileExists stat_socket "/var/run/ppm.sock" = true /\
  dirExists stat_socket "/var/run/ppm.sock" = true.
Proof.
  split; [reflexivity|].
  destruct (proj2 (file_tests_read_one_bit stat_socket "/var/run/ppm.sock") 0xC1ED eq_refl)
    as [Hfile Hdir].
  - left. reflexivity.
  - split; [apply Hfile | apply Hdir]; right; right; left; reflexivity.
Defined.

(** X18 on the sample run, which returns [EXIT_SUCCESS]. *)
Lemma summary_closes_log_witness :
  exit_status (run Sample.cli generations start) = Some EXIT_SUCCESS /\
  exists before,
    log (final (run Sample.cli generations start)) =
    (before ++ summary (final (run Sample.cli generations start)))%list.
Proof.
  assert (He : exit_status (run Sample.cli generations start) = Some EXIT_SUCCESS)
    by (vm_compute; reflexivity).
  split; [exact He|].
  destruct (proj1 (proj2 (summary_closes_log Sample.cli generations start)) He)
    as (before & _ & Hlog).
  exists before. exact Hlog.
Defined.

End Further.
